(** * kube-router network policy controller: a shallow embedding

    The Go sources embedded here are
    [pkg/controllers/netpol/network_policy_controller.go] and the companion
    file holding the pod event handlers, [syncAffectedNetworkPolicyChains],
    [syncPodFirewall] and [podFirewallChainName].

    Go strings are byte strings; they are modelled as [string] (one [ascii]
    per byte).  Go maps are [gmap]s.  A rule the composer writes is the
    argument vector the code builds before joining it with spaces.  The
    host's filter table is a list of named chains, each with the text of
    its rules; the IP sets are a list of named sets.

    The first part of the file holds the definitions, the second part the
    properties proved of them. *)

From Stdlib Require Import ZArith List Ascii String Bool Lia DecimalString.
From stdpp Require Import gmap strings list fin_maps.

Open Scope string_scope.
Open Scope list_scope.
Open Scope stdpp_scope.

(** ** Go's [strings] package on [string] *)

Module GoStrings.

(** [strings.HasPrefix(s, p)] *)
Fixpoint HasPrefix (s p : string) {struct p} : bool :=
  match p, s with
  | EmptyString, _ => true
  | String _ _, EmptyString => false
  | String a p', String b s' => if Ascii.eqb a b then HasPrefix s' p' else false
  end.

(** [strings.Contains(s, sub)] *)
Fixpoint Contains (s sub : string) : bool :=
  if HasPrefix s sub then true
  else match s with
       | EmptyString => false
       | String _ s' => Contains s' sub
       end.

(** [strings.Join(elems, sep)] *)
Fixpoint Join (elems : list string) (sep : string) : string :=
  match elems with
  | [] => ""
  | [e] => e
  | e :: rest => e +:+ sep +:+ Join rest sep
  end.

Definition newline : ascii := "010"%char.

(** [strings.Split(s, "\n")]: the pieces between line feeds; the result is
    never empty, and a text ending in a line feed yields a last piece
    [""]. *)
Fixpoint SplitLines (s : string) : list string :=
  match s with
  | EmptyString => [""]
  | String c s' =>
      if Ascii.eqb c newline then "" :: SplitLines s'
      else match SplitLines s' with
           | [] => [String c ""]
           | l :: ls => String c l :: ls
           end
  end.

(** The bytes of a string, as numbers below 256: [[]byte(s)]. *)
Fixpoint bytes (s : string) : list Z :=
  match s with
  | EmptyString => []
  | String c s' => Z.of_N (N_of_ascii c) :: bytes s'
  end.

(** [s[:n]]; Go panics when [n] exceeds the length, which is [None]. *)
Definition slice_to (n : nat) (s : string) : option string :=
  if (n <=? String.length s)%nat then Some (substring 0 n s) else None.

End GoStrings.

(** ** [crypto/sha256]: SHA-256 of FIPS 180-4 on 32-bit words held in [Z] *)

Module Sha256.
Open Scope Z_scope.

Definition w32 (x : Z) : Z := x mod 2 ^ 32.
Definition add32 (x y : Z) : Z := w32 (x + y).
Definition rotr (n x : Z) : Z :=
  Z.lor (Z.shiftr x n) (w32 (Z.shiftl x (32 - n))).
Definition not32 (x : Z) : Z := Z.lxor x 0xffffffff.

Definition Ch (x y z : Z) : Z := Z.lxor (Z.land x y) (Z.land (not32 x) z).
Definition Maj (x y z : Z) : Z :=
  Z.lxor (Z.lxor (Z.land x y) (Z.land x z)) (Z.land y z).
Definition bsig0 (x : Z) : Z := Z.lxor (Z.lxor (rotr 2 x) (rotr 13 x)) (rotr 22 x).
Definition bsig1 (x : Z) : Z := Z.lxor (Z.lxor (rotr 6 x) (rotr 11 x)) (rotr 25 x).
Definition ssig0 (x : Z) : Z := Z.lxor (Z.lxor (rotr 7 x) (rotr 18 x)) (Z.shiftr x 3).
Definition ssig1 (x : Z) : Z := Z.lxor (Z.lxor (rotr 17 x) (rotr 19 x)) (Z.shiftr x 10).

(** The round constants and the initial hash value are the first 32 bits of
    the fractional parts of the cube roots of the first 64 primes and of
    the square roots of the first 8 primes. *)
Definition is_prime (n : nat) : bool :=
  (2 <=? n)%nat && List.forallb (fun d => negb (n mod d =? 0)%nat) (List.seq 2 (n - 2)).

Definition primes (count : nat) : list Z :=
  List.map Z.of_nat (List.firstn count (List.filter is_prime (List.seq 2 310))).

(** The integer cube root, one bit at a time from bit [bits - 1] down. *)
Fixpoint icbrt (bits : nat) (n r : Z) : Z :=
  match bits with
  | O => r
  | S b => let r' := r + 2 ^ Z.of_nat b in
           icbrt b n (if r' * r' * r' <=? n then r' else r)
  end.

Definition K : list Z := List.map (fun p => w32 (icbrt 40 (p * 2 ^ 96) 0)) (primes 64).

(** The eight working variables. *)
Record regs := Regs { ra : Z; rb : Z; rc : Z; rd : Z; re : Z; rf : Z; rg : Z; rh : Z }.

Definition H0 : regs :=
  match List.map (fun p => w32 (Z.sqrt (p * 2 ^ 64))) (primes 8) with
  | [a; b; c; d; e; f; g; h] => Regs a b c d e f g h
  | _ => Regs 0 0 0 0 0 0 0 0
  end.

(** Padding: a 1 bit, zeros up to 56 mod 64, the bit length on 8 bytes. *)
Definition be_bytes (n : nat) (x : Z) : list Z :=
  List.map (fun i => Z.shiftr x (8 * Z.of_nat i) mod 256) (List.rev (List.seq 0 n)).

Definition pad (msg : list Z) : list Z :=
  let len := Z.of_nat (List.length msg) in
  let zeros := Z.to_nat ((55 - len) mod 64) in
  msg ++ [0x80] ++ List.repeat 0 zeros ++ be_bytes 8 (8 * len).

Fixpoint be_words (fuel : nat) (bs : list Z) : list Z :=
  match fuel, bs with
  | S fuel', b0 :: b1 :: b2 :: b3 :: rest =>
      (b0 * 2 ^ 24 + b1 * 2 ^ 16 + b2 * 2 ^ 8 + b3) :: be_words fuel' rest
  | _, _ => []
  end.

(** The message schedule: [win] holds the last sixteen words, oldest first. *)
Fixpoint schedule (n : nat) (win : list Z) : list Z :=
  match n with
  | O => []
  | S n' =>
      let w := add32 (add32 (ssig1 (List.nth 14 win 0)) (List.nth 9 win 0))
                     (add32 (ssig0 (List.nth 1 win 0)) (List.nth 0 win 0)) in
      w :: schedule n' (List.tl win ++ [w])
  end.

Definition round (r : regs) (kw : Z * Z) : regs :=
  let t1 := add32 (add32 (add32 (rh r) (bsig1 (re r))) (Ch (re r) (rf r) (rg r)))
                  (add32 (fst kw) (snd kw)) in
  let t2 := add32 (bsig0 (ra r)) (Maj (ra r) (rb r) (rc r)) in
  Regs (add32 t1 t2) (ra r) (rb r) (rc r) (add32 (rd r) t1) (re r) (rf r) (rg r).

Definition compress (h : regs) (block : list Z) : regs :=
  let w16 := be_words 16 block in
  let w := w16 ++ schedule 48 w16 in
  let r := List.fold_left round (List.combine K w) h in
  Regs (add32 (ra h) (ra r)) (add32 (rb h) (rb r)) (add32 (rc h) (rc r)) (add32 (rd h) (rd r))
       (add32 (re h) (re r)) (add32 (rf h) (rf r)) (add32 (rg h) (rg r)) (add32 (rh h) (rh r)).

Fixpoint blocks (fuel : nat) (h : regs) (bs : list Z) : regs :=
  match fuel, bs with
  | S fuel', _ :: _ => blocks fuel' (compress h (List.firstn 64 bs)) (List.skipn 64 bs)
  | _, _ => h
  end.

Definition digest (r : regs) : list Z :=
  List.concat (List.map (be_bytes 4) [ra r; rb r; rc r; rd r; re r; rf r; rg r; rh r]).

(** [sha256.Sum256(data)]: the 32-byte digest. *)
Definition Sum256 (data : list Z) : list Z :=
  let p := pad data in digest (blocks (List.length p) H0 p).

(** A digest read as one big-endian number. *)
Definition hex (bs : list Z) : Z :=
  List.fold_left (fun acc b => acc * 256 + b) bs 0.

End Sha256.

(** ** [encoding/base32]: the standard encoding with padding *)

Module Base32.

Definition encodeStd : string := "ABCDEFGHIJKLMNOPQRSTUVWXYZ234567".

Definition digit (v : Z) : ascii :=
  match String.get (Z.to_nat (v mod 32)) encodeStd with
  | Some c => c
  | None => "="%char
  end.

(** The eight 5-bit groups of a 40-bit quantum, most significant first. *)
Definition quantum (b0 b1 b2 b3 b4 : Z) : list ascii :=
  let v := (b0 * 2 ^ 32 + b1 * 2 ^ 24 + b2 * 2 ^ 16 + b3 * 2 ^ 8 + b4)%Z in
  List.map (fun i => digit (Z.shiftr v (5 * Z.of_nat i)))
           (List.rev (List.seq 0 8)).

Definition padded (keep : nat) (cs : list ascii) : list ascii :=
  List.firstn keep cs ++ List.repeat "="%char (8 - keep).

Fixpoint encode (src : list Z) : list ascii :=
  match src with
  | [] => []
  | [b0] => padded 2 (quantum b0 0 0 0 0)
  | [b0; b1] => padded 4 (quantum b0 b1 0 0 0)
  | [b0; b1; b2] => padded 5 (quantum b0 b1 b2 0 0)
  | [b0; b1; b2; b3] => padded 7 (quantum b0 b1 b2 b3 0)
  | b0 :: b1 :: b2 :: b3 :: b4 :: rest => quantum b0 b1 b2 b3 b4 ++ encode rest
  end.

(** [base32.StdEncoding.EncodeToString(src)] *)
Definition EncodeToString (src : list Z) : string :=
  string_of_list_ascii (encode src).

End Base32.



(** ** The controller's constants and name derivation *)

Definition kubePodFirewallChainPrefix : string := "KUBE-POD-FW-".
Definition kubeNetworkPolicyChainPrefix : string := "KUBE-NWPLCY-".
Definition kubeSourceIPSetPrefix : string := "KUBE-SRC-".
Definition kubeDestinationIPSetPrefix : string := "KUBE-DST-".
Definition kubeInputChainName : string := "KUBE-ROUTER-INPUT".
Definition kubeForwardChainName : string := "KUBE-ROUTER-FORWARD".
Definition kubeOutputChainName : string := "KUBE-ROUTER-OUTPUT".
Definition KubeDefaultPodFWChain : string := "KUBE-POD-FW-DEFAULT".
Definition kubeIngressNetpolChain : string := "KUBE-NWPLCY-DEFAULT-INGRESS".
Definition kubeEgressNetpolChain : string := "KUBE-NWPLCY-DEFAULT-EGRESS".

(** [base32.StdEncoding.EncodeToString(hash[:])] of the SHA-256 of [input]. *)
Definition encodedHash (input : string) : string :=
  Base32.EncodeToString (Sha256.Sum256 (GoStrings.bytes input)).

(** [podFirewallChainName].  The Go slice [encoded[:16]] panics when the
    string is shorter than 16; [podFirewallChainName_slice] below shows the
    slice is always in range, so it is written [substring 0 16]. *)
Definition podFirewallChainName (namespace podName version : string) : string :=
  let encoded := encodedHash (namespace +:+ podName +:+ version) in
  kubePodFirewallChainPrefix +:+ substring 0 16 encoded.

(** Modelled from the spec: [networkPolicyChainName] is not among the
    sources.  Section 4.1 of the specification derives the per-policy chain
    name as the per-pod one, from namespace, policy name and sync version,
    under the per-policy prefix. *)
Definition networkPolicyChainName (namespace policyName version : string) : string :=
  let encoded := encodedHash (namespace +:+ policyName +:+ version) in
  kubeNetworkPolicyChainPrefix +:+ substring 0 16 encoded.


(** ** Errors, channels and the controller record *)

(** A Go [error] value; [fmt.Errorf] and [err.Error()] are its text. *)
Inductive error : Type := errorString (msg : string).

Definition Error (e : error) : string := let 'errorString m := e in m.

(** A call returning [(value, error)]: [inl v] is [v, nil]. *)
Definition result (A : Type) : Type := (A + error)%type.

(** A buffered channel of [struct{}]: only the number of queued items
    matters. *)
Record chan : Type := Chan { cap : nat; queued : nat }.

(** [make(chan struct{}, n)] *)
Definition make_chan (n : nat) : chan := Chan n 0.

(** A send inside a [select]: [None] when the send would block. *)
Definition try_send (c : chan) : option chan :=
  if (queued c <? cap c)%nat then Some (Chan (cap c) (S (queued c))) else None.

(** A receive inside a [select]: [None] when nothing is queued. *)
Definition try_recv (c : chan) : option chan :=
  match queued c with
  | O => None
  | S n => Some (Chan (cap c) n)
  end.

(** [net.IPNet] and [net.IP] are carried by their [String()] form. *)
Definition IPNet : Type := string.
Definition IP : Type := string.

(** The state of the host's IP sets as the handler sees it after [Save]:
    set names with their members. *)
Definition IPSet : Type := list (string * list string).

Record NetworkPolicyController : Type := {
  nodeIP : IP;
  nodeHostName : string;
  nodePodIPCIDR : string;
  serviceClusterIPRange : IPNet;
  serviceExternalIPRanges : list IPNet;
  serviceNodePortRange : string;
  syncPeriod : Z;
  MetricsEnabled : bool;
  fullSyncRequestChan : chan;
  readyForUpdates : bool;
  netpolAllowPreCheck : bool;
  ipSetHandler : IPSet
}.

(** [options.KubeRouterConfig], the fields the constructor reads. *)
Record KubeRouterConfig : Type := {
  ClusterIPCIDR : string;
  RunRouter : bool;
  HostnameOverride : string;
  NetpolAllowPreCheck : bool;
  NodePortRange : string;
  ExternalIPCIDRs : list string;
  cfgMetricsEnabled : bool;
  IPTablesSyncPeriod : Z
}.

(** ** [regexp] and [strconv] as the constructor uses them *)

Module NodePort.

Definition isDigit (c : ascii) : bool :=
  (48 <=? nat_of_ascii c)%nat && (nat_of_ascii c <=? 57)%nat.

(** The longest prefix of digits and what follows it. *)
Fixpoint spanDigits (s : string) : string * string :=
  match s with
  | EmptyString => ("", "")
  | String c s' =>
      if isDigit c then let '(d, r) := spanDigits s' in (String c d, r)
      else ("", s)
  end.

Definition isSeparator (c : ascii) : bool :=
  Ascii.eqb c ":"%char || Ascii.eqb c "-"%char.

(** [nodePortValidator.FindStringSubmatch(s)] for the pattern
    [^([0-9]+)[:-]{1}([0-9]+)$]: the whole match and the two groups, or
    [None] (a nil slice) when the text does not match. *)
Definition FindStringSubmatch (s : string) : option (list string) :=
  match spanDigits s with
  | (String c1 d1, String sep r) =>
      if isSeparator sep then
        match spanDigits r with
        | (String c2 d2, EmptyString) => Some [s; String c1 d1; String c2 d2]
        | _ => None
        end
      else None
  | _ => None
  end.

(** [nodePortValidator.MatchString(s)] *)
Definition MatchString (s : string) : bool :=
  match FindStringSubmatch s with Some _ => true | None => false end.

Fixpoint allDigits (s : string) : bool :=
  match s with
  | EmptyString => true
  | String c s' => isDigit c && allDigits s'
  end.

Fixpoint decimalFrom (acc : Z) (s : string) : Z :=
  match s with
  | EmptyString => acc
  | String c s' => decimalFrom (10 * acc + (Z.of_nat (nat_of_ascii c) - 48)) s'
  end.

(** The number a string of decimal digits denotes. *)
Definition decimal (s : string) : Z := decimalFrom 0 s.

(** [strconv.ParseInt(s, 10, bitSize)]: an optional sign, then decimal
    digits only; a value outside the signed [bitSize]-bit range is an
    error. *)
Definition ParseInt (s : string) (bitSize : Z) : result Z :=
  let syntax := errorString ("strconv.ParseInt: parsing " +:+ s +:+ ": invalid syntax") in
  let range := errorString ("strconv.ParseInt: parsing " +:+ s +:+ ": value out of range") in
  match s with
  | EmptyString => inr syntax
  | String c rest =>
      let neg := Ascii.eqb c "-"%char in
      let ds := if neg || Ascii.eqb c "+"%char then rest else s in
      match ds with
      | EmptyString => inr syntax
      | String _ _ =>
          if allDigits ds then
            let n := decimal ds in
            let cutoff := (2 ^ (bitSize - 1))%Z in
            if negb neg && (cutoff <=? n)%Z then inr range
            else if neg && (cutoff <? n)%Z then inr range
            else inl (if neg then (- n)%Z else n)
          else inr syntax
      end
  end.

(** [fmt.Sprintf("%d", n)] *)
Definition formatInt (n : Z) : string := NilZero.string_of_int (Z.to_int n).

End NodePort.


(** ** [NewNetworkPolicyController] *)

(** The constructor threads one piece of process-wide state, the set of
    collectors registered with Prometheus.  It stops at the first error;
    and a panic, which ends the call with nothing returned, is [None]. *)
Module Ctor.

Definition M (A : Type) : Type := list string -> option (result A * list string).

Definition ret {A : Type} (a : A) : M A := fun reg => Some (inl a, reg).
Definition fail {A : Type} (e : error) : M A := fun reg => Some (inr e, reg).
Definition bind {A B : Type} (m : M A) (k : A -> M B) : M B :=
  fun reg => match m reg with
             | Some (inl a, reg') => k a reg'
             | Some (inr e, reg') => Some (inr e, reg')
             | None => None
             end.
(** [prometheus.MustRegister(c)]: the collector joins the registry, and
    the call panics when it is registered already. *)
Definition MustRegister (collector : string) : M unit :=
  fun reg => if List.existsb (String.eqb collector) reg then None
             else Some (inl tt, reg ++ [collector]).

#[export] Instance ctor_ret : MRet M := @ret.
#[export] Instance ctor_bind : MBind M := fun A B k m => bind m k.

End Ctor.

Section Constructor.
Import Ctor NodePort.

(** Calls into packages outside the embedded files. *)
Variable Node : Type.
Variable NodeName : Node -> string.
Variable ParseCIDR : string -> result IPNet.
Variable GetPodCidrFromNodeSpec : string -> result string.
Variable GetNodeObject : string -> result Node.
Variable GetNodeIP : Node -> result IP.
(** [utils.NewIPSet(false)] followed by [ipset.Save()] *)
Variable NewIPSetSaved : result IPSet.

Definition call {A : Type} (r : result A) (wrap : error -> error) : M A :=
  match r with
  | inl a => ret a
  | inr e => fail (wrap e)
  end.

Definition Errorf1 (fmt : string) (arg : string) : error := errorString (fmt +:+ arg).

(** The loop over [config.ExternalIPCIDRs]. *)
Fixpoint parseExternalIPRanges (ranges : list string) (acc : list IPNet) : M (list IPNet) :=
  match ranges with
  | [] => ret acc
  | externalIPRange :: rest =>
      ipnet ← call (ParseCIDR externalIPRange)
                (fun err => errorString
                   ("failed to get parse --service-external-ip-range parameter: '"
                      +:+ externalIPRange +:+ "'. Error: " +:+ Error err));
      parseExternalIPRanges rest (acc ++ [ipnet])
  end.

Definition NewNetworkPolicyController (config : KubeRouterConfig)
  : M NetworkPolicyController :=
  let fullSyncRequestChan := make_chan 1 in
  ipnet ← call (ParseCIDR (ClusterIPCIDR config))
            (fun err => Errorf1 "failed to get parse --service-cluster-ip-range parameter: "
                                (Error err));
  cidr ← (if RunRouter config
          then call (GetPodCidrFromNodeSpec (HostnameOverride config))
                 (fun err => Errorf1 "Failed to get pod CIDR details from Node.spec: "
                                     (Error err))
          else ret "");
  (if negb (MatchString (NodePortRange config))
   then fail (errorString ("failed to parse node port range given: '"
                             +:+ NodePortRange config
                             +:+ "' please see specification in help text"))
   else ret tt) ;;
  let matches := match FindStringSubmatch (NodePortRange config) with
                 | Some ms => ms
                 | None => []
                 end in
  (if negb (length matches =? 3)%nat
   then fail (errorString ("could not parse port number from range given: '"
                             +:+ NodePortRange config +:+ "'"))
   else ret tt) ;;
  port1 ← call (ParseInt (List.nth 1 matches "") 16)
            (fun _ => errorString ("could not parse first port number from range given: '"
                                     +:+ NodePortRange config +:+ "'"));
  port2 ← call (ParseInt (List.nth 2 matches "") 16)
            (fun _ => errorString ("could not parse second port number from range given: '"
                                     +:+ NodePortRange config +:+ "'"));
  (if (port2 <=? port1)%Z
   then fail (errorString ("port 1 is greater than or equal to port 2 in range given: '"
                             +:+ NodePortRange config +:+ "'"))
   else ret tt) ;;
  let nodePortRange := formatInt port1 +:+ ":" +:+ formatInt port2 in
  externalIPRanges ← parseExternalIPRanges (ExternalIPCIDRs config) [];
  (if cfgMetricsEnabled config
   then MustRegister "ControllerIptablesSyncTime" ;;
        MustRegister "ControllerPolicyChainsSyncTime"
   else ret tt) ;;
  node ← call (GetNodeObject (HostnameOverride config)) (fun err => err);
  ip ← call (GetNodeIP node) (fun err => err);
  ipset ← call NewIPSetSaved (fun err => err);
  ret {| nodeIP := ip;
         nodeHostName := NodeName node;
         nodePodIPCIDR := cidr;
         serviceClusterIPRange := ipnet;
         serviceExternalIPRanges := externalIPRanges;
         serviceNodePortRange := nodePortRange;
         syncPeriod := IPTablesSyncPeriod config;
         MetricsEnabled := cfgMetricsEnabled config;
         fullSyncRequestChan := fullSyncRequestChan;
         readyForUpdates := false;
         netpolAllowPreCheck := NetpolAllowPreCheck config;
         ipSetHandler := ipset |}.

(** The constructor failed and registered nothing. *)
Definition construction_fails (config : KubeRouterConfig) : Prop :=
  forall registry : list string,
  exists err : error, NewNetworkPolicyController config registry = Some (inr err, registry).

End Constructor.

(** A concrete environment for running the constructor: a cluster whose
    API answers, and a CIDR parser that knows two ranges. *)
Module SampleCluster.

Definition ParseCIDR (s : string) : result IPNet :=
  if String.eqb s "10.96.0.0/12" || String.eqb s "192.0.2.0/24" then inl s
  else inr (errorString ("invalid CIDR address: " +:+ s)).

Definition GetPodCidrFromNodeSpec (hostname : string) : result string := inl "10.1.2.0/24".
Definition GetNodeObject (hostname : string) : result string := inl hostname.
Definition GetNodeIP (node : string) : result IP := inl "192.168.0.10".
Definition NewIPSetSaved : result IPSet := inl [].

Definition New : KubeRouterConfig -> Ctor.M NetworkPolicyController :=
  NewNetworkPolicyController string (fun n => n) ParseCIDR GetPodCidrFromNodeSpec
                             GetNodeObject GetNodeIP NewIPSetSaved.

Definition config (cidr range : string) : KubeRouterConfig :=
  {| ClusterIPCIDR := cidr;
     RunRouter := true;
     HostnameOverride := "node-1";
     NetpolAllowPreCheck := false;
     NodePortRange := range;
     ExternalIPCIDRs := ["192.0.2.0/24"];
     cfgMetricsEnabled := true;
     IPTablesSyncPeriod := 300 |}.

End SampleCluster.

(** ** Full-sync requests and the pod event handlers *)

Definition set_fullSyncRequestChan (npc : NetworkPolicyController) (c : chan)
  : NetworkPolicyController :=
  {| nodeIP := nodeIP npc;
     nodeHostName := nodeHostName npc;
     nodePodIPCIDR := nodePodIPCIDR npc;
     serviceClusterIPRange := serviceClusterIPRange npc;
     serviceExternalIPRanges := serviceExternalIPRanges npc;
     serviceNodePortRange := serviceNodePortRange npc;
     syncPeriod := syncPeriod npc;
     MetricsEnabled := MetricsEnabled npc;
     fullSyncRequestChan := c;
     readyForUpdates := readyForUpdates npc;
     netpolAllowPreCheck := netpolAllowPreCheck npc;
     ipSetHandler := ipSetHandler npc |}.

Definition set_readyForUpdates (npc : NetworkPolicyController) (b : bool)
  : NetworkPolicyController :=
  {| nodeIP := nodeIP npc;
     nodeHostName := nodeHostName npc;
     nodePodIPCIDR := nodePodIPCIDR npc;
     serviceClusterIPRange := serviceClusterIPRange npc;
     serviceExternalIPRanges := serviceExternalIPRanges npc;
     serviceNodePortRange := serviceNodePortRange npc;
     syncPeriod := syncPeriod npc;
     MetricsEnabled := MetricsEnabled npc;
     fullSyncRequestChan := fullSyncRequestChan npc;
     readyForUpdates := b;
     netpolAllowPreCheck := netpolAllowPreCheck npc;
     ipSetHandler := ipSetHandler npc |}.

(** What a call did besides returning: the controller it leaves and the
    messages it handed to glog.  The code passes each of them through
    [glog.V(1)], [glog.V(2)] or [glog.V(3)]; the verbosity is not modelled,
    so these are the lines of a log at verbosity 3 or more, and at the
    default verbosity none of them is written. *)
Definition effect : Type := (NetworkPolicyController * list string)%type.

(** [RequestFullSync]: a [select] with a send case and a [default] case, so
    the call returns whether or not the send can proceed. *)
Definition RequestFullSync (npc : NetworkPolicyController) : effect :=
  match try_send (fullSyncRequestChan npc) with
  | Some c =>
      (set_fullSyncRequestChan npc c,
       ["Full sync request queue was empty so a full sync request was successfully sent"])
  | None => (npc, ["Full sync request queue was full, skipping..."])
  end.

(** [api.Pod], the fields the controller reads.  A nil label map is [None]:
    [reflect.DeepEqual] tells it from an empty one. *)
Record Pod : Type := {
  podNamespace : string;
  podName : string;
  podPhase : string;
  podIP : string;
  podHostIP : string;
  podHostNetwork : bool;
  podLabels : option (gmap string string)
}.

(** The [interface{}] a callback receives. *)
Inductive Object : Type :=
| PodObject (p : Pod)
| ForeignObject.

(** [reflect.DeepEqual] on two label maps. *)
Definition DeepEqual_labels (a b : option (gmap string string)) : bool :=
  match a, b with
  | None, None => true
  | Some m, Some n => bool_decide (m = n)
  | _, _ => false
  end.

(** A handler either returns or panics ([None]) on a failed type
    assertion of its argument to a pod. *)
Definition handled : Type := option effect.

Definition logged_then (line : string) (e : effect) : effect :=
  (fst e, line :: snd e).

Definition AddFunc (npc : NetworkPolicyController) (obj : Object) : handled :=
  if negb (readyForUpdates npc) then Some (npc, [])
  else match obj with
       | ForeignObject => None
       | PodObject podObj =>
           Some (logged_then
                   ("Received pod:" +:+ podNamespace podObj +:+ "/" +:+ podName podObj
                      +:+ " add event")
                   (RequestFullSync npc))
       end.

Definition UpdateFunc (npc : NetworkPolicyController) (oldObj newObj : Object) : handled :=
  if negb (readyForUpdates npc) then Some (npc, [])
  else match newObj, oldObj with
       | PodObject newPodObj, PodObject oldPodObj =>
           let line := "Received pod:" +:+ podNamespace newPodObj +:+ "/"
                         +:+ podName newPodObj +:+ " update event" in
           if negb (String.eqb (podPhase newPodObj) (podPhase oldPodObj))
              || negb (String.eqb (podIP newPodObj) (podIP oldPodObj))
              || negb (DeepEqual_labels (podLabels newPodObj) (podLabels oldPodObj))
           then Some (logged_then line (RequestFullSync npc))
           else Some (npc, [line])
       | _, _ => None
       end.

Definition DeleteFunc (npc : NetworkPolicyController) (obj : Object) : handled :=
  if negb (readyForUpdates npc) then Some (npc, [])
  else Some (RequestFullSync npc).

(** ** [Run]: the ticker, the sync goroutine and the callbacks, interleaved *)

(** Where the sync goroutine stands: blocked in its [select], inside
    [fullPolicySync], or between its return and the assignment to
    [readyForUpdates]. *)
Inductive consumer : Type := Waiting | Syncing | Returned.

Record system : Type := {
  controller : NetworkPolicyController;
  goroutine : consumer;
  syncsStarted : nat;
  syncsCompleted : nat;
  glog : list string                     (* the messages handed to glog, as in [effect] *)
}.

Inductive event : Type :=
| Tick                                   (* the loop of [Run] calls RequestFullSync *)
| Receive                                (* [case <-fullSyncRequest] *)
| SyncReturns                            (* [npc.fullPolicySync()] returns *)
| SetReady                               (* [npc.readyForUpdates = true] *)
| PodAdded (obj : Object)
| PodUpdated (oldObj newObj : Object)
| PodDeleted (obj : Object).

Definition apply_effect (s : system) (e : effect) : system :=
  {| controller := fst e;
     goroutine := goroutine s;
     syncsStarted := syncsStarted s;
     syncsCompleted := syncsCompleted s;
     glog := glog s ++ snd e |}.

(** One atomic step; [None] when the event cannot happen in this state (or
    the callback panics). *)
Definition step (s : system) (ev : event) : option system :=
  match ev with
  | Tick => Some (apply_effect s (RequestFullSync (controller s)))
  | Receive =>
      match goroutine s, try_recv (fullSyncRequestChan (controller s)) with
      | Waiting, Some c =>
          Some {| controller := set_fullSyncRequestChan (controller s) c;
                  goroutine := Syncing;
                  syncsStarted := S (syncsStarted s);
                  syncsCompleted := syncsCompleted s;
                  glog := glog s ++ ["Received request for a full sync, processing"] |}
      | _, _ => None
      end
  | SyncReturns =>
      match goroutine s with
      | Syncing =>
          Some {| controller := controller s;
                  goroutine := Returned;
                  syncsStarted := syncsStarted s;
                  syncsCompleted := S (syncsCompleted s);
                  glog := glog s |}
      | _ => None
      end
  | SetReady =>
      match goroutine s with
      | Returned =>
          Some {| controller := set_readyForUpdates (controller s) true;
                  goroutine := Waiting;
                  syncsStarted := syncsStarted s;
                  syncsCompleted := syncsCompleted s;
                  glog := glog s |}
      | _ => None
      end
  | PodAdded obj => apply_effect s <$> AddFunc (controller s) obj
  | PodUpdated oldObj newObj => apply_effect s <$> UpdateFunc (controller s) oldObj newObj
  | PodDeleted obj => apply_effect s <$> DeleteFunc (controller s) obj
  end.

Fixpoint run (s : system) (evs : list event) : option system :=
  match evs with
  | [] => Some s
  | ev :: rest => match step s ev with
                  | Some s' => run s' rest
                  | None => None
                  end
  end.

(** The system as [Run] finds it, right after construction. *)
Definition started (npc : NetworkPolicyController) : system :=
  {| controller := npc; goroutine := Waiting; syncsStarted := 0; syncsCompleted := 0;
     glog := [] |}.

(** [n] calls of [RequestFullSync] in a row, nothing else in between. *)
Fixpoint RequestFullSync_times (n : nat) (npc : NetworkPolicyController) : effect :=
  match n with
  | O => (npc, [])
  | S n' => let '(npc1, l1) := RequestFullSync npc in
            let '(npc2, l2) := RequestFullSync_times n' npc1 in
            (npc2, l1 ++ l2)
  end.

(** The events of the sync goroutine alone. *)
Definition consumer_event (ev : event) : bool :=
  match ev with
  | Receive | SyncReturns | SetReady => true
  | _ => false
  end.

(** The flag is only ever raised behind a completed sync. *)
Definition ready_behind_sync (s : system) : Prop :=
  (readyForUpdates (controller s) = true -> 1 <= syncsCompleted s) /\
  (goroutine s = Returned -> 1 <= syncsCompleted s).

(** The controller the sample cluster constructs, and two states of its
    event loop: before any sync has completed, and with a request waiting
    in the slot. *)
Definition sampleController : NetworkPolicyController :=
  {| nodeIP := "192.168.0.10";
     nodeHostName := "node-1";
     nodePodIPCIDR := "10.1.2.0/24";
     serviceClusterIPRange := "10.96.0.0/12";
     serviceExternalIPRanges := ["192.0.2.0/24"];
     serviceNodePortRange := "30000:32767";
     syncPeriod := 300;
     MetricsEnabled := true;
     fullSyncRequestChan := make_chan 1;
     readyForUpdates := false;
     netpolAllowPreCheck := false;
     ipSetHandler := [] |}.

Definition samplePod : Pod :=
  {| podNamespace := "default"; podName := "web-0"; podPhase := "Running";
     podIP := "10.1.2.5"; podHostIP := "192.168.0.10"; podHostNetwork := false;
     podLabels := Some {[ "app" := "web" ]} |}.

Definition sampleEarlyTrace : list event :=
  [Tick; PodAdded (PodObject samplePod); Receive; PodDeleted ForeignObject; SyncReturns].

Definition sampleEarlyState : system :=
  {| controller := sampleController;
     goroutine := Returned;
     syncsStarted := 1;
     syncsCompleted := 1;
     glog := ["Full sync request queue was empty so a full sync request was successfully sent";
              "Received request for a full sync, processing"] |}.

Definition sampleOccupied : system :=
  {| controller := set_fullSyncRequestChan sampleController (Chan 1 1);
     goroutine := Syncing;
     syncsStarted := 1;
     syncsCompleted := 0;
     glog := [] |}.

(** ** The filter-table composer: per-pod firewall chains *)

(** internal structure to represent a pod *)
Record podInfo : Type := {
  ip : string;
  name : string;
  namespace : string;
  labels : option (gmap string string)
}.

(** internal structure to represent a network policy, the fields the
    composer reads *)
Record networkPolicyInfo : Type := {
  policyName : string;
  policyNamespace : string;
  targetPods : gmap string podInfo;
  policyType : string
}.

(** The argument vector of one rule, as the code builds it before joining
    it with spaces; the last argument is the line feed. *)
Definition rule : Type := list string.

Definition lf : string := String GoStrings.newline "".
Definition dq : string := String "034"%char "".
Definition quoted (s : string) : string := dq +:+ s +:+ dq.

(** [currentFilterTable.WriteString(strings.Join(args, " "))] *)
Definition WriteRule (buf : string) (args : rule) : string :=
  buf +:+ GoStrings.Join args " ".

Definition WriteRules (buf : string) (rules : list rule) : string :=
  List.fold_left WriteRule rules buf.

(** The rules [setupPodIngressRules] writes, in the order it writes them. *)
Definition setupPodIngressRules (pod : podInfo) (podFwChainName : string)
    (networkPoliciesInfo : list networkPolicyInfo) (version : string) : list rule :=
  let applicable :=
    List.filter (fun policy => bool_decide (is_Some (targetPods policy !! ip pod)))
                networkPoliciesInfo in
  let ingressPoliciesPresent := negb (bool_decide (applicable = [])) in
  List.map (fun policy =>
              let comment := quoted ("run through nw policy " +:+ policyName policy) in
              let policyChainName :=
                networkPolicyChainName (policyNamespace policy) (policyName policy) version in
              ["-I"; podFwChainName; "1"; "-m"; "comment"; "--comment"; comment;
               "-j"; policyChainName; lf])
           applicable
  ++ (if negb ingressPoliciesPresent
      then [["-I"; podFwChainName; "1"; "-d"; ip pod; "-m"; "comment"; "--comment";
             quoted "run through default ingress policy  chain";
             "-j"; kubeIngressNetpolChain; lf]]
      else [])
  ++ [["-I"; podFwChainName; "1"; "-m"; "comment"; "--comment";
       quoted "rule to permit the traffic traffic to pods when source is the pod's local node";
       "-m"; "addrtype"; "--src-type"; "LOCAL"; "-d"; ip pod; "-j"; "ACCEPT"; lf];
      ["-I"; podFwChainName; "1"; "-m"; "comment"; "--comment";
       quoted "rule for stateful firewall for pod";
       "-m"; "conntrack"; "--ctstate"; "RELATED,ESTABLISHED"; "-j"; "ACCEPT"; lf]].

(** The rules [setupPodEgressRules] writes. *)
Definition setupPodEgressRules (pod : podInfo) (podFwChainName : string)
    (networkPoliciesInfo : list networkPolicyInfo) (version : string) : list rule :=
  let applicable :=
    List.filter (fun policy => bool_decide (is_Some (targetPods policy !! ip pod)))
                networkPoliciesInfo in
  let egressPoliciesPresent := negb (bool_decide (applicable = [])) in
  List.map (fun policy =>
              let comment := quoted ("run through nw policy " +:+ policyName policy) in
              let policyChainName :=
                networkPolicyChainName (policyNamespace policy) (policyName policy) version in
              ["-I"; podFwChainName; "1"; "-m"; "comment"; "--comment"; comment;
               "-j"; policyChainName; lf])
           applicable
  ++ (if negb egressPoliciesPresent
      then [["-I"; podFwChainName; "1"; "-s"; ip pod; "-m"; "comment"; "--comment";
             quoted "run through default egress policy  chain";
             "-j"; kubeEgressNetpolChain; lf]]
      else [])
  ++ [["-I"; podFwChainName; "1"; "-m"; "comment"; "--comment";
       quoted "rule for stateful firewall for pod";
       "-m"; "conntrack"; "--ctstate"; "RELATED,ESTABLISHED"; "-j"; "ACCEPT"; lf]].

(** The log rule and the reject rule of [processNonWhitelistedTrafficRules]. *)
Definition logRule (podName podNamespace podFwChainName : string) : rule :=
  ["-A"; podFwChainName; "-m"; "comment"; "--comment";
   quoted ("rule to log dropped traffic POD name:" +:+ podName +:+ " namespace: "
             +:+ podNamespace);
   "-m"; "mark"; "!"; "--mark"; "0x10000/0x10000"; "-j"; "NFLOG"; "--nflog-group"; "100";
   "-m"; "limit"; "--limit"; "10/minute"; "--limit-burst"; "10"; lf].

Definition rejectRule (podName podNamespace podFwChainName : string) : rule :=
  ["-A"; podFwChainName; "-m"; "comment"; "--comment";
   quoted ("rule to REJECT traffic destined for POD name:" +:+ podName +:+ " namespace: "
             +:+ podNamespace);
   "-m"; "mark"; "!"; "--mark"; "0x10000/0x10000"; "-j"; "REJECT"; lf].

Definition processNonWhitelistedTrafficRules (podName podNamespace podFwChainName : string)
  : list rule :=
  [logRule podName podNamespace podFwChainName;
   rejectRule podName podNamespace podFwChainName].

(** The two mark rules of [processWhitelistedTrafficRules]. *)
Definition resetMarkRule (podFwChainName : string) : rule :=
  ["-A"; podFwChainName; "-j"; "MARK"; "--set-mark"; "0/0x10000"; lf].

Definition acceptMarkRule (podFwChainName : string) : rule :=
  ["-A"; podFwChainName; "-m"; "comment"; "--comment";
   quoted "set mark to ACCEPT traffic that comply to network policies";
   "-j"; "MARK"; "--set-mark"; "0x20000/0x20000"; lf].

Definition processWhitelistedTrafficRules (podName podNamespace podFwChainName : string)
  : list rule :=
  [resetMarkRule podFwChainName; acceptMarkRule podFwChainName].

Definition interceptPodInboundTraffic (pod : podInfo) (podFwChainName : string) : list rule :=
  let comment := quoted ("rule to jump traffic destined to POD name:" +:+ name pod
                           +:+ " namespace: " +:+ namespace pod
                           +:+ " to chain " +:+ podFwChainName) in
  [["-I"; kubeForwardChainName; "1"; "-m"; "comment"; "--comment"; comment;
    "-d"; ip pod; "-j"; podFwChainName; lf];
   ["-I"; kubeOutputChainName; "1"; "-m"; "comment"; "--comment"; comment;
    "-d"; ip pod; "-j"; podFwChainName; lf];
   ["-I"; kubeForwardChainName; "1"; "-m"; "physdev"; "--physdev-is-bridged";
    "-m"; "comment"; "--comment"; comment; "-d"; ip pod; "-j"; podFwChainName; lf]].

Definition interceptPodOutboundTraffic (pod : podInfo) (podFwChainName : string) : list rule :=
  let comment := quoted ("rule to jump traffic from POD name:" +:+ name pod
                           +:+ " namespace: " +:+ namespace pod
                           +:+ " to chain " +:+ podFwChainName) in
  List.map (fun chain =>
              ["-I"; chain; "1"; "-m"; "comment"; "--comment"; comment;
               "-s"; ip pod; "-j"; podFwChainName; lf])
           [kubeInputChainName; kubeForwardChainName; kubeOutputChainName]
  ++ [["-I"; kubeForwardChainName; "1"; "-m"; "physdev"; "--physdev-is-bridged";
       "-m"; "comment"; "--comment"; comment; "-s"; ip pod; "-j"; podFwChainName; lf]].

(** [syncPodFirewall]: the six helpers in the order the code calls them.
    Each of them returns a nil error, so nothing cuts the sequence short. *)
Definition syncPodFirewallRules (pod : podInfo)
    (networkPoliciesInfo : list networkPolicyInfo) (version : string) : list rule :=
  let podFwChainName := podFirewallChainName (namespace pod) (name pod) version in
  setupPodIngressRules pod podFwChainName networkPoliciesInfo version
  ++ setupPodEgressRules pod podFwChainName networkPoliciesInfo version
  ++ processNonWhitelistedTrafficRules (name pod) (namespace pod) podFwChainName
  ++ processWhitelistedTrafficRules (name pod) (namespace pod) podFwChainName
  ++ interceptPodInboundTraffic pod podFwChainName
  ++ interceptPodOutboundTraffic pod podFwChainName.

Definition syncPodFirewall (currentFilterTable : string) (pod : podInfo)
    (networkPoliciesInfo : list networkPolicyInfo) (version : string) : string :=
  WriteRules currentFilterTable (syncPodFirewallRules pod networkPoliciesInfo version).

(** [fullSyncPodFirewallChains] over the local pods in the order the map
    iteration yields them: the text appended to the buffer and the active
    chain names. *)
Fixpoint fullSyncPodFirewallChains (currentFilterTable : string) (allLocalPods : list podInfo)
    (networkPoliciesInfo : list networkPolicyInfo) (version : string)
    (activePodFwChains : gmap string bool) : string * gmap string bool :=
  match allLocalPods with
  | [] => (currentFilterTable, activePodFwChains)
  | pod :: rest =>
      let podFwChainName := podFirewallChainName (namespace pod) (name pod) version in
      let buf := currentFilterTable +:+ ":" +:+ podFwChainName +:+ lf in
      let buf := syncPodFirewall buf pod networkPoliciesInfo version in
      fullSyncPodFirewallChains buf rest networkPoliciesInfo version
                                (<[podFwChainName := true]> activePodFwChains)
  end.

(** All the rules one full sync writes for the local pods. *)
Definition fullSyncPodFirewallRules (allLocalPods : list podInfo)
    (networkPoliciesInfo : list networkPolicyInfo) (version : string) : list rule :=
  List.flat_map (fun pod => syncPodFirewallRules pod networkPoliciesInfo version) allLocalPods.

(** What the restore primitive makes of rule lines, for one chain: [-A]
    appends the rule, [-I chain n] puts it at position [n] (so [-I chain 1]
    puts it first); lines for other chains leave the chain alone. *)
Definition restoreRule (chain : string) (installed : list rule) (args : rule) : list rule :=
  match args with
  | op :: c :: spec =>
      if String.eqb op "-A" then
        if String.eqb c chain then installed ++ [spec] else installed
      else if String.eqb op "-I" then
        match spec with
        | pos :: spec' =>
            if String.eqb c chain
            then let n := Z.to_nat (NodePort.decimal pos - 1) in
                 List.firstn n installed ++ spec' :: List.skipn n installed
            else installed
        | [] => installed
        end
      else installed
  | _ => installed
  end.

(** What a list of rule lines makes of a chain when every one of them is
    restored, in order.  [cleanupStaleRules] leaves lines out before it
    calls the restore: [restoredChain] takes them off first. *)
Definition installedChain (chain : string) (rules : list rule) : list rule :=
  List.fold_left (restoreRule chain) rules [].

(** A rule as installed: the arguments after the chain name. *)
Definition spec_of (r : rule) : rule := List.skipn 2 r.

(** The four closing rules of a pod chain as the code appends them, and as
    the specification lists them. *)
Definition appendedTail (pod : podInfo) (chain : string) : list rule :=
  [spec_of (logRule (name pod) (namespace pod) chain);
   spec_of (rejectRule (name pod) (namespace pod) chain);
   spec_of (resetMarkRule chain);
   spec_of (acceptMarkRule chain)].

Definition specifiedTail (pod : podInfo) (chain : string) : list rule :=
  [spec_of (resetMarkRule chain);
   spec_of (acceptMarkRule chain);
   spec_of (logRule (name pod) (namespace pod) chain);
   spec_of (rejectRule (name pod) (namespace pod) chain)].

(** The jumps at the head of a pod chain: every [-I chain 1] prepends, so
    they are installed in the reverse of the order written. *)
Definition insertedHead (pod : podInfo) (chain : string)
    (networkPoliciesInfo : list networkPolicyInfo) (version : string) : list rule :=
  List.rev (List.map (List.skipn 3)
              (setupPodIngressRules pod chain networkPoliciesInfo version
               ++ setupPodEgressRules pod chain networkPoliciesInfo version)).

Definition samplePodInfo : podInfo :=
  {| ip := "10.1.2.5"; name := "web-0"; namespace := "default";
     labels := Some {[ "app" := "web" ]} |}.

Definition otherPodInfo : podInfo :=
  {| ip := "10.1.2.6"; name := "db-0"; namespace := "default";
     labels := Some {[ "app" := "db" ]} |}.

Definition samplePolicy : networkPolicyInfo :=
  {| policyName := "allow-client"; policyNamespace := "default";
     targetPods := {[ "10.1.2.5" := samplePodInfo ]}; policyType := "ingress" |}.

Definition sampleVersion : string := "1577836800000000000".

(** ** The host: filter table and IP sets *)

#[export] Instance result_ret : MRet result := fun A a => inl a.
#[export] Instance result_fmap : FMap result :=
  fun A B f r => match r with
                 | inl a => inl (f a)
                 | inr e => inr e
                 end.
#[export] Instance result_bind : MBind result :=
  fun A B k r => match r with
                 | inl a => k a
                 | inr e => inr e
                 end.

(** The filter table: chains in listing order, each with the text of its
    rules in order, as [iptables -S] prints them after [-A chain]. *)
Definition table : Type := list (string * list string).

Record host : Type := {
  filterTable : table;
  ipsetTable : IPSet
}.

Definition chainRules (t : table) (chain : string) : option (list string) :=
  snd <$> List.find (fun entry => String.eqb (fst entry) chain) t.

Definition setChainRules (t : table) (chain : string) (rules : list string) : table :=
  List.map (fun entry => if String.eqb (fst entry) chain then (chain, rules) else entry) t.

(** [iptablesCmdHandler.ListChains("filter")] *)
Definition ListChains (t : table) : list string := List.map fst t.

(** [iptablesCmdHandler.List("filter", chain)]: the [-N chain] line, then one
    [-A chain ...] line per rule; an error for a chain that does not exist. *)
Definition ListRules (t : table) (chain : string) : result (list string) :=
  match chainRules t chain with
  | Some rules =>
      inl (("-N " +:+ chain) :: List.map (fun r => "-A " +:+ chain +:+ " " +:+ r) rules)
  | None => inr (errorString "iptables: No chain/target/match by that name.")
  end.

(** [iptablesCmdHandler.Delete("filter", chain, rulenum)]: rules are numbered
    from 1. *)
Definition DeleteRule (t : table) (chain : string) (rulenum : Z) : result table :=
  match chainRules t chain with
  | Some rules =>
      if (1 <=? rulenum)%Z && (rulenum <=? Z.of_nat (length rules))%Z
      then let n := Z.to_nat (rulenum - 1) in
           inl (setChainRules t chain (List.firstn n rules ++ List.skipn (S n) rules))
      else inr (errorString "iptables: Index of deletion too big.")
  | None => inr (errorString "iptables: No chain/target/match by that name.")
  end.

(** A rule jumps to [chain] when its text has [-j chain] as its last words
    or followed by a space. *)
Fixpoint HasSuffix (s suffix : string) : bool :=
  String.eqb s suffix ||
  match s with
  | EmptyString => false
  | String _ s' => HasSuffix s' suffix
  end.

Definition jumpsTo (chain : string) (ruleText : string) : bool :=
  HasSuffix ruleText ("-j " +:+ chain) || GoStrings.Contains ruleText ("-j " +:+ chain +:+ " ").

Definition referenced (t : table) (chain : string) : bool :=
  List.existsb (fun entry => List.existsb (jumpsTo chain) (snd entry)) t.

(** [iptablesCmdHandler.ClearChain("filter", chain)]: flush the chain, or
    create it when it does not exist. *)
Definition ClearChain (t : table) (chain : string) : result table :=
  match chainRules t chain with
  | Some _ => inl (setChainRules t chain [])
  | None => inl (t ++ [(chain, [])])
  end.

(** [iptablesCmdHandler.DeleteChain("filter", chain)]: refused for a chain
    that is missing, not empty, or still the target of a rule. *)
Definition DeleteChain (t : table) (chain : string) : result table :=
  match chainRules t chain with
  | Some [] =>
      if referenced t chain
      then inr (errorString "iptables: Too many links.")
      else inl (List.filter (fun entry => negb (String.eqb (fst entry) chain)) t)
  | Some _ => inr (errorString "iptables: Directory not empty.")
  | None => inr (errorString "iptables: No chain/target/match by that name.")
  end.

(** Modelled from the spec: [utils.Set.Destroy] is not among the sources.
    Section 4.3 names [Destroy()] as the operation that removes a set from
    the host; here it fails when the set is not there. *)
Definition DestroySet (sets : IPSet) (setName : string) : result IPSet :=
  if List.existsb (fun entry => String.eqb (fst entry) setName) sets
  then inl (List.filter (fun entry => negb (String.eqb (fst entry) setName)) sets)
  else inr (errorString "ipset: The set with the given name does not exist").

(** ** The garbage collector, [cleanupStaleRules] *)

Definition isActive (active : gmap string bool) (key : string) : bool :=
  bool_decide (is_Some (active !! key)).

(** The active maps once the default chains are added. *)
Definition withDefaultPolicyChains (activePolicyChains : gmap string bool) : gmap string bool :=
  <[kubeEgressNetpolChain := true]> (<[kubeIngressNetpolChain := true]> activePolicyChains).

Definition withDefaultPodFwChain (activePodFwChains : gmap string bool) : gmap string bool :=
  <[KubeDefaultPodFWChain := true]> activePodFwChains.

(** The first loop over the chains of the filter table. *)
Definition staleChains (chains : list string) (activePolicyChains activePodFwChains : gmap string bool)
  : list string * list string :=
  List.fold_left
    (fun '(cleanupPolicyChains, cleanupPodFwChains) chain =>
       let cleanupPolicyChains :=
         if GoStrings.HasPrefix chain kubeNetworkPolicyChainPrefix
            && negb (isActive activePolicyChains chain)
         then cleanupPolicyChains ++ [chain] else cleanupPolicyChains in
       let cleanupPodFwChains :=
         if GoStrings.HasPrefix chain kubePodFirewallChainPrefix
            && negb (isActive activePodFwChains chain)
         then cleanupPodFwChains ++ [chain] else cleanupPodFwChains in
       (cleanupPolicyChains, cleanupPodFwChains))
    chains ([], []).

(** The loop over the IP sets the handler saved. *)
Definition staleIPSets (sets : IPSet) (activePolicyIPSets : gmap string bool) : list string :=
  List.fold_left
    (fun cleanupPolicyIPSets set =>
       if (GoStrings.HasPrefix (fst set) kubeSourceIPSetPrefix
           || GoStrings.HasPrefix (fst set) kubeDestinationIPSetPrefix)
          && negb (isActive activePolicyIPSets (fst set))
       then cleanupPolicyIPSets ++ [fst set] else cleanupPolicyIPSets)
    sets [].

(** The scan of one top-level chain for rules that mention [podFwChain]:
    [i] is the index in the listing, [realRuleNo] the deletions so far. *)
Fixpoint deleteReferences (t : table) (chain podFwChain : string)
    (listing : list string) (i realRuleNo : Z) : result table :=
  match listing with
  | [] => inl t
  | ruleText :: rest =>
      if GoStrings.Contains ruleText podFwChain then
        match DeleteRule t chain (i - realRuleNo) with
        | inl t' => deleteReferences t' chain podFwChain rest (i + 1) (realRuleNo + 1)
        | inr err =>
            inr (errorString ("failed to delete rule: " +:+ ruleText +:+ " from the " +:+ chain
                                +:+ " podFwChain of filter table due to " +:+ Error err))
        end
      else deleteReferences t chain podFwChain rest (i + 1) realRuleNo
  end.

Fixpoint deleteFromPrimaryChains (t : table) (podFwChain : string) (primaryChains : list string)
  : result table :=
  match primaryChains with
  | [] => inl t
  | egressChain :: rest =>
      match ListRules t egressChain with
      | inr err =>
          inr (errorString ("failed to list rules in filter table, " +:+ egressChain
                              +:+ " podFwChain due to " +:+ Error err))
      | inl forwardChainRules =>
          t' ← deleteReferences t egressChain podFwChain forwardChainRules 0 0;
          deleteFromPrimaryChains t' podFwChain rest
      end
  end.

Fixpoint removeStaleReferences (t : table) (cleanupPodFwChains : list string) : result table :=
  match cleanupPodFwChains with
  | [] => inl t
  | podFwChain :: rest =>
      t' ← deleteFromPrimaryChains t podFwChain
             [kubeInputChainName; kubeForwardChainName; kubeOutputChainName];
      removeStaleReferences t' rest
  end.

(** Whether the rebuild loop skips a line of the dump. *)
Definition skipRule (cleanupPodFwChains cleanupPolicyChains : list string) (ruleText : string)
  : bool :=
  List.existsb (GoStrings.Contains ruleText) cleanupPodFwChains
  || List.existsb (GoStrings.Contains ruleText) cleanupPolicyChains
  || GoStrings.Contains ruleText "COMMIT"
  || GoStrings.HasPrefix ruleText "# ".

(** [strings.Split(currentFilterTable.String(), "\n")] with the empty last
    piece dropped. *)
Definition dumpLines (currentFilterTable : string) : list string :=
  let rules := GoStrings.SplitLines currentFilterTable in
  match List.rev rules with
  | "" :: front => List.rev front
  | _ => rules
  end.

(** The rebuild loop: the two buffers [newChains] and [newRules]. *)
Definition rebuild (cleanupPodFwChains cleanupPolicyChains : list string) (rules : list string)
  : string * string :=
  List.fold_left
    (fun '(newChains, newRules) ruleText =>
       if skipRule cleanupPodFwChains cleanupPolicyChains ruleText then (newChains, newRules)
       else
         let newChains := if GoStrings.HasPrefix ruleText ":"
                          then newChains +:+ (ruleText +:+ " - [0:0]" +:+ lf)
                          else newChains in
         let newRules := if GoStrings.HasPrefix ruleText "-"
                         then newRules +:+ (ruleText +:+ lf)
                         else newRules in
         (newChains, newRules))
    rules ("", "").

(** The buffer handed to the restore primitive. *)
Definition desiredFilterTable (currentFilterTable : string)
    (cleanupPodFwChains cleanupPolicyChains : list string) : string :=
  let '(newChains, newRules) :=
    rebuild cleanupPodFwChains cleanupPolicyChains (dumpLines currentFilterTable) in
  ("*filter" +:+ lf) +:+ newChains +:+ newRules +:+ ("COMMIT" +:+ lf).

Fixpoint destroySets (sets : IPSet) (cleanupPolicyIPSets : list string) : result IPSet :=
  match cleanupPolicyIPSets with
  | [] => inl sets
  | setName :: rest =>
      match DestroySet sets setName with
      | inl sets' => destroySets sets' rest
      | inr err =>
          inr (errorString ("Failed to delete ipset " +:+ setName +:+ " due to " +:+ Error err))
      end
  end.

Section Cleaner.

(** [utils.Restore("filter", data)], the bulk-restore primitive, acting on
    the filter table; it is not among the sources and stays abstract. *)
Variable Restore : table -> string -> result table.

(** [cleanupStaleRules].  The executors are taken to initialise and the
    listing of chains to succeed; what the function prints on standard
    output is left out. *)
Definition cleanupStaleRules (h : host) (currentFilterTable : string)
    (activePolicyChains activePodFwChains activePolicyIPSets : gmap string bool)
  : result host :=
  let activePolicyChains := withDefaultPolicyChains activePolicyChains in
  let activePodFwChains := withDefaultPodFwChain activePodFwChains in
  let chains := ListChains (filterTable h) in
  let '(cleanupPolicyChains, cleanupPodFwChains) :=
    staleChains chains activePolicyChains activePodFwChains in
  let cleanupPolicyIPSets := staleIPSets (ipsetTable h) activePolicyIPSets in
  t ← removeStaleReferences (filterTable h) cleanupPodFwChains;
  t ← Restore t (desiredFilterTable currentFilterTable cleanupPodFwChains cleanupPolicyChains);
  sets ← destroySets (ipsetTable h) cleanupPolicyIPSets;
  mret {| filterTable := t; ipsetTable := sets |}.

End Cleaner.

(** The predicates the two classification loops apply. *)
Definition stalePolicyChain (activePolicyChains : gmap string bool) (chain : string) : bool :=
  GoStrings.HasPrefix chain kubeNetworkPolicyChainPrefix
  && negb (isActive activePolicyChains chain).

Definition stalePodFwChain (activePodFwChains : gmap string bool) (chain : string) : bool :=
  GoStrings.HasPrefix chain kubePodFirewallChainPrefix
  && negb (isActive activePodFwChains chain).

Definition staleIPSet (activePolicyIPSets : gmap string bool) (setName : string) : bool :=
  (GoStrings.HasPrefix setName kubeSourceIPSetPrefix
   || GoStrings.HasPrefix setName kubeDestinationIPSetPrefix)
  && negb (isActive activePolicyIPSets setName).

Definition defaultChains : list string :=
  [KubeDefaultPodFWChain; kubeIngressNetpolChain; kubeEgressNetpolChain].

(** A restore primitive for running examples: it accepts any buffer and
    leaves the table as it is. *)
Definition acceptingRestore (t : table) (data : string) : result table := inl t.

Definition sampleHost : host :=
  {| filterTable :=
       [("INPUT", ["-j KUBE-ROUTER-INPUT"]);
        ("FORWARD", ["-j KUBE-ROUTER-FORWARD"]);
        ("OUTPUT", ["-j KUBE-ROUTER-OUTPUT"]);
        ("DOCKER-USER", ["-j RETURN"]);
        ("KUBE-ROUTER-INPUT",
         ["-s 10.1.2.9 -j KUBE-POD-FW-AAAAAAAAAAAAAAAA"; "-j KUBE-POD-FW-DEFAULT"]);
        ("KUBE-ROUTER-FORWARD",
         ["-d 10.1.2.9 -j KUBE-POD-FW-AAAAAAAAAAAAAAAA";
          "-s 10.1.2.5 -j KUBE-POD-FW-BBBBBBBBBBBBBBBB";
          "-s 10.1.2.9 -j KUBE-POD-FW-AAAAAAAAAAAAAAAA";
          "-j KUBE-POD-FW-DEFAULT"]);
        ("KUBE-ROUTER-OUTPUT",
         ["-s 10.1.2.9 -j KUBE-POD-FW-AAAAAAAAAAAAAAAA"; "-j KUBE-POD-FW-DEFAULT"]);
        ("KUBE-POD-FW-DEFAULT", ["-d 10.1.2.0/24 -j REJECT"]);
        ("KUBE-NWPLCY-DEFAULT-INGRESS", ["-j MARK --set-xmark 0x10000/0x10000"]);
        ("KUBE-NWPLCY-DEFAULT-EGRESS", ["-j MARK --set-xmark 0x10000/0x10000"]);
        ("KUBE-POD-FW-AAAAAAAAAAAAAAAA", ["-j KUBE-NWPLCY-CCCCCCCCCCCCCCCC"]);
        ("KUBE-POD-FW-BBBBBBBBBBBBBBBB", ["-j KUBE-NWPLCY-DEFAULT-INGRESS"]);
        ("KUBE-NWPLCY-CCCCCCCCCCCCCCCC",
         ["-m set --match-set KUBE-SRC-DDDDDDDDDDDDDDDD src -j MARK --set-xmark 0x10000/0x10000"])];
     ipsetTable :=
       [("KUBE-SRC-DDDDDDDDDDDDDDDD", ["10.1.5.7"]);
        ("KUBE-DST-EEEEEEEEEEEEEEEE", ["10.1.2.5"]);
        ("blocklist", ["198.51.100.7"])] |}.

Definition sampleDump : string :=
  GoStrings.Join
    ["# Generated by iptables-save";
     "*filter";
     ":INPUT ACCEPT [0:0]";
     ":KUBE-ROUTER-FORWARD - [0:0]";
     ":KUBE-POD-FW-AAAAAAAAAAAAAAAA - [0:0]";
     "-A INPUT -j KUBE-ROUTER-INPUT";
     "-A KUBE-ROUTER-FORWARD -s 10.1.2.9 -j KUBE-POD-FW-AAAAAAAAAAAAAAAA";
     "-A KUBE-ROUTER-FORWARD -j KUBE-POD-FW-DEFAULT";
     "COMMIT";
     "# Completed";
     ":KUBE-POD-FW-BBBBBBBBBBBBBBBB";
     "-I KUBE-POD-FW-BBBBBBBBBBBBBBBB 1 -j KUBE-NWPLCY-DEFAULT-INGRESS ";
     "-A KUBE-POD-FW-BBBBBBBBBBBBBBBB -j MARK --set-mark 0x20000/0x20000 ";
     ""]
    lf.

(** The lines of the dump the rebuild loop keeps, and the text of a list
    of lines, each closed by a line feed. *)
Definition keptLines (currentFilterTable : string)
    (cleanupPodFwChains cleanupPolicyChains : list string) : list string :=
  List.filter (fun l => negb (skipRule cleanupPodFwChains cleanupPolicyChains l))
              (dumpLines currentFilterTable).

Definition isDeclaration (l : string) : bool := GoStrings.HasPrefix l ":".
Definition isRuleLine (l : string) : bool := GoStrings.HasPrefix l "-".

Fixpoint unlines (ls : list string) : string :=
  match ls with
  | [] => ""
  | l :: rest => (l +:+ lf) +:+ unlines rest
  end.

Fixpoint noLineFeed (s : string) : bool :=
  match s with
  | EmptyString => true
  | String c s' => negb (Ascii.eqb c GoStrings.newline) && noLineFeed s'
  end.

(** A declaration of the shape the specification gives: a colon, a chain
    name (no blank in it), and [ - [0:0]]. *)
Definition declaresChain (line : string) : Prop :=
  exists chainName : string,
    GoStrings.Contains chainName " " = false /\ line = ":" +:+ chainName +:+ " - [0:0]".

Definition sampleActivePodFwChains : gmap string bool :=
  {[ "KUBE-POD-FW-BBBBBBBBBBBBBBBB" := true ]}.

Definition sampleActiveIPSets : gmap string bool :=
  {[ "KUBE-DST-EEEEEEEEEEEEEEEE" := true ]}.

(** The clean-up lists [cleanupStaleRules] computes on the sample host. *)
Definition sampleStalePolicyChains : list string :=
  fst (staleChains (ListChains (filterTable sampleHost))
                   (withDefaultPolicyChains ∅) (withDefaultPodFwChain sampleActivePodFwChains)).

Definition sampleStalePodFwChains : list string :=
  snd (staleChains (ListChains (filterTable sampleHost))
                   (withDefaultPolicyChains ∅) (withDefaultPodFwChain sampleActivePodFwChains)).

(** ** [Cleanup] *)

(** Modelled from the spec: [utils.IPSet.DestroyAllWithin] is not among the
    sources.  Sections 5 and 6 of the specification have [Cleanup] remove
    all IP sets under the engine's prefixes, and only those. *)
Definition DestroyAllWithin (sets : IPSet) : IPSet :=
  List.filter (fun entry => negb (GoStrings.HasPrefix (fst entry) kubeSourceIPSetPrefix
                                  || GoStrings.HasPrefix (fst entry) kubeDestinationIPSetPrefix))
              sets.

(** The scan of one top-level chain for rules that mention the pod firewall
    prefix.  A refused deletion is logged and the scan goes on, the counter
    of deletions advancing all the same. *)
Fixpoint cleanupReferences (t : table) (chain : string) (listing : list string)
    (i realRuleNo : Z) (log : list string) : table * list string :=
  match listing with
  | [] => (t, log)
  | ruleText :: rest =>
      if GoStrings.Contains ruleText kubePodFirewallChainPrefix then
        match DeleteRule t chain (i - realRuleNo) with
        | inl t' => cleanupReferences t' chain rest (i + 1) (realRuleNo + 1) log
        | inr err =>
            cleanupReferences t chain rest (i + 1) (realRuleNo + 1)
              (log ++ ["Failed to delete iptables rule as part of cleanup: " +:+ Error err])
        end
      else cleanupReferences t chain rest (i + 1) realRuleNo log
  end.

(** Flush and delete every listed chain under [prefix]; the first refusal
    ends the loop, and [Cleanup] with it. *)
Fixpoint flushAndDelete (prefix : string) (t : table) (chains : list string)
  : table * option error :=
  match chains with
  | [] => (t, None)
  | chain :: rest =>
      if GoStrings.HasPrefix chain prefix then
        match ClearChain t chain with
        | inr err => (t, Some err)
        | inl t1 =>
            match DeleteChain t1 chain with
            | inr err => (t1, Some err)
            | inl t2 => flushAndDelete prefix t2 rest
            end
        end
      else flushAndDelete prefix t rest
  end.

Definition cleanedUp : string :=
  "Successfully cleaned the iptables configuration done by kube-router".

(** [Cleanup]: the host it leaves and what it logged.  The executors are
    taken to initialise. *)
Definition Cleanup (h : host) : host * list string :=
  let log := ["Cleaning up iptables configuration permanently done by kube-router"] in
  let t := filterTable h in
  match ListRules t kubeForwardChainName with
  | inr _ => (h, log ++ ["Failed to delete iptables rules as part of cleanup"])
  | inl forwardChainRules =>
      let '(t, log) := cleanupReferences t kubeForwardChainName forwardChainRules 0 0 log in
      match ListRules t kubeOutputChainName with
      | inr _ =>
          ({| filterTable := t; ipsetTable := ipsetTable h |},
           log ++ ["Failed to delete iptables rules as part of cleanup"])
      | inl forwardChainRules =>
          let '(t, log) := cleanupReferences t kubeOutputChainName forwardChainRules 0 0 log in
          match flushAndDelete kubePodFirewallChainPrefix t (ListChains t) with
          | (t, Some err) =>
              ({| filterTable := t; ipsetTable := ipsetTable h |},
               log ++ ["Failed to cleanup iptables rules: " +:+ Error err])
          | (t, None) =>
              match flushAndDelete kubeNetworkPolicyChainPrefix t (ListChains t) with
              | (t, Some err) =>
                  ({| filterTable := t; ipsetTable := ipsetTable h |},
                   log ++ ["Failed to cleanup iptables rules: " +:+ Error err])
              | (t, None) =>
                  ({| filterTable := t; ipsetTable := DestroyAllWithin (ipsetTable h) |},
                   log ++ [cleanedUp])
              end
          end
      end
  end.

(** The sample host before the engine ran, and a host the engine has
    populated but whose inbound top-level chain holds no jump to a pod
    chain. *)
Definition pristineHost : host :=
  {| filterTable :=
       [("INPUT", []); ("FORWARD", []); ("OUTPUT", []); ("DOCKER-USER", ["-j RETURN"])];
     ipsetTable := [("blocklist", ["198.51.100.7"])] |}.

Definition tidyHost : host :=
  {| filterTable :=
       [("INPUT", ["-j KUBE-ROUTER-INPUT"]);
        ("FORWARD", ["-j KUBE-ROUTER-FORWARD"]);
        ("OUTPUT", ["-j KUBE-ROUTER-OUTPUT"]);
        ("DOCKER-USER", ["-j RETURN"]);
        ("KUBE-ROUTER-INPUT", ["-m mark --mark 0x20000/0x20000 -j ACCEPT"]);
        ("KUBE-ROUTER-FORWARD",
         ["-d 10.1.2.5 -j KUBE-POD-FW-BBBBBBBBBBBBBBBB";
          "-m mark --mark 0x20000/0x20000 -j ACCEPT";
          "-j KUBE-POD-FW-DEFAULT"]);
        ("KUBE-ROUTER-OUTPUT",
         ["-s 10.1.2.5 -j KUBE-POD-FW-BBBBBBBBBBBBBBBB"; "-j KUBE-POD-FW-DEFAULT"]);
        ("KUBE-POD-FW-DEFAULT", ["-d 10.1.2.0/24 -j REJECT"]);
        ("KUBE-NWPLCY-DEFAULT-INGRESS", ["-j MARK --set-xmark 0x10000/0x10000"]);
        ("KUBE-POD-FW-BBBBBBBBBBBBBBBB", ["-j KUBE-NWPLCY-DEFAULT-INGRESS"])];
     ipsetTable :=
       [("KUBE-SRC-DDDDDDDDDDDDDDDD", ["10.1.5.7"]); ("blocklist", ["198.51.100.7"])] |}.

(** ** [syncAffectedNetworkPolicyChains] *)

(** [v1.LabelSelector], its [matchLabels] part; a selector matches a label
    set that holds each of its pairs, and the empty one matches all. *)
Definition LabelSelector : Type := gmap string string.

Definition labelSet (l : option (gmap string string)) : gmap string string :=
  match l with
  | Some m => m
  | None => ∅
  end.

Definition Matches (selector : LabelSelector) (set : gmap string string) : bool :=
  bool_decide (selector ⊆ set).

Record NetworkPolicyPeer : Type := {
  PodSelector : option LabelSelector;
  NamespaceSelector : option LabelSelector;
  IPBlock : option string
}.

(** [networking.NetworkPolicy]: an ingress rule is its [From] list, an
    egress rule its [To] list. *)
Record NetworkPolicy : Type := {
  npNamespace : string;
  npName : string;
  npPodSelector : LabelSelector;
  Ingress : list (list NetworkPolicyPeer);
  Egress : list (list NetworkPolicyPeer)
}.

(** Modelled from the spec: the set-name functions are not among the
    sources.  Section 4.1 derives the per-policy sets from namespace and
    policy name, and the per-rule ones from namespace, policy name and
    rule index, under the source and destination prefixes. *)
Definition policySourcePodIPSetName (namespace policyName : string) : string :=
  kubeSourceIPSetPrefix +:+ substring 0 16 (encodedHash (namespace +:+ policyName)).

Definition policyDestinationPodIPSetName (namespace policyName : string) : string :=
  kubeDestinationIPSetPrefix +:+ substring 0 16 (encodedHash (namespace +:+ policyName)).

Definition policyIndexedSourcePodIPSetName (namespace policyName : string) (i : nat) : string :=
  kubeSourceIPSetPrefix
  +:+ substring 0 16 (encodedHash (namespace +:+ policyName +:+ NodePort.formatInt (Z.of_nat i))).

Definition policyIndexedDestinationPodIPSetName (namespace policyName : string) (i : nat)
  : string :=
  kubeDestinationIPSetPrefix
  +:+ substring 0 16 (encodedHash (namespace +:+ policyName +:+ NodePort.formatInt (Z.of_nat i))).

(** Modelled from the spec: [utils.IPSet.Create] and [utils.Set.Refresh]
    are not among the sources.  Section 4.3: create the set if it is
    absent; replace its membership. *)
Definition CreateSet (sets : IPSet) (setName : string) : IPSet :=
  if List.existsb (fun entry => String.eqb (fst entry) setName) sets then sets
  else sets ++ [(setName, [])].

Definition RefreshSet (sets : IPSet) (setName : string) (members : list string) : IPSet :=
  List.map (fun entry => if String.eqb (fst entry) setName then (setName, members) else entry)
           sets.

(** How a stretch of the function ends: it falls through to what follows,
    it returns (with an error or nil), or it panics on a nil pointer. *)
Inductive ending : Type :=
| Continue
| Return (err : option error)
| Panic.

Definition podIPs (pods : list Pod) : list string :=
  List.filter (fun ip => negb (String.eqb ip "")) (List.map podIP pods).

Section SyncAffected.

(** The listers and the peer evaluation live outside the embedded files. *)
Variable listPodsByNamespaceAndLabels : string -> LabelSelector -> result (list Pod).
Variable evalPodPeer : NetworkPolicy -> NetworkPolicyPeer -> list Pod * option error.
Variable namespaceLabels : string -> option (option (gmap string string)).
(** The error, if any, with which the host refuses to create a set. *)
Variable createError : string -> option error.

Definition createAndRefresh (sets : IPSet) (setName : string) (members : list string)
  : ending * IPSet :=
  match createError setName with
  | Some err => (Return (Some (errorString ("failed to create ipset: " +:+ Error err))), sets)
  | None => (Continue, RefreshSet (CreateSet sets setName) setName members)
  end.

(** The body of the loop over the peers of one rule; [setName] is the
    indexed source or destination set of the rule. *)
Definition syncPeer (policy : NetworkPolicy) (pod : podInfo) (setName : string)
    (peer : NetworkPolicyPeer) (sets : IPSet) : ending * IPSet :=
  match PodSelector peer, NamespaceSelector peer, IPBlock peer with
  | None, None, Some _ => (Continue, sets)
  | _, _, _ =>
      let matchesPodSelector :=
        match PodSelector peer with
        | None => true
        | Some selector => Matches selector (labelSet (labels pod))
        end in
      match (match NamespaceSelector peer with
             | None => Some true
             | Some selector =>
                 match namespaceLabels (namespace pod) with
                 | Some nsLabels => Some (Matches selector (labelSet nsLabels))
                 | None => None
                 end
             end) with
      | None => (Panic, sets)
      | Some matchesNamespaceSelector =>
          if negb (matchesNamespaceSelector && matchesPodSelector) then (Continue, sets)
          else
            let '(peerPods, err) := evalPodPeer policy peer in
            match err with
            | None => (Return err, sets)
            | Some _ => createAndRefresh sets setName (podIPs peerPods)
            end
      end
  end.

Fixpoint syncPeers (policy : NetworkPolicy) (pod : podInfo) (setName : string)
    (peers : list NetworkPolicyPeer) (sets : IPSet) : ending * IPSet :=
  match peers with
  | [] => (Continue, sets)
  | peer :: rest =>
      match syncPeer policy pod setName peer sets with
      | (Continue, sets') => syncPeers policy pod setName rest sets'
      | stop => stop
      end
  end.

(** The loop over the rules of one direction; [i] is the rule index. *)
Fixpoint syncRules (setNameOf : nat -> string) (policy : NetworkPolicy) (pod : podInfo)
    (i : nat) (rules : list (list NetworkPolicyPeer)) (sets : IPSet) : ending * IPSet :=
  match rules with
  | [] => (Continue, sets)
  | peers :: rest =>
      match syncPeers policy pod (setNameOf i) peers sets with
      | (Continue, sets') => syncRules setNameOf policy pod (S i) rest sets'
      | stop => stop
      end
  end.

(** The first part of the loop body: the sets of the pods the policy
    targets. *)
Definition syncTargets (policy : NetworkPolicy) (pod : podInfo) (sets : IPSet)
  : ending * IPSet :=
  if String.eqb (npNamespace policy) (namespace pod)
     && Matches (npPodSelector policy) (labelSet (labels pod))
  then
    match listPodsByNamespaceAndLabels (npNamespace policy) (npPodSelector policy) with
    | inr err => (Return (Some err), sets)
    | inl matchingPods =>
        let matchingPodIps := podIPs matchingPods in
        match (if (0 <? length (Ingress policy))%nat
               then createAndRefresh sets
                      (policyDestinationPodIPSetName (npNamespace policy) (npName policy))
                      matchingPodIps
               else (Continue, sets)) with
        | (Continue, sets') =>
            if (0 <? length (Egress policy))%nat
            then createAndRefresh sets'
                   (policySourcePodIPSetName (npNamespace policy) (npName policy))
                   matchingPodIps
            else (Continue, sets')
        | stop => stop
        end
    end
  else (Continue, sets).

Definition syncPolicy (policy : NetworkPolicy) (pod : podInfo) (sets : IPSet)
  : ending * IPSet :=
  match syncTargets policy pod sets with
  | (Continue, sets1) =>
      match syncRules (policyIndexedSourcePodIPSetName (npNamespace policy) (npName policy))
                      policy pod 0 (Ingress policy) sets1 with
      | (Continue, sets2) =>
          syncRules (policyIndexedDestinationPodIPSetName (npNamespace policy) (npName policy))
                    policy pod 0 (Egress policy) sets2
      | stop => stop
      end
  | stop => stop
  end.

(** [syncAffectedNetworkPolicyChains] over the policies the lister holds:
    how it ends (falling off the loop is [return nil]) and the IP sets it
    leaves. *)
Fixpoint syncAffectedLoop (policies : list NetworkPolicy) (pod : podInfo) (sets : IPSet)
  : ending * IPSet :=
  match policies with
  | [] => (Return None, sets)
  | policy :: rest =>
      match syncPolicy policy pod sets with
      | (Continue, sets') => syncAffectedLoop rest pod sets'
      | stop => stop
      end
  end.

Definition syncAffectedNetworkPolicyChains (policies : list NetworkPolicy) (pod : podInfo)
    (sets : IPSet) : ending * IPSet :=
  syncAffectedLoop policies pod sets.

End SyncAffected.

(** A policy with one ingress rule admitting the pods labelled
    [app=client], and the event of such a pod. *)
Definition clientPeer : NetworkPolicyPeer :=
  {| PodSelector := Some {[ "app" := "client" ]}; NamespaceSelector := None; IPBlock := None |}.

Definition allowClient : NetworkPolicy :=
  {| npNamespace := "default"; npName := "allow-client";
     npPodSelector := {[ "app" := "web" ]};
     Ingress := [[clientPeer]]; Egress := [] |}.

Definition clientPodInfo : podInfo :=
  {| ip := "10.1.5.7"; name := "client-0"; namespace := "default";
     labels := Some {[ "app" := "client" ]} |}.

Definition clientPod : Pod :=
  {| podNamespace := "default"; podName := "client-0"; podPhase := "Running";
     podIP := "10.1.5.7"; podHostIP := "192.168.0.11"; podHostNetwork := false;
     podLabels := Some {[ "app" := "client" ]} |}.

Definition sampleSync (evalPodPeer : NetworkPolicy -> NetworkPolicyPeer -> list Pod * option error)
    (sets : IPSet) : ending * IPSet :=
  syncAffectedNetworkPolicyChains
    (fun _ _ => inl []) evalPodPeer (fun _ => Some None) (fun _ => None)
    [allowClient] clientPodInfo sets.

(** The set of the first ingress rule of the sample policy. *)
Definition clientSetName : string := policyIndexedSourcePodIPSetName "default" "allow-client" 0.

(** The rules of a top-level chain that a scan of [Cleanup] keeps: those
    whose listing line does not mention the pod firewall prefix. *)
Definition keptByCleanup (chain : string) (rules : list string) : list string :=
  List.filter
    (fun r => negb (GoStrings.Contains ("-A " +:+ chain +:+ " " +:+ r) kubePodFirewallChainPrefix))
    rules.

(** The text of a list of rules, and the text one pod adds to the buffer:
    the declaration of its chain, then its rules. *)
Definition renderRules (rules : list rule) : string :=
  List.fold_right (fun r text => GoStrings.Join r " " +:+ text) "" rules.

Definition podSegment (networkPoliciesInfo : list networkPolicyInfo) (version : string)
    (pod : podInfo) : string :=
  (":" +:+ podFirewallChainName (namespace pod) (name pod) version +:+ lf)
  +:+ renderRules (syncPodFirewallRules pod networkPoliciesInfo version).

(** The sample host after one run of the garbage collector. *)
Definition sampleCleaned : host :=
  match cleanupStaleRules acceptingRestore sampleHost sampleDump
                          ∅ sampleActivePodFwChains sampleActiveIPSets with
  | inl h' => h'
  | inr _ => sampleHost
  end.

(** * Further definitions *)

(** ** Fixtures for the constructor *)

(** A cluster whose API knows one node only. *)
Module LonelyCluster.

Definition GetNodeObject (hostname : string) : result string :=
  if String.eqb hostname "node-1" then inl hostname
  else inr (errorString ("nodes " +:+ hostname +:+ " not found")).

Definition New : KubeRouterConfig -> Ctor.M NetworkPolicyController :=
  NewNetworkPolicyController string (fun n => n) SampleCluster.ParseCIDR
                             SampleCluster.GetPodCidrFromNodeSpec
                             GetNodeObject SampleCluster.GetNodeIP SampleCluster.NewIPSetSaved.

Definition config (hostname range : string) (router : bool) : KubeRouterConfig :=
  {| ClusterIPCIDR := "10.96.0.0/12";
     RunRouter := router;
     HostnameOverride := hostname;
     NetpolAllowPreCheck := false;
     NodePortRange := range;
     ExternalIPCIDRs := ["192.0.2.0/24"];
     cfgMetricsEnabled := true;
     IPTablesSyncPeriod := 300 |}.

(** What the sample node gets for the range ["030000-32767"]. *)
Definition dashController : NetworkPolicyController :=
  {| nodeIP := "192.168.0.10";
     nodeHostName := "node-1";
     nodePodIPCIDR := "";
     serviceClusterIPRange := "10.96.0.0/12";
     serviceExternalIPRanges := ["192.0.2.0/24"];
     serviceNodePortRange := "30000:32767";
     syncPeriod := 300;
     MetricsEnabled := true;
     fullSyncRequestChan := make_chan 1;
     readyForUpdates := false;
     netpolAllowPreCheck := false;
     ipSetHandler := [] |}.

Definition collectors : list string :=
  ["ControllerIptablesSyncTime"; "ControllerPolicyChainsSyncTime"].

End LonelyCluster.

(** ** The event loop: requests and syncs *)

(** The events in which [RequestFullSync] can be called: a turn of the loop
    of [Run] and the three pod callbacks. *)
Definition may_request (ev : event) : bool :=
  match ev with
  | Tick | PodAdded _ | PodUpdated _ _ | PodDeleted _ => true
  | Receive | SyncReturns | SetReady => false
  end.

Definition requestsMade (evs : list event) : nat := length (List.filter may_request evs).

(** What the loop keeps true at every step. *)
Definition loop_invariant (s : system) : Prop :=
  cap (fullSyncRequestChan (controller s)) = 1 /\
  queued (fullSyncRequestChan (controller s)) <= 1 /\
  syncsCompleted s <= syncsStarted s /\
  (goroutine s = Syncing -> syncsStarted s = S (syncsCompleted s)) /\
  (goroutine s <> Syncing -> syncsStarted s = syncsCompleted s).

Definition readyController : NetworkPolicyController :=
  set_readyForUpdates sampleController true.

Definition relabelledPod : Pod :=
  {| podNamespace := "default"; podName := "web-0"; podPhase := "Running";
     podIP := "10.1.2.5"; podHostIP := "192.168.0.10"; podHostNetwork := false;
     podLabels := Some {[ "app" := "api" ]} |}.

(** ** The garbage collector: the references it deletes *)

(** The chains [cleanupStaleRules] scans for references to a stale pod
    chain. *)
Definition primaryChains : list string :=
  [kubeInputChainName; kubeForwardChainName; kubeOutputChainName].

(** The rules of [chain] whose listing line mentions none of the names. *)
Definition keptByCollector (chain : string) (cleanupPodFwChains : list string)
    (rules : list string) : list string :=
  List.filter
    (fun r => negb (List.existsb (GoStrings.Contains ("-A " +:+ chain +:+ " " +:+ r))
                                 cleanupPodFwChains))
    rules.


(** ** [ensureTopLevelChains]: the two closures *)

(** The loop of [addUUIDForRuleSpec] over the parts of the rule, [idx]
    being the index of the first of [parts] in [ruleSpec].  The assignment
    to [ruleSpec[idx+1]] is out of range, a panic ([None]), when the
    comment option is the last part. *)
Fixpoint annotateComment (ruleSpec : list string) (encoded : string) (idx : nat)
    (parts : list string) : option (list string * result string) :=
  match parts with
  | [] =>
      Some (ruleSpec,
            inr (errorString ("could not find a comment in the ruleSpec string given: "
                                +:+ GoStrings.Join ruleSpec " ")))
  | part :: rest =>
      if String.eqb "--comment" part then
        next ← ruleSpec !! (idx + 1)%nat;
        Some (<[(idx + 1)%nat := next +:+ " - " +:+ encoded]> ruleSpec, inl encoded)
      else annotateComment ruleSpec encoded (S idx) rest
  end.

(** [addUUIDForRuleSpec]: the rule as the call leaves it behind the
    pointer, and what the call returns. *)
Definition addUUIDForRuleSpec (chain : string) (ruleSpec : list string)
  : option (list string * result string) :=
  encoded ← GoStrings.slice_to 16 (encodedHash (chain +:+ GoStrings.Join ruleSpec ""));
  annotateComment ruleSpec encoded 0 ruleSpec.

(** The rule that sends the traffic of a built-in chain to its top-level
    chain when the pod CIDR of the node is not known. *)
Definition jumpToCustomChain (customChain : string) : list string :=
  ["-m"; "comment"; "--comment"; "kube-router netpol"; "-j"; customChain].

(** [strings.Replace] as the code calls it, with the double quote as the
    old text and nothing as the new: [s] without its first [n] double
    quotes. *)
Fixpoint removeQuotes (n : nat) (s : string) : string :=
  match s with
  | EmptyString => ""
  | String c s' =>
      match n with
      | O => s
      | S n' => if Ascii.eqb c "034"%char then removeQuotes n' s'
                else String c (removeQuotes n s')
      end
  end.

(** The loop of [ensureRuleAtPosition] over the listing of the chain: [i]
    is the index in the listing, and the value is [ruleNo], zero when the
    loop ends without a hit. *)
Fixpoint findRuleNo (uuid : string) (rules : list string) (i ruleIndexOffset : Z) : Z :=
  match rules with
  | [] => 0
  | rule :: rest =>
      let rule := removeQuotes 2 rule in
      if GoStrings.HasPrefix rule "-P" || GoStrings.HasPrefix rule "-N"
      then findRuleNo uuid rest (i + 1) (ruleIndexOffset + 1)
      else if GoStrings.Contains rule uuid then (i + 1 - ruleIndexOffset)%Z
           else findRuleNo uuid rest (i + 1) ruleIndexOffset
  end.

(** Whether a line of a listing is passed over as a header, and whether it
    counts as a hit. *)
Definition isListingHeader (line : string) : bool :=
  GoStrings.HasPrefix (removeQuotes 2 line) "-P" || GoStrings.HasPrefix (removeQuotes 2 line) "-N".

Definition mentionsUUID (uuid line : string) : bool :=
  GoStrings.Contains (removeQuotes 2 line) uuid.

(** Two more operations of the iptables handler. *)
(** An error of the go-iptables handler: the [*iptables.Error] of a command
    that ran and failed, with its exit status and the text of [Error()], or
    an error value of any other type. *)
Inductive handlerError : Type :=
| commandError (exitStatus : Z) (text : string)
| otherError (text : string).

(** How a function that calls [glog.Fatalf] ends: it returns, it ends the
    process with the message logged, or it panics. *)
Inductive ended (A : Type) : Type :=
| Returns (a : A)
| Fatalf (message : string)
| Panics.

Arguments Returns {A} a.
Arguments Fatalf {A} message.
Arguments Panics {A}.

#[export] Instance ended_bind : MBind ended :=
  fun A B k m => match m with
                 | Returns a => k a
                 | Fatalf message => Fatalf message
                 | Panics => Panics
                 end.

Module IPTables.
Section Handler.

(** The text under which the host lists a rule given by its arguments: what
    [iptables -S] prints after [-A chain].  It is the host's business and
    stays abstract. *)
Variable ruleText : list string -> string.

(** [iptablesCmdHandler.Exists("filter", chain, ruleSpec...)]: a rule of
    the chain is listed under the text of [ruleSpec]; a missing chain has
    no rule. *)
Definition Exists (t : table) (chain : string) (ruleSpec : list string) : bool :=
  match chainRules t chain with
  | Some rules => List.existsb (String.eqb (ruleText ruleSpec)) rules
  | None => false
  end.

(** [iptablesCmdHandler.Insert("filter", chain, pos, ruleSpec...)]: the
    rule becomes number [pos] of the chain, which has to be at most one
    more than the rules there are. *)
Definition Insert (t : table) (chain : string) (pos : Z) (ruleSpec : list string)
  : result table :=
  match chainRules t chain with
  | Some rules =>
      if (1 <=? pos)%Z && (pos <=? Z.of_nat (length rules) + 1)%Z
      then let n := Z.to_nat (pos - 1) in
           inl (setChainRules t chain
                  (List.firstn n rules ++ ruleText ruleSpec :: List.skipn n rules))
      else inr (errorString "iptables: Index of insertion too big.")
  | None => inr (errorString "iptables: No chain/target/match by that name.")
  end.

(** [iptablesCmdHandler.NewChain("filter", chain)] on a host where the
    command runs: refused, with exit status 1, for a chain that is there. *)
Definition NewChain (t : table) (chain : string) : table + handlerError :=
  match chainRules t chain with
  | Some _ => inr (commandError 1 "iptables: Chain already exists.")
  | None => inl (t ++ [(chain, [])])
  end.

(** [iptablesCmdHandler.Append("filter", chain, ruleSpec...)] *)
Definition Append (t : table) (chain : string) (ruleSpec : list string) : result table :=
  match chainRules t chain with
  | Some rules => inl (setChainRules t chain (rules ++ [ruleText ruleSpec]))
  | None => inr (errorString "iptables: No chain/target/match by that name.")
  end.

(** [iptablesCmdHandler.AppendUnique("filter", chain, ruleSpec...)]: append
    unless the rule exists. *)
Definition AppendUnique (t : table) (chain : string) (ruleSpec : list string)
  : result table :=
  if Exists t chain ruleSpec then inl t else Append t chain ruleSpec.

End Handler.
End IPTables.

Section TopLevelChains.

Variable ruleText : list string -> string.

(** [ensureRuleAtPosition], the second closure.  An error stands for
    [glog.Fatalf], which ends the process. *)
Definition ensureRuleAtPosition (t : table) (chain : string) (ruleSpec : list string)
    (uuid : string) (position : Z) : result table :=
  if negb (IPTables.Exists ruleText t chain ruleSpec) then
    match IPTables.Insert ruleText t chain position ruleSpec with
    | inr err =>
        inr (errorString ("Failed to run iptables command to insert in " +:+ chain
                            +:+ " chain " +:+ Error err))
    | inl t' => inl t'
    end
  else
    match ListRules t chain with
    | inr err =>
        inr (errorString ("failed to list rules in filter table " +:+ chain
                            +:+ " chain due to " +:+ Error err))
    | inl rules =>
        let ruleNo := findRuleNo uuid rules 0 0 in
        if negb (ruleNo =? position)%Z then
          match IPTables.Insert ruleText t chain position ruleSpec with
          | inr err =>
              inr (errorString ("Failed to run iptables command to insert in " +:+ chain
                                  +:+ " chain " +:+ Error err))
          | inl t1 =>
              match DeleteRule t1 chain (ruleNo + 1) with
              | inr err =>
                  inr (errorString ("Failed to delete incorrect rule in " +:+ chain
                                      +:+ " chain due to " +:+ Error err))
              | inl t2 => inl t2
              end
          end
        else inl t
    end.

End TopLevelChains.

(** A host printing a rule as its arguments joined by blanks, and a chain
    on it. *)
Definition plainText (ruleSpec : list string) : string := GoStrings.Join ruleSpec " ".

Definition sampleListing : list string :=
  ["-P INPUT ACCEPT";
   "-A INPUT -j DOCKER";
   "-N scratch";
   "-A INPUT -m comment --comment " +:+ quoted "kube-router netpol - ABCDEFGHIJKLMNOP"
     +:+ " -j KUBE-ROUTER-INPUT"].

(** A rule of the inbound top-level chain with its identifier, and a table
    where it comes last, after two rules of others. *)
Definition sampleWhitelist : list string :=
  ["-m"; "comment"; "--comment"; "allow traffic to cluster IP - ABCDEFGHIJKLMNOP";
   "-d"; "10.96.0.0/12"; "-j"; "RETURN"].

Definition sampleInputTable : table :=
  [("INPUT", ["-j KUBE-ROUTER-INPUT"]);
   ("KUBE-ROUTER-INPUT",
    ["-s 10.1.2.5 -j KUBE-POD-FW-BBBBBBBBBBBBBBBB";
     "-j KUBE-POD-FW-DEFAULT";
     plainText sampleWhitelist])].

(** ** The local pods *)

(** [isLocalPod]: [strings.Compare] is zero for equal strings. *)
Definition isLocalPod (pod : Pod) (nodeIP : string) : bool :=
  String.eqb (podHostIP pod) nodeIP.

(** The [podInfo] literal [getLocalPods] stores. *)
Definition asPodInfo (pod : Pod) : podInfo :=
  {| ip := podIP pod; name := podName pod; namespace := podNamespace pod;
     labels := podLabels pod |}.

(** The loop of [getLocalPods] over what the pod lister holds; the type
    assertion panics ([None]) on an object that is no pod. *)
Fixpoint getLocalPodsLoop (objs : list Object) (nodeIP : string)
    (localPods : gmap string podInfo) : option (gmap string podInfo) :=
  match objs with
  | [] => Some localPods
  | ForeignObject :: _ => None
  | PodObject pod :: rest =>
      if negb (isLocalPod pod nodeIP) then getLocalPodsLoop rest nodeIP localPods
      else if podHostNetwork pod then getLocalPodsLoop rest nodeIP localPods
      else if (String.length (podIP pod) =? 0)%nat || String.eqb (podIP pod) ""
           then getLocalPodsLoop rest nodeIP localPods
           else getLocalPodsLoop rest nodeIP (<[podIP pod := asPodInfo pod]> localPods)
  end.

(** [getLocalPods]; its error is always nil. *)
Definition getLocalPods (objs : list Object) (nodeIP : string) : option (gmap string podInfo) :=
  getLocalPodsLoop objs nodeIP ∅.

(** The pods [getLocalPods] does not skip. *)
Definition tracked (nodeIP : string) (pod : Pod) : bool :=
  isLocalPod pod nodeIP && negb (podHostNetwork pod) && negb (String.eqb (podIP pod) "").

(** Two pods on the sample node under one address, as when a finished pod
    is still listed after its address went to a new one; and a pod of
    another node. *)
Definition finishedPod : Pod :=
  {| podNamespace := "default"; podName := "job-1"; podPhase := "Succeeded";
     podIP := "10.1.2.5"; podHostIP := "192.168.0.10"; podHostNetwork := false;
     podLabels := None |}.

Definition listedPods : list Pod := [finishedPod; clientPod; samplePod].

(** ** [syncAffectedNetworkPolicyChains]: where its errors come from *)

(** The two sources of an error the function can return: the pod lister,
    and the creation of a set, whose error is wrapped. *)
Definition fromListerOrCreate
    (listPodsByNamespaceAndLabels : string -> LabelSelector -> result (list Pod))
    (createError : string -> option error) (e : error) : Prop :=
  (exists ns selector, listPodsByNamespaceAndLabels ns selector = inr e) \/
  (exists setName err, createError setName = Some err /\
                       e = errorString ("failed to create ipset: " +:+ Error err)).

(** Whether the first part of the loop body takes the pod for one the
    policy targets. *)
Definition targetedBy (policy : NetworkPolicy) (pod : podInfo) : bool :=
  String.eqb (npNamespace policy) (namespace pod)
  && Matches (npPodSelector policy) (labelSet (labels pod)).

(** A host that refuses to create the set of the first ingress rule of the
    sample policy, and a peer evaluation that fails. *)
Definition refusingCreate (setName : string) : option error :=
  if String.eqb setName clientSetName then Some (errorString "ipset: Kernel error") else None.

Definition failingEval (policy : NetworkPolicy) (peer : NetworkPolicyPeer)
  : list Pod * option error :=
  ([], Some (errorString "namespace lister failed")).

Definition workingEval (policy : NetworkPolicy) (peer : NetworkPolicyPeer)
  : list Pod * option error :=
  ([clientPod], None).

(** ** The default chains *)

Section DefaultChains.

(** [iptables.New()]: the handler is set up, or the error that prevents
    it. *)
Variable iptablesNew : result unit.

(** [iptablesCmdHandler.NewChain("filter", chain)] and
    [iptablesCmdHandler.AppendUnique("filter", chain, args...)] as the host
    answers them; [IPTables.NewChain] and [IPTables.AppendUnique] are the
    answers of a host where the command runs. *)
Variable NewChain : table -> string -> table + handlerError.
Variable AppendUnique : table -> string -> list string -> result table.

(** The call of [NewChain] and the test that follows it: an error passes
    when it is an [*iptables.Error] with exit status 1, the table staying as
    it is; with any other exit status the process ends; and the type
    assertion panics on an error of another type. *)
Definition newChainIfMissing (t : table) (chain : string) : ended table :=
  match NewChain t chain with
  | inl t' => Returns t'
  | inr (commandError exitStatus text) =>
      if (exitStatus =? 1)%Z then Returns t
      else Fatalf ("Failed to run iptables command to create " +:+ chain
                     +:+ " chain due to " +:+ text)
  | inr (otherError _) => Panics
  end.

(** The call of [AppendUnique] and the test that follows it. *)
Definition appendUniqueOrDie (t : table) (chain : string) (args : list string) : ended table :=
  match AppendUnique t chain args with
  | inl t' => Returns t'
  | inr err => Fatalf ("Failed to run iptables command: " +:+ Error err)
  end.

(** The two rules of the default pod chain. *)
Definition defaultIngressAction (npc : NetworkPolicyController) (defaultAction : string)
  : list string :=
  ["-m"; "comment"; "--comment"; "default action for pod ingress traffic";
   "-d"; nodePodIPCIDR npc; "-j"; defaultAction].

Definition defaultEgressAction (npc : NetworkPolicyController) (defaultAction : string)
  : list string :=
  ["-m"; "comment"; "--comment"; "default action for pod egress traffic";
   "-s"; nodePodIPCIDR npc; "-j"; defaultAction].

(** [ensureDefaultPodFWChains] *)
Definition ensureDefaultPodFWChains (npc : NetworkPolicyController) (t : table)
  : ended table :=
  match iptablesNew with
  | inr err => Fatalf ("Failed to initialize iptables executor due to " +:+ Error err)
  | inl _ =>
      t ← newChainIfMissing t KubeDefaultPodFWChain;
      if String.eqb (nodePodIPCIDR npc) "" then Returns t
      else
        let defaultAction := if netpolAllowPreCheck npc then "ACCEPT" else "REJECT" in
        t ← appendUniqueOrDie t KubeDefaultPodFWChain (defaultIngressAction npc defaultAction);
        appendUniqueOrDie t KubeDefaultPodFWChain (defaultEgressAction npc defaultAction)
  end.

Definition markArgs : list string :=
  ["-j"; "MARK"; "-m"; "comment"; "--comment";
   "rule to mark traffic matching a network policy"; "--set-xmark"; "0x10000/0x10000"].

(** [ensureDefaultNetworkPolicyChains] *)
Definition ensureDefaultNetworkPolicyChains (t : table) : ended table :=
  match iptablesNew with
  | inr err => Fatalf ("Failed to initialize iptables executor due to " +:+ Error err)
  | inl _ =>
      t ← newChainIfMissing t kubeIngressNetpolChain;
      t ← appendUniqueOrDie t kubeIngressNetpolChain markArgs;
      t ← newChainIfMissing t kubeEgressNetpolChain;
      appendUniqueOrDie t kubeEgressNetpolChain markArgs
  end.

End DefaultChains.

(** The rules a chain has, none for a chain that is not there. *)
Definition rulesOf (t : table) (chain : string) : list string :=
  match chainRules t chain with
  | Some rules => rules
  | None => []
  end.

(** A host where the iptables command cannot take its lock: every
    [NewChain] fails with exit status 4. *)
Definition lockedNewChain (t : table) (chain : string) : table + handlerError :=
  inr (commandError 4 "Another app is currently holding the xtables lock.").

(** The sample controller started with the pre-check allowed. *)
Definition permissiveController : NetworkPolicyController :=
  {| nodeIP := nodeIP sampleController;
     nodeHostName := nodeHostName sampleController;
     nodePodIPCIDR := nodePodIPCIDR sampleController;
     serviceClusterIPRange := serviceClusterIPRange sampleController;
     serviceExternalIPRanges := serviceExternalIPRanges sampleController;
     serviceNodePortRange := serviceNodePortRange sampleController;
     syncPeriod := syncPeriod sampleController;
     MetricsEnabled := MetricsEnabled sampleController;
     fullSyncRequestChan := fullSyncRequestChan sampleController;
     readyForUpdates := readyForUpdates sampleController;
     netpolAllowPreCheck := true;
     ipSetHandler := ipSetHandler sampleController |}.

(** ** The composer's text, line by line *)

(** The line a rule makes in the buffer: its arguments but the closing
    line feed, each followed by a blank. *)
Definition ruleLine (r : rule) : string := GoStrings.Join (List.removelast r) " " +:+ " ".

(** The lines one pod adds to the buffer: the declaration of its chain,
    then its rules. *)
Definition podLines (networkPoliciesInfo : list networkPolicyInfo) (version : string)
    (pod : podInfo) : list string :=
  (":" +:+ podFirewallChainName (namespace pod) (name pod) version)
  :: List.map ruleLine (syncPodFirewallRules pod networkPoliciesInfo version).

(** Names without a line feed, as the API server admits them. *)
Definition plainPod (pod : podInfo) : bool :=
  noLineFeed (name pod) && noLineFeed (namespace pod) && noLineFeed (ip pod).

Definition plainPolicy (policy : networkPolicyInfo) : bool := noLineFeed (policyName policy).

(** A rule the composer can write on one line: arguments without a line
    feed, and the line feed as the last part. *)
Definition oneLineRule (r : rule) : Prop :=
  exists args, args <> [] /\ r = args ++ [lf] /\ Forall (fun a => noLineFeed a = true) args.

(** ** Pods that share a chain *)

(** Two pods of different namespaces whose namespace and name run together
    to the same text. *)
Definition podOfTeam : podInfo :=
  {| ip := "10.1.2.7"; name := "aweb"; namespace := "team"; labels := None |}.

Definition podOfTeama : podInfo :=
  {| ip := "10.1.2.8"; name := "web"; namespace := "teama"; labels := None |}.

(** ** What the collector lets through to the restore *)

(** [cleanupStaleRules] goes through the lines of the buffer before it
    calls the restore primitive.  The line of a rule the composer wrote
    reaches the restore when the rebuild loop does not skip it (it holds no
    stale chain name and not the letters COMMIT, and does not start with
    [# ]) and it starts with a dash.  Lemma [rule_lines_handed_to_restore]
    relates this to the text of the buffer. *)
Definition reachesRestore (cleanupPodFwChains cleanupPolicyChains : list string) (r : rule)
  : bool :=
  negb (skipRule cleanupPodFwChains cleanupPolicyChains (ruleLine r))
  && isRuleLine (ruleLine r).

Definition restoredRules (cleanupPodFwChains cleanupPolicyChains : list string)
    (rules : list rule) : list rule :=
  List.filter (reachesRestore cleanupPodFwChains cleanupPolicyChains) rules.

(** What the restore of one full sync makes of a chain, from the rules the
    composer wrote for it: [installedChain] over the rules that reach the
    restore. *)
Definition restoredChain (chain : string) (cleanupPodFwChains cleanupPolicyChains : list string)
    (rules : list rule) : list rule :=
  installedChain chain (restoredRules cleanupPodFwChains cleanupPolicyChains rules).

(** The rules of [syncPodFirewall] that are written for the pod's own
    chain: all but those of the two intercept helpers. *)
Definition ownChainRules (pod : podInfo) (networkPoliciesInfo : list networkPolicyInfo)
    (version : string) : list rule :=
  let podFwChainName := podFirewallChainName (namespace pod) (name pod) version in
  setupPodIngressRules pod podFwChainName networkPoliciesInfo version
  ++ setupPodEgressRules pod podFwChainName networkPoliciesInfo version
  ++ processNonWhitelistedTrafficRules (name pod) (namespace pod) podFwChainName
  ++ processWhitelistedTrafficRules (name pod) (namespace pod) podFwChainName.

(** A sync version at which the chain name of the sample pod holds the
    letters COMMIT. *)
Definition unluckyVersion : string := "1577836800013838709".

(** ** The garbage collector on a host with a short chain name *)

(** A host the engine has set up, with two more chains under its prefixes
    that no sync of this version made: KUBE-NWPLCY-DEFAULT and
    KUBE-POD-FW-D.  Both are stale for the classification loop, and each
    name is part of the name of a default chain.  The host also has a chain
    of another tool whose name holds the letters COMMIT. *)
Definition crowdedHost : host :=
  {| filterTable :=
       [("INPUT", ["-j KUBE-ROUTER-INPUT"]);
        ("FORWARD", ["-j KUBE-ROUTER-FORWARD"]);
        ("OUTPUT", ["-j KUBE-ROUTER-OUTPUT"]);
        ("AUTOCOMMIT", ["-j RETURN"]);
        ("KUBE-ROUTER-INPUT", ["-j KUBE-POD-FW-DEFAULT"]);
        ("KUBE-ROUTER-FORWARD", ["-j KUBE-POD-FW-DEFAULT"]);
        ("KUBE-ROUTER-OUTPUT", ["-j KUBE-POD-FW-DEFAULT"]);
        ("KUBE-POD-FW-DEFAULT", ["-d 10.1.2.0/24 -j REJECT"]);
        ("KUBE-NWPLCY-DEFAULT-INGRESS", ["-j MARK --set-xmark 0x10000/0x10000"]);
        ("KUBE-NWPLCY-DEFAULT-EGRESS", ["-j MARK --set-xmark 0x10000/0x10000"]);
        ("KUBE-NWPLCY-DEFAULT", ["-j MARK --set-xmark 0x10000/0x10000"]);
        ("KUBE-POD-FW-D", [])];
     ipsetTable := [("blocklist", ["198.51.100.7"])] |}.

(** The dump of that host's filter table, as the sync hands it to the
    collector when there is no local pod and no policy. *)
Definition crowdedDump : string :=
  unlines
    ["# Generated by iptables-save";
     "*filter";
     ":INPUT ACCEPT [0:0]";
     ":FORWARD ACCEPT [0:0]";
     ":OUTPUT ACCEPT [0:0]";
     ":AUTOCOMMIT - [0:0]";
     ":KUBE-ROUTER-INPUT - [0:0]";
     ":KUBE-ROUTER-FORWARD - [0:0]";
     ":KUBE-ROUTER-OUTPUT - [0:0]";
     ":KUBE-POD-FW-DEFAULT - [0:0]";
     ":KUBE-NWPLCY-DEFAULT-INGRESS - [0:0]";
     ":KUBE-NWPLCY-DEFAULT-EGRESS - [0:0]";
     ":KUBE-NWPLCY-DEFAULT - [0:0]";
     ":KUBE-POD-FW-D - [0:0]";
     "-A INPUT -j KUBE-ROUTER-INPUT";
     "-A FORWARD -j KUBE-ROUTER-FORWARD";
     "-A OUTPUT -j KUBE-ROUTER-OUTPUT";
     "-A AUTOCOMMIT -j RETURN";
     "-A KUBE-ROUTER-INPUT -j KUBE-POD-FW-DEFAULT";
     "-A KUBE-ROUTER-FORWARD -j KUBE-POD-FW-DEFAULT";
     "-A KUBE-ROUTER-OUTPUT -j KUBE-POD-FW-DEFAULT";
     "-A KUBE-POD-FW-DEFAULT -d 10.1.2.0/24 -j REJECT";
     "-A KUBE-NWPLCY-DEFAULT-INGRESS -j MARK --set-xmark 0x10000/0x10000";
     "-A KUBE-NWPLCY-DEFAULT-EGRESS -j MARK --set-xmark 0x10000/0x10000";
     "-A KUBE-NWPLCY-DEFAULT -j MARK --set-xmark 0x10000/0x10000";
     "COMMIT";
     "# Completed"].

(** * Properties *)

Module KnownAnswers.
Import GoStrings.

Example round_constants :
  List.firstn 2 Sha256.K = [0x428a2f98; 0x71374491]%Z /\ List.last Sha256.K 0%Z = 0xc67178f2%Z /\
  length Sha256.K = 64 /\ Sha256.ra Sha256.H0 = 0x6a09e667%Z /\ Sha256.rh Sha256.H0 = 0x5be0cd19%Z.
Proof. vm_compute. repeat split; reflexivity. Qed.

Example sha256_abc :
  Sha256.hex (Sha256.Sum256 (bytes "abc"))
  = 0xba7816bf8f01cfea414140de5dae2223b00361a396177a9cb410ff61f20015ad%Z.
Proof. vm_compute. reflexivity. Qed.

Example sha256_empty :
  Sha256.hex (Sha256.Sum256 (bytes ""))
  = 0xe3b0c44298fc1c149afbf4c8996fb92427ae41e4649b934ca495991b7852b855%Z.
Proof. vm_compute. reflexivity. Qed.

Example sha256_two_blocks :
  Sha256.hex (Sha256.Sum256 (bytes "abcdbcdecdefdefgefghfghighijhijkijkljklmklmnlmnomnopnopq"))
  = 0x248d6a61d20638b8e5c026930c3e6039a33ce45964ff2167f6ecedd419db06c1%Z.
Proof. vm_compute. reflexivity. Qed.

Example base32_foobar : Base32.EncodeToString (bytes "foobar") = "MZXW6YTBOI======".
Proof. reflexivity. Qed.

Example base32_short :
  List.map (fun s => Base32.EncodeToString (bytes s)) ["f"; "fo"; "foo"; "foob"; "fooba"]
  = ["MY======"; "MZXQ===="; "MZXW6==="; "MZXW6YQ="; "MZXW6YTB"].
Proof. reflexivity. Qed.

Example pod_chain_name :
  podFirewallChainName "default" "web-0" sampleVersion = "KUBE-POD-FW-TOV5FNMGIIHHJ5IA".
Proof. vm_compute. reflexivity. Qed.

Example split_lines :
  SplitLines ("a" +:+ String newline "b" +:+ String newline "") = ["a"; "b"; ""].
Proof. reflexivity. Qed.

End KnownAnswers.

(** ** Facts on strings and on the two encoders *)

Section StringFacts.
Import GoStrings.

Lemma app_String (c : ascii) (s t : string) : String c s +:+ t = String c (s +:+ t).
Proof. reflexivity. Qed.

Lemma app_empty_l (t : string) : "" +:+ t = t.
Proof. reflexivity. Qed.

Lemma app_empty_r (s : string) : s +:+ "" = s.
Proof. induction s as [|c s IH]; [reflexivity | now rewrite app_String, IH]. Qed.

Lemma length_app_string (s t : string) :
  String.length (s +:+ t) = String.length s + String.length t.
Proof. induction s as [|c s IH]; simpl; [reflexivity | now rewrite IH]. Qed.

Lemma length_substring_0 (n : nat) (s : string) :
  n <= String.length s -> String.length (substring 0 n s) = n.
Proof.
  revert s; induction n as [|n IH]; intros [|c s] Hn; simpl in *; try lia; try reflexivity.
  rewrite IH; [reflexivity | lia].
Qed.

Lemma length_string_of_list_ascii (cs : list ascii) :
  String.length (string_of_list_ascii cs) = length cs.
Proof. induction cs as [|c cs IH]; simpl; [reflexivity | now rewrite IH]. Qed.

Lemma HasPrefix_app (p s : string) : HasPrefix (p +:+ s) p = true.
Proof.
  induction p as [|c p IH]; simpl; [reflexivity |].
  now rewrite Ascii.eqb_refl.
Qed.

Lemma HasPrefix_inv (s p : string) :
  HasPrefix s p = true -> exists t, s = p +:+ t.
Proof.
  revert s; induction p as [|a p IH]; intros s H; simpl in *.
  - now exists s.
  - destruct s as [|b s]; [discriminate |].
    destruct (Ascii.eqb_spec a b) as [->|]; [|discriminate].
    destruct (IH _ H) as [t ->]. now exists t.
Qed.

Lemma slice_to_Some (n : nat) (s : string) :
  n <= String.length s -> slice_to n s = Some (substring 0 n s).
Proof.
  intros H. unfold slice_to.
  destruct (Nat.leb_spec n (String.length s)); [reflexivity | lia].
Qed.

End StringFacts.

Section EncoderFacts.

(** A digest always has 32 bytes, whatever was hashed. *)
Lemma Sum256_length (data : list Z) : length (Sha256.Sum256 data) = 32.
Proof. reflexivity. Qed.

Lemma quantum_length (b0 b1 b2 b3 b4 : Z) : length (Base32.quantum b0 b1 b2 b3 b4) = 8.
Proof. reflexivity. Qed.

(** Induction five bytes at a time, the way [Base32.encode] recurses. *)
Lemma list_ind5 {A : Type} (P : list A -> Prop) :
  P [] -> (forall a, P [a]) -> (forall a b, P [a; b]) -> (forall a b c, P [a; b; c]) ->
  (forall a b c d, P [a; b; c; d]) ->
  (forall a b c d e l, P l -> P (a :: b :: c :: d :: e :: l)) ->
  forall l, P l.
Proof.
  intros H0 H1 H2 H3 H4 H5 l.
  assert (Hall : forall n l', length l' <= n -> P l').
  { intro n; induction n as [|n IH]; intros l' Hl.
    - destruct l'; [exact H0 | simpl in Hl; lia].
    - destruct l' as [|a [|b [|c [|d [|e r]]]]]; auto.
      apply H5, IH. simpl in Hl. lia. }
  apply (Hall (length l)). lia.
Qed.

(** Eight characters for every started group of five bytes. *)
Lemma encode_length (src : list Z) :
  length (Base32.encode src) = 8 * ((length src + 4) / 5).
Proof.
  induction src as [| a | a b | a b c | a b c d | a b c d e l IH] using list_ind5;
    try reflexivity.
  change (Base32.encode (a :: b :: c :: d :: e :: l))
    with (Base32.quantum a b c d e ++ Base32.encode l).
  rewrite length_app, quantum_length, IH.
  change (length (a :: b :: c :: d :: e :: l)) with (5 + length l).
  replace (5 + length l + 4) with (1 * 5 + (length l + 4)) by lia.
  rewrite Nat.div_add_l by lia. lia.
Qed.

Lemma EncodeToString_digest_length (data : list Z) :
  String.length (Base32.EncodeToString (Sha256.Sum256 data)) = 56.
Proof.
  unfold Base32.EncodeToString.
  rewrite length_string_of_list_ascii, encode_length, Sum256_length. reflexivity.
Qed.

End EncoderFacts.

Lemma podFirewallChainName_slice (input : string) :
  GoStrings.slice_to 16 (encodedHash input) = Some (substring 0 16 (encodedHash input)).
Proof.
  apply slice_to_Some. unfold encodedHash.
  rewrite EncodeToString_digest_length. lia.
Qed.

Lemma token_length (input : string) :
  String.length (substring 0 16 (encodedHash input)) = 16.
Proof.
  apply length_substring_0. unfold encodedHash.
  rewrite EncodeToString_digest_length. lia.
Qed.

Lemma podFirewallChainName_prefix (ns p v : string) :
  GoStrings.HasPrefix (podFirewallChainName ns p v) kubePodFirewallChainPrefix = true.
Proof. unfold podFirewallChainName. apply HasPrefix_app. Qed.

(** C9. [podFirewallChainName] is a function of its three inputs (equal
    inputs give equal names), and its value is the prefix ["KUBE-POD-FW-"]
    followed by the first 16 characters of the base-32 encoding of the
    SHA-256 of [namespace + podName + version]; the slice never goes out of
    range and the name always has 28 characters. *)
Theorem podFirewallChainName_spec :
  (forall ns1 p1 v1 ns2 p2 v2 : string,
      ns1 = ns2 -> p1 = p2 -> v1 = v2 ->
      podFirewallChainName ns1 p1 v1 = podFirewallChainName ns2 p2 v2) /\
  (forall ns p v : string,
      let encoded :=
        Base32.EncodeToString (Sha256.Sum256 (GoStrings.bytes (ns +:+ p +:+ v))) in
      exists tok : string,
        GoStrings.slice_to 16 encoded = Some tok /\
        String.length tok = 16 /\
        podFirewallChainName ns p v = "KUBE-POD-FW-" +:+ tok /\
        String.length (podFirewallChainName ns p v) = 28).
Proof.
  split.
  - intros; subst; reflexivity.
  - intros ns p v encoded.
    exists (substring 0 16 encoded).
    split; [apply (podFirewallChainName_slice (ns +:+ p +:+ v)) |].
    split; [apply (token_length (ns +:+ p +:+ v)) |].
    split; [reflexivity |].
    unfold podFirewallChainName. rewrite length_app_string.
    rewrite token_length. reflexivity.
Qed.

Lemma podFirewallChainName_spec_witness :
  podFirewallChainName "default" "web-0" "1" = podFirewallChainName "default" "web-0" "1".
Proof.
  exact (proj1 podFirewallChainName_spec "default" "web-0" "1" "default" "web-0" "1"
               eq_refl eq_refl eq_refl).
Defined.

Module NodePortExamples.
Import NodePort.

Example submatch_colon : FindStringSubmatch "30000:32767" = Some ["30000:32767"; "30000"; "32767"].
Proof. reflexivity. Qed.

Example submatch_dash : FindStringSubmatch "80-443" = Some ["80-443"; "80"; "443"].
Proof. reflexivity. Qed.

Example submatch_rejects :
  List.map FindStringSubmatch ["30000"; ":1"; "1:"; "1:2:3"; "a:2"; "1:2 "; " 1:2"; "1::2"]
  = List.repeat None 8.
Proof. reflexivity. Qed.

Example parse_int16 :
  List.map (fun s => match ParseInt s 16 with inl n => Some n | inr _ => None end)
           ["32767"; "32768"; "65536"; "80"; "-32768"; "-32769"; ""; "+7"; "1_0"; "007"]
  = [Some 32767; None; None; Some 80; Some (-32768); None; None; Some 7; None; Some 7]%Z.
Proof. reflexivity. Qed.

Example format_port : formatInt 30000 = "30000".
Proof. reflexivity. Qed.

End NodePortExamples.

(** ** The node-port pattern and [strconv.ParseInt] *)

Section NodePortFacts.
Import NodePort.

Lemma isDigit_not_sign (c : ascii) :
  isDigit c = true -> Ascii.eqb c "-"%char = false /\ Ascii.eqb c "+"%char = false.
Proof.
  intros H. split.
  - destruct (Ascii.eqb_spec c "-"%char) as [->|]; [discriminate H | reflexivity].
  - destruct (Ascii.eqb_spec c "+"%char) as [->|]; [discriminate H | reflexivity].
Qed.

Lemma spanDigits_allDigits (s : string) : allDigits (fst (spanDigits s)) = true.
Proof.
  induction s as [|c s IH]; simpl; [reflexivity |].
  destruct (isDigit c) eqn:Hc; [| reflexivity].
  destruct (spanDigits s) as [d r]; simpl in *. now rewrite Hc, IH.
Qed.

Lemma spanDigits_app (s : string) : s = fst (spanDigits s) +:+ snd (spanDigits s).
Proof.
  induction s as [|c s IH]; simpl; [reflexivity |].
  destruct (isDigit c); [| reflexivity].
  destruct (spanDigits s) as [d r]; simpl in *.
  rewrite app_String. now f_equal.
Qed.

(** What a successful match returns: the text itself and two non-empty
    groups of digits around one separator. *)
Lemma FindStringSubmatch_inv (s : string) (ms : list string) :
  FindStringSubmatch s = Some ms ->
  exists (d1 d2 : string) (sep : ascii),
    ms = [s; d1; d2] /\ s = d1 +:+ String sep d2 /\ isSeparator sep = true /\
    d1 <> "" /\ d2 <> "" /\ allDigits d1 = true /\ allDigits d2 = true.
Proof.
  unfold FindStringSubmatch. intros H.
  pose proof (spanDigits_allDigits s) as Hd1.
  pose proof (spanDigits_app s) as Hs.
  destruct (spanDigits s) as [[|c1 d1] [|sep r]]; try discriminate; simpl in Hd1, Hs.
  destruct (isSeparator sep) eqn:Hsep; [| discriminate].
  pose proof (spanDigits_allDigits r) as Hd2.
  pose proof (spanDigits_app r) as Hr.
  destruct (spanDigits r) as [[|c2 d2] [|x r2]]; try discriminate; simpl in Hd2, Hr.
  injection H as <-.
  exists (String c1 d1), (String c2 d2), sep.
  split; [reflexivity |].
  split; [rewrite Hs, Hr, app_empty_r; reflexivity |].
  split; [assumption |].
  split; [discriminate |].
  split; [discriminate |].
  split; assumption.
Qed.

(** On a non-empty string of digits the 16-bit parse fails exactly above
    32767. *)
Lemma ParseInt16_digits (d : string) :
  d <> "" -> allDigits d = true ->
  ParseInt d 16 =
    if (32768 <=? decimal d)%Z
    then inr (errorString ("strconv.ParseInt: parsing " +:+ d +:+ ": value out of range"))
    else inl (decimal d).
Proof.
  intros Hne Hd. destruct d as [|c d]; [congruence |].
  unfold ParseInt. simpl in Hd. apply andb_prop in Hd as [Hc Hd].
  destruct (isDigit_not_sign c Hc) as [-> ->]. simpl orb. cbv iota.
  change (allDigits (String c d)) with (isDigit c && allDigits d).
  rewrite Hc, Hd. simpl andb.
  change (2 ^ (16 - 1))%Z with 32768%Z.
  destruct (32768 <=? decimal (String c d))%Z; reflexivity.
Qed.

End NodePortFacts.

(** ** Construction failures *)

Section ConstructorFacts.
Import Ctor NodePort.

Variable Node : Type.
Variable NodeName : Node -> string.
Variable ParseCIDR : string -> result IPNet.
Variable GetPodCidrFromNodeSpec : string -> result string.
Variable GetNodeObject : string -> result Node.
Variable GetNodeIP : Node -> result IP.
Variable NewIPSetSaved : result IPSet.

Local Abbreviation New :=
  (NewNetworkPolicyController Node NodeName ParseCIDR GetPodCidrFromNodeSpec
                              GetNodeObject GetNodeIP NewIPSetSaved).
Local Abbreviation fails :=
  (construction_fails Node NodeName ParseCIDR GetPodCidrFromNodeSpec
                      GetNodeObject GetNodeIP NewIPSetSaved).

Ltac unfold_ctor :=
  unfold NewNetworkPolicyController, mbind, ctor_bind, bind, call, fail, ret.

Ltac first_checks :=
  match goal with
  | |- context [ParseCIDR ?s] => destruct (ParseCIDR s); [| eexists; reflexivity]
  end;
  match goal with
  | |- context [RunRouter ?c] =>
      destruct (RunRouter c);
      [ match goal with
        | |- context [GetPodCidrFromNodeSpec ?h] =>
            destruct (GetPodCidrFromNodeSpec h); [| eexists; reflexivity]
        end |]
  end.

Lemma unparseable_cidr_fails (config : KubeRouterConfig) (e : error) :
  ParseCIDR (ClusterIPCIDR config) = inr e -> fails config.
Proof.
  intros H registry. unfold_ctor. rewrite H. eexists; reflexivity.
Qed.

Lemma unmatched_range_fails (config : KubeRouterConfig) :
  MatchString (NodePortRange config) = false -> fails config.
Proof.
  intros H registry. unfold_ctor. rewrite H.
  first_checks; eexists; reflexivity.
Qed.

Lemma first_port_error_fails (config : KubeRouterConfig) (w d1 d2 : string) (e : error) :
  FindStringSubmatch (NodePortRange config) = Some [w; d1; d2] ->
  ParseInt d1 16 = inr e -> fails config.
Proof.
  intros Hm H1 registry. unfold_ctor. unfold MatchString. rewrite Hm. simpl.
  rewrite H1. first_checks; eexists; reflexivity.
Qed.

Lemma second_port_error_fails (config : KubeRouterConfig) (w d1 d2 : string) (e : error) :
  FindStringSubmatch (NodePortRange config) = Some [w; d1; d2] ->
  ParseInt d2 16 = inr e -> fails config.
Proof.
  intros Hm H2 registry. unfold_ctor. unfold MatchString. rewrite Hm. simpl.
  rewrite H2. first_checks; destruct (ParseInt d1 16); eexists; reflexivity.
Qed.

Lemma unordered_ports_fail (config : KubeRouterConfig) (w d1 d2 : string) (p1 p2 : Z) :
  FindStringSubmatch (NodePortRange config) = Some [w; d1; d2] ->
  ParseInt d1 16 = inl p1 -> ParseInt d2 16 = inl p2 -> (p2 <= p1)%Z -> fails config.
Proof.
  intros Hm H1 H2 Hle registry. unfold_ctor. unfold MatchString. rewrite Hm. simpl.
  rewrite H1, H2. apply Z.leb_le in Hle. rewrite Hle.
  first_checks; eexists; reflexivity.
Qed.

(** A matched range whose numbers are not strictly increasing is refused,
    by one of the two parses or by the comparison. *)
Lemma decreasing_range_fails (config : KubeRouterConfig) (w d1 d2 : string) :
  FindStringSubmatch (NodePortRange config) = Some [w; d1; d2] ->
  (decimal d2 <= decimal d1)%Z -> fails config.
Proof.
  intros Hm Hle.
  destruct (FindStringSubmatch_inv _ _ Hm)
    as (e1 & e2 & sep & Heq & _ & _ & Hn1 & Hn2 & Hd1 & Hd2).
  injection Heq as -> <- <-.
  pose proof (ParseInt16_digits d1 Hn1 Hd1) as P1.
  pose proof (ParseInt16_digits d2 Hn2 Hd2) as P2.
  destruct (32768 <=? decimal d1)%Z; [eapply first_port_error_fails; eassumption |].
  destruct (32768 <=? decimal d2)%Z; [eapply second_port_error_fails; eassumption |].
  eapply unordered_ports_fail; eassumption.
Qed.

(** A port above 32767 on either side is refused by the 16-bit parse. *)
Lemma port_above_int16_fails (config : KubeRouterConfig) (w d1 d2 : string) :
  FindStringSubmatch (NodePortRange config) = Some [w; d1; d2] ->
  (32767 < decimal d1)%Z \/ (32767 < decimal d2)%Z -> fails config.
Proof.
  intros Hm Hbig.
  destruct (FindStringSubmatch_inv _ _ Hm)
    as (e1 & e2 & sep & Heq & _ & _ & Hn1 & Hn2 & Hd1 & Hd2).
  injection Heq as -> <- <-.
  pose proof (ParseInt16_digits d1 Hn1 Hd1) as P1.
  pose proof (ParseInt16_digits d2 Hn2 Hd2) as P2.
  destruct (Z.leb_spec 32768 (decimal d1)); [eapply first_port_error_fails; eassumption |].
  destruct (Z.leb_spec 32768 (decimal d2)); [eapply second_port_error_fails; eassumption |].
  lia.
Qed.

(** What a successful construction hands to [Run]: the flag down and an
    empty channel of capacity one. *)
Lemma constructed_state (config : KubeRouterConfig) (registry registry' : list string)
    (npc : NetworkPolicyController) :
  New config registry = Some (inl npc, registry') ->
  readyForUpdates npc = false /\ fullSyncRequestChan npc = make_chan 1.
Proof.
  unfold_ctor. unfold mret, ctor_ret, ret. intros H.
  repeat match type of H with
         | context [match ?x with _ => _ end] => destruct x eqn:?; try discriminate H
         end.
  all: injection H as <- _; split; reflexivity.
Qed.

(** C8. Construction fails, returning an error and leaving the process
    state as it was, whenever the service cluster-IP CIDR does not parse, the
    node-port range does not match the two-number pattern, or the first port
    is greater than or equal to the second; so it fails for the ranges
    ["80:65536"] and ["30000:30000"]. *)
Theorem NewNetworkPolicyController_rejects_invalid_config :
  (forall config : KubeRouterConfig,
      (exists e, ParseCIDR (ClusterIPCIDR config) = inr e) \/
      MatchString (NodePortRange config) = false \/
      (exists w d1 d2, FindStringSubmatch (NodePortRange config) = Some [w; d1; d2] /\
                       (decimal d2 <= decimal d1)%Z) ->
      forall registry : list string,
      exists err : error, New config registry = Some (inr err, registry)) /\
  (forall config : KubeRouterConfig,
      NodePortRange config = "80:65536" ->
      forall registry : list string,
      exists err : error, New config registry = Some (inr err, registry)) /\
  (forall config : KubeRouterConfig,
      NodePortRange config = "30000:30000" ->
      forall registry : list string,
      exists err : error, New config registry = Some (inr err, registry)).
Proof.
  split; [| split].
  - intros config [[e He] | [Hm | (w & d1 & d2 & Hm & Hle)]].
    + exact (unparseable_cidr_fails config e He).
    + exact (unmatched_range_fails config Hm).
    + exact (decreasing_range_fails config w d1 d2 Hm Hle).
  - intros config Hr.
    apply (port_above_int16_fails config "80:65536" "80" "65536").
    + rewrite Hr. reflexivity.
    + right. vm_compute. reflexivity.
  - intros config Hr.
    apply (decreasing_range_fails config "30000:30000" "30000" "30000").
    + rewrite Hr. reflexivity.
    + vm_compute. discriminate.
Qed.

(** C10. The ports are parsed as signed 16-bit integers, so construction
    fails for every matched range with a port above 32767, although such a
    port can be a valid one: ["30000:40000"] is refused while
    1 <= 30000 < 40000 <= 65535. *)
Theorem NewNetworkPolicyController_rejects_ports_above_int16 :
  (forall (config : KubeRouterConfig) (w d1 d2 : string),
      FindStringSubmatch (NodePortRange config) = Some [w; d1; d2] ->
      (32767 < decimal d1)%Z \/ (32767 < decimal d2)%Z ->
      forall registry : list string,
      exists err : error, New config registry = Some (inr err, registry)) /\
  (forall config : KubeRouterConfig,
      NodePortRange config = "30000:40000" ->
      FindStringSubmatch (NodePortRange config) = Some ["30000:40000"; "30000"; "40000"] /\
      (1 <= decimal "30000" < decimal "40000")%Z /\ (decimal "40000" <= 65535)%Z /\
      forall registry : list string,
      exists err : error, New config registry = Some (inr err, registry)).
Proof.
  split.
  - intros config w d1 d2 Hm Hbig. exact (port_above_int16_fails config w d1 d2 Hm Hbig).
  - intros config Hr.
    assert (Hm : FindStringSubmatch (NodePortRange config)
                 = Some ["30000:40000"; "30000"; "40000"]) by (rewrite Hr; reflexivity).
    split; [exact Hm |].
    split; [vm_compute; split; [discriminate | reflexivity] |].
    split; [vm_compute; discriminate |].
    apply (port_above_int16_fails config _ _ _ Hm).
    right. vm_compute. reflexivity.
Qed.

End ConstructorFacts.

Module ConstructorExamples.
Import SampleCluster.

(** The default node-port range is accepted: the constructor does not fail
    on every input. *)
Example default_range_accepted :
  New (config "10.96.0.0/12" "30000:32767") []
  = Some
    (inl {| nodeIP := "192.168.0.10";
            nodeHostName := "node-1";
            nodePodIPCIDR := "10.1.2.0/24";
            serviceClusterIPRange := "10.96.0.0/12";
            serviceExternalIPRanges := ["192.0.2.0/24"];
            serviceNodePortRange := "30000:32767";
            syncPeriod := 300;
            MetricsEnabled := true;
            fullSyncRequestChan := Chan 1 0;
            readyForUpdates := false;
            netpolAllowPreCheck := false;
            ipSetHandler := [] |},
     ["ControllerIptablesSyncTime"; "ControllerPolicyChainsSyncTime"]).
Proof. vm_compute. reflexivity. Qed.

Example port_65536_message :
  New (config "10.96.0.0/12" "80:65536") []
  = Some (inr (errorString "could not parse second port number from range given: '80:65536'"), []).
Proof. vm_compute. reflexivity. Qed.

Example equal_ports_message :
  New (config "10.96.0.0/12" "30000:30000") []
  = Some (inr (errorString
            "port 1 is greater than or equal to port 2 in range given: '30000:30000'"), []).
Proof. vm_compute. reflexivity. Qed.

Example port_40000_message :
  New (config "10.96.0.0/12" "30000:40000") []
  = Some (inr (errorString "could not parse second port number from range given: '30000:40000'"), []).
Proof. vm_compute. reflexivity. Qed.

End ConstructorExamples.

Lemma NewNetworkPolicyController_rejects_invalid_config_witness :
  (exists err, SampleCluster.New (SampleCluster.config "10.96.0.0" "30000:32767") []
               = Some (inr err, [])) /\
  (exists err, SampleCluster.New (SampleCluster.config "10.96.0.0/12" "80:65536") []
               = Some (inr err, [])) /\
  (exists err, SampleCluster.New (SampleCluster.config "10.96.0.0/12" "30000:30000") []
               = Some (inr err, [])).
Proof.
  pose proof (NewNetworkPolicyController_rejects_invalid_config
                string (fun n => n) SampleCluster.ParseCIDR
                SampleCluster.GetPodCidrFromNodeSpec SampleCluster.GetNodeObject
                SampleCluster.GetNodeIP SampleCluster.NewIPSetSaved) as (H1 & H2 & H3).
  split; [| split].
  - apply (H1 (SampleCluster.config "10.96.0.0" "30000:32767")).
    left. eexists. vm_compute. reflexivity.
  - apply (H2 (SampleCluster.config "10.96.0.0/12" "80:65536")). reflexivity.
  - apply (H3 (SampleCluster.config "10.96.0.0/12" "30000:30000")). reflexivity.
Defined.

Lemma NewNetworkPolicyController_rejects_ports_above_int16_witness :
  (exists err, SampleCluster.New (SampleCluster.config "10.96.0.0/12" "32768:40000") []
               = Some (inr err, [])) /\
  (exists err, SampleCluster.New (SampleCluster.config "10.96.0.0/12" "30000:40000") []
               = Some (inr err, [])).
Proof.
  pose proof (NewNetworkPolicyController_rejects_ports_above_int16
                string (fun n => n) SampleCluster.ParseCIDR
                SampleCluster.GetPodCidrFromNodeSpec SampleCluster.GetNodeObject
                SampleCluster.GetNodeIP SampleCluster.NewIPSetSaved) as (H1 & H2).
  split.
  - apply (H1 (SampleCluster.config "10.96.0.0/12" "32768:40000")
              "32768:40000" "32768" "40000").
    + reflexivity.
    + left. vm_compute. reflexivity.
  - apply (H2 (SampleCluster.config "10.96.0.0/12" "30000:40000")). reflexivity.
Defined.

(** ** Full-sync requests and the readiness flag *)

Section EventLoop.

Lemma RequestFullSync_ready (npc : NetworkPolicyController) :
  readyForUpdates (fst (RequestFullSync npc)) = readyForUpdates npc.
Proof. unfold RequestFullSync. destruct (try_send _); reflexivity. Qed.

Lemma RequestFullSync_cap (npc : NetworkPolicyController) :
  cap (fullSyncRequestChan (fst (RequestFullSync npc))) = cap (fullSyncRequestChan npc).
Proof.
  unfold RequestFullSync, try_send.
  destruct (queued _ <? cap _)%nat; reflexivity.
Qed.

(** A request that finds the slot occupied changes nothing. *)
Lemma RequestFullSync_full (npc : NetworkPolicyController) :
  queued (fullSyncRequestChan npc) = cap (fullSyncRequestChan npc) ->
  try_send (fullSyncRequestChan npc) = None /\
  RequestFullSync npc = (npc, ["Full sync request queue was full, skipping..."]).
Proof.
  intros H. unfold RequestFullSync, try_send. rewrite H, Nat.ltb_irrefl. split; reflexivity.
Qed.

Lemma RequestFullSync_bounded (npc : NetworkPolicyController) :
  queued (fullSyncRequestChan npc) <= cap (fullSyncRequestChan npc) ->
  queued (fullSyncRequestChan (fst (RequestFullSync npc))) <= cap (fullSyncRequestChan npc).
Proof.
  intros H. unfold RequestFullSync, try_send.
  destruct (Nat.ltb_spec (queued (fullSyncRequestChan npc)) (cap (fullSyncRequestChan npc)));
    simpl; lia.
Qed.

Lemma handlers_keep_ready (npc : NetworkPolicyController) (e : effect) :
  (exists obj, AddFunc npc obj = Some e) \/
  (exists o n, UpdateFunc npc o n = Some e) \/
  (exists obj, DeleteFunc npc obj = Some e) ->
  readyForUpdates (fst e) = readyForUpdates npc.
Proof.
  unfold AddFunc, UpdateFunc, DeleteFunc, logged_then.
  intros [[obj H] | [(o & n & H) | [obj H]]];
    destruct (readyForUpdates npc) eqn:Hr; simpl in H.
  - destruct obj; [| discriminate]. injection H as <-. simpl.
    now rewrite RequestFullSync_ready.
  - now injection H as <-.
  - destruct n, o; try discriminate.
    destruct (_ || _); injection H as <-; simpl; [now rewrite RequestFullSync_ready | assumption].
  - now injection H as <-.
  - injection H as <-. now rewrite RequestFullSync_ready.
  - now injection H as <-.
Qed.

Lemma step_ready_behind_sync (s s' : system) (ev : event) :
  ready_behind_sync s -> step s ev = Some s' -> ready_behind_sync s'.
Proof.
  intros [Hr Hg] Hstep. unfold ready_behind_sync.
  destruct ev; simpl in Hstep.
  - injection Hstep as <-. simpl. rewrite RequestFullSync_ready. auto.
  - destruct (goroutine s) eqn:G; try discriminate.
    destruct (try_recv _); [| discriminate].
    injection Hstep as <-. simpl. split; [exact Hr | discriminate].
  - destruct (goroutine s); try discriminate.
    injection Hstep as <-. simpl. split; intros; lia.
  - destruct (goroutine s) eqn:G; try discriminate.
    injection Hstep as <-. simpl. split; [intros _; apply Hg; reflexivity | discriminate].
  - destruct (AddFunc (controller s) obj) as [e|] eqn:E; [| discriminate].
    injection Hstep as <-. simpl.
    rewrite (handlers_keep_ready (controller s) e) by (left; eauto). auto.
  - destruct (UpdateFunc (controller s) oldObj newObj) as [e|] eqn:E; [| discriminate].
    injection Hstep as <-. simpl.
    rewrite (handlers_keep_ready (controller s) e) by (right; left; eauto). auto.
  - destruct (DeleteFunc (controller s) obj) as [e|] eqn:E; [| discriminate].
    injection Hstep as <-. simpl.
    rewrite (handlers_keep_ready (controller s) e) by (right; right; eauto). auto.
Qed.

Lemma run_ready_behind_sync (evs : list event) (s s' : system) :
  ready_behind_sync s -> run s evs = Some s' -> ready_behind_sync s'.
Proof.
  revert s; induction evs as [|ev evs IH]; intros s Hs Hrun; simpl in Hrun.
  - now injection Hrun as <-.
  - destruct (step s ev) as [s1|] eqn:E; [| discriminate].
    eapply IH; [eapply step_ready_behind_sync; eassumption | exact Hrun].
Qed.

Lemma apply_no_effect (s : system) : apply_effect s (controller s, []) = s.
Proof. destruct s. unfold apply_effect. simpl. now rewrite app_nil_r. Qed.

(** C3. From a freshly constructed controller and along any interleaving of
    ticks, sync-goroutine steps and pod callbacks: the flag
    [readyForUpdates] is raised only after a full sync has returned, and as
    long as it is not raised (so in particular while no sync has completed)
    the add, update and delete handlers return at once, leaving the
    controller, its request channel and the log exactly as they were. *)
Theorem pod_handlers_idle_until_first_sync
  (npc0 : NetworkPolicyController) (evs : list event) (s : system) :
  readyForUpdates npc0 = false ->
  run (started npc0) evs = Some s ->
  (readyForUpdates (controller s) = true -> 1 <= syncsCompleted s) /\
  (syncsCompleted s = 0 -> readyForUpdates (controller s) = false) /\
  (readyForUpdates (controller s) = false ->
   forall obj oldObj newObj : Object,
     AddFunc (controller s) obj = Some (controller s, []) /\
     UpdateFunc (controller s) oldObj newObj = Some (controller s, []) /\
     DeleteFunc (controller s) obj = Some (controller s, []) /\
     step s (PodAdded obj) = Some s /\
     step s (PodUpdated oldObj newObj) = Some s /\
     step s (PodDeleted obj) = Some s).
Proof.
  intros H0 Hrun.
  assert (Hinv : ready_behind_sync s).
  { eapply run_ready_behind_sync; [| exact Hrun].
    split; simpl; [rewrite H0 |]; discriminate. }
  destruct Hinv as [Hr _].
  split; [exact Hr |].
  split.
  - intros Hz. destruct (readyForUpdates (controller s)); [| reflexivity].
    specialize (Hr eq_refl). lia.
  - intros Hn obj oldObj newObj.
    unfold step, AddFunc, UpdateFunc, DeleteFunc. rewrite Hn. simpl.
    rewrite apply_no_effect. repeat split; reflexivity.
Qed.

Lemma ticks_always_run (N : nat) (s : system) :
  exists s1, run s (List.repeat Tick N) = Some s1 /\
             goroutine s1 = goroutine s /\
             syncsStarted s1 = syncsStarted s /\
             cap (fullSyncRequestChan (controller s1)) = cap (fullSyncRequestChan (controller s)) /\
             (queued (fullSyncRequestChan (controller s)) <= cap (fullSyncRequestChan (controller s)) ->
              queued (fullSyncRequestChan (controller s1)) <= cap (fullSyncRequestChan (controller s))) /\
             (queued (fullSyncRequestChan (controller s)) = cap (fullSyncRequestChan (controller s)) ->
              controller s1 = controller s).
Proof.
  revert s; induction N as [|N IH]; intros s; simpl.
  - exists s. repeat split; auto.
  - destruct (IH (apply_effect s (RequestFullSync (controller s))))
      as (s1 & Hrun & Hg & Hs & Hc & Hb & Hf).
    exists s1. simpl in *. rewrite RequestFullSync_cap in *.
    split; [exact Hrun |]. split; [exact Hg |]. split; [exact Hs |]. split; [exact Hc |].
    split.
    + intros Hle. apply Hb. now apply RequestFullSync_bounded.
    + intros Hfull. destruct (RequestFullSync_full _ Hfull) as [_ Heq].
      rewrite Heq in *. simpl in *. auto.
Qed.

(** Each sync the goroutine starts takes one request out of the slot. *)
Lemma consumer_run_budget (evs : list event) (s s' : system) :
  Forall (fun ev => consumer_event ev = true) evs ->
  run s evs = Some s' ->
  syncsStarted s' + queued (fullSyncRequestChan (controller s'))
  = syncsStarted s + queued (fullSyncRequestChan (controller s)).
Proof.
  revert s; induction evs as [|ev evs IH]; intros s Hall Hrun; simpl in Hrun.
  - now injection Hrun as <-.
  - inversion Hall as [|? ? Hev Hrest]; subst.
    destruct (step s ev) as [s1|] eqn:E; [| discriminate].
    rewrite (IH s1 Hrest Hrun). clear IH Hrun Hall Hrest.
    destruct ev; try discriminate Hev; simpl in E.
    + destruct (goroutine s); try discriminate.
      unfold try_recv in E.
      destruct (queued (fullSyncRequestChan (controller s))) as [|q] eqn:Q; [discriminate |].
      injection E as <-. simpl. lia.
    + destruct (goroutine s); try discriminate. now injection E as <-.
    + destruct (goroutine s); try discriminate. now injection E as <-.
Qed.

(** C4. A call to [RequestFullSync] always returns, whatever the state of
    the channel; and with the single-slot channel occupied, any number [N]
    of calls leave the controller unchanged (the requests are dropped), and
    whatever the sync goroutine does afterwards it starts at most one more
    full sync. *)
Theorem full_sync_requests_coalesce :
  (forall (s : system) (N : nat), is_Some (run s (List.repeat Tick N))) /\
  (forall (s : system) (N : nat),
      cap (fullSyncRequestChan (controller s)) = 1 ->
      queued (fullSyncRequestChan (controller s)) = 1 ->
      exists s1 : system,
        run s (List.repeat Tick N) = Some s1 /\
        controller s1 = controller s /\
        forall (evs : list event) (s2 : system),
          Forall (fun ev => consumer_event ev = true) evs ->
          run s1 evs = Some s2 ->
          syncsStarted s2 <= syncsStarted s + 1).
Proof.
  split.
  - intros s N. destruct (ticks_always_run N s) as (s1 & Hrun & _). now exists s1.
  - intros s N Hcap Hq.
    destruct (ticks_always_run N s) as (s1 & Hrun & _ & Hs & _ & _ & Hf).
    exists s1. split; [exact Hrun |].
    assert (Hc : controller s1 = controller s) by (apply Hf; lia).
    split; [exact Hc |].
    intros evs s2 Hall Hrun2.
    pose proof (consumer_run_budget evs s1 s2 Hall Hrun2) as Hb.
    rewrite Hc, Hq, Hs in Hb. lia.
Qed.

End EventLoop.

Module EventLoopExamples.

(** A burst of 1000 requests while a sync is in progress: one more sync
    follows the one in flight, and then the goroutine finds the slot
    empty. *)
Example burst_during_sync :
  let evs := [Tick; Receive] ++ List.repeat Tick 1000
               ++ [SyncReturns; SetReady; Receive; SyncReturns; SetReady] in
  (fun s => (syncsStarted s, syncsCompleted s, step s Receive)) <$> run (started sampleController) evs
  = Some (2, 2, None).
Proof. vm_compute. reflexivity. Qed.

(** Once the flag is raised a pod deletion does request a sync. *)
Example delete_after_first_sync :
  (fun s => fullSyncRequestChan (controller s))
    <$> run (started sampleController) [Tick; Receive; SyncReturns; SetReady; PodDeleted ForeignObject]
  = Some (Chan 1 1).
Proof. vm_compute. reflexivity. Qed.

End EventLoopExamples.

Lemma pod_handlers_idle_until_first_sync_witness :
  (readyForUpdates (controller sampleEarlyState) = true -> 1 <= syncsCompleted sampleEarlyState) /\
  (syncsCompleted sampleEarlyState = 0 -> readyForUpdates (controller sampleEarlyState) = false) /\
  (readyForUpdates (controller sampleEarlyState) = false ->
   forall obj oldObj newObj : Object,
     AddFunc (controller sampleEarlyState) obj = Some (controller sampleEarlyState, []) /\
     UpdateFunc (controller sampleEarlyState) oldObj newObj = Some (controller sampleEarlyState, []) /\
     DeleteFunc (controller sampleEarlyState) obj = Some (controller sampleEarlyState, []) /\
     step sampleEarlyState (PodAdded obj) = Some sampleEarlyState /\
     step sampleEarlyState (PodUpdated oldObj newObj) = Some sampleEarlyState /\
     step sampleEarlyState (PodDeleted obj) = Some sampleEarlyState).
Proof.
  apply (pod_handlers_idle_until_first_sync sampleController sampleEarlyTrace sampleEarlyState).
  - reflexivity.
  - vm_compute. reflexivity.
Defined.

Lemma full_sync_requests_coalesce_witness :
  exists s1 : system,
    run sampleOccupied (List.repeat Tick 1000) = Some s1 /\
    controller s1 = controller sampleOccupied /\
    forall (evs : list event) (s2 : system),
      Forall (fun ev => consumer_event ev = true) evs ->
      run s1 evs = Some s2 ->
      syncsStarted s2 <= syncsStarted sampleOccupied + 1.
Proof.
  apply (proj2 full_sync_requests_coalesce sampleOccupied 1000).
  - reflexivity.
  - reflexivity.
Defined.

(** ** The installed order of a pod firewall chain *)

Section PodFirewall.

Lemma restoreRule_other (chain : string) (installed : list rule) (r : rule) :
  List.nth 1 r "" <> chain -> restoreRule chain installed r = installed.
Proof.
  intros H. destruct r as [|op [|c spec]]; try reflexivity. simpl in H.
  unfold restoreRule.
  apply String.eqb_neq in H. rewrite H.
  destruct (String.eqb op "-A"); [reflexivity |].
  destruct (String.eqb op "-I"); [| reflexivity].
  destruct spec; reflexivity.
Qed.

Lemma restore_others (chain : string) (rs : list rule) (installed : list rule) :
  Forall (fun r => List.nth 1 r "" <> chain) rs ->
  List.fold_left (restoreRule chain) rs installed = installed.
Proof.
  revert installed; induction rs as [|r rs IH]; intros installed H; [reflexivity |].
  inversion H; subst. simpl. rewrite restoreRule_other by assumption. now apply IH.
Qed.

Lemma restore_inserts (chain : string) (rs : list rule) (installed : list rule) :
  Forall (fun r => exists spec, r = "-I" :: chain :: "1" :: spec) rs ->
  List.fold_left (restoreRule chain) rs installed
  = List.rev (List.map (List.skipn 3) rs) ++ installed.
Proof.
  revert installed; induction rs as [|r rs IH]; intros installed H; [reflexivity |].
  inversion H as [|? ? [spec ->] Hrs]; subst. simpl.
  rewrite IH by assumption.
  unfold restoreRule. rewrite String.eqb_refl.
  change (String.eqb "-I" "-A") with false. change (String.eqb "-I" "-I") with true.
  cbv iota. change (Z.to_nat (NodePort.decimal "1" - 1)) with 0. simpl.
  now rewrite <- app_assoc.
Qed.

Lemma restore_appends (chain : string) (rs : list rule) (installed : list rule) :
  Forall (fun r => exists spec, r = "-A" :: chain :: spec) rs ->
  List.fold_left (restoreRule chain) rs installed
  = installed ++ List.map (List.skipn 2) rs.
Proof.
  revert installed; induction rs as [|r rs IH]; intros installed H.
  - simpl. now rewrite app_nil_r.
  - inversion H as [|? ? [spec ->] Hrs]; subst. simpl.
    rewrite IH by assumption.
    unfold restoreRule. rewrite String.eqb_refl.
    change (String.eqb "-A" "-A") with true. cbv iota.
    now rewrite <- app_assoc.
Qed.

Lemma ingress_rules_insert (pod : podInfo) (chain : string)
    (policies : list networkPolicyInfo) (version : string) :
  Forall (fun r => exists spec, r = "-I" :: chain :: "1" :: spec)
         (setupPodIngressRules pod chain policies version).
Proof.
  unfold setupPodIngressRules.
  repeat apply Forall_app_2.
  - apply Forall_forall. intros r Hr. apply list_elem_of_In, in_map_iff in Hr.
    destruct Hr as [policy [<- _]]. eexists; reflexivity.
  - destruct (negb _); repeat constructor. eexists; reflexivity.
  - repeat constructor; eexists; reflexivity.
Qed.

Lemma egress_rules_insert (pod : podInfo) (chain : string)
    (policies : list networkPolicyInfo) (version : string) :
  Forall (fun r => exists spec, r = "-I" :: chain :: "1" :: spec)
         (setupPodEgressRules pod chain policies version).
Proof.
  unfold setupPodEgressRules.
  repeat apply Forall_app_2.
  - apply Forall_forall. intros r Hr. apply list_elem_of_In, in_map_iff in Hr.
    destruct Hr as [policy [<- _]]. eexists; reflexivity.
  - destruct (negb _); repeat constructor. eexists; reflexivity.
  - repeat constructor; eexists; reflexivity.
Qed.

(** A pod chain is none of the three top-level chains. *)
Lemma pod_chain_not_top_level (ns p v : string) :
  podFirewallChainName ns p v <> kubeInputChainName /\
  podFirewallChainName ns p v <> kubeForwardChainName /\
  podFirewallChainName ns p v <> kubeOutputChainName.
Proof.
  pose proof (podFirewallChainName_prefix ns p v) as H.
  repeat split; intros E; rewrite E in H; discriminate H.
Qed.

Lemma intercept_rules_elsewhere (pod : podInfo) (chain : string) (ns p v : string) :
  Forall (fun r => List.nth 1 r "" <> podFirewallChainName ns p v)
         (interceptPodInboundTraffic pod chain ++ interceptPodOutboundTraffic pod chain).
Proof.
  destruct (pod_chain_not_top_level ns p v) as (Hi & Hf & Ho).
  unfold interceptPodInboundTraffic, interceptPodOutboundTraffic. simpl.
  repeat constructor; simpl; congruence.
Qed.

(** The rules a pod writes leave every chain but its own and the three
    top-level ones alone. *)
Lemma sync_rules_elsewhere (q : podInfo) (policies : list networkPolicyInfo)
    (version chain : string) :
  podFirewallChainName (namespace q) (name q) version <> chain ->
  chain <> kubeInputChainName -> chain <> kubeForwardChainName ->
  chain <> kubeOutputChainName ->
  Forall (fun r => List.nth 1 r "" <> chain) (syncPodFirewallRules q policies version).
Proof.
  intros Hq Hi Hf Ho. unfold syncPodFirewallRules.
  set (qc := podFirewallChainName (namespace q) (name q) version) in *.
  apply Forall_app_2.
  { eapply Forall_impl; [apply ingress_rules_insert |]. intros r [spec ->]. exact Hq. }
  apply Forall_app_2.
  { eapply Forall_impl; [apply egress_rules_insert |]. intros r [spec ->]. exact Hq. }
  apply Forall_app_2; [repeat constructor; exact Hq |].
  apply Forall_app_2; [repeat constructor; exact Hq |].
  apply Forall_app_2.
  - unfold interceptPodInboundTraffic. repeat constructor; simpl; congruence.
  - unfold interceptPodOutboundTraffic. simpl. repeat constructor; simpl; congruence.
Qed.

(** What one pod's rules install in its own chain, on top of what is there. *)
Lemma sync_rules_own_chain (pod : podInfo) (policies : list networkPolicyInfo)
    (version : string) (installed : list rule) :
  let chain := podFirewallChainName (namespace pod) (name pod) version in
  List.fold_left (restoreRule chain) (syncPodFirewallRules pod policies version) installed
  = insertedHead pod chain policies version ++ installed ++ appendedTail pod chain.
Proof.
  intros chain. unfold syncPodFirewallRules. fold chain.
  set (ins := setupPodIngressRules pod chain policies version).
  set (egs := setupPodEgressRules pod chain policies version).
  set (nwl := processNonWhitelistedTrafficRules (name pod) (namespace pod) chain).
  set (wl := processWhitelistedTrafficRules (name pod) (namespace pod) chain).
  set (icp := interceptPodInboundTraffic pod chain ++ interceptPodOutboundTraffic pod chain).
  replace (ins ++ egs ++ nwl ++ wl ++ icp)
    with ((ins ++ egs) ++ (nwl ++ wl) ++ icp) by (now rewrite <- !app_assoc).
  rewrite (fold_left_app _ (ins ++ egs)), (fold_left_app _ (nwl ++ wl)).
  rewrite (restore_inserts chain (ins ++ egs))
    by (apply Forall_app_2; [apply ingress_rules_insert | apply egress_rules_insert]).
  rewrite (restore_appends chain (nwl ++ wl))
    by (repeat constructor; eexists; reflexivity).
  rewrite (restore_others chain icp) by (apply intercept_rules_elsewhere).
  unfold insertedHead. fold ins egs. now rewrite <- app_assoc.
Qed.

Lemma installed_skips_other_pods (chain : string) (pods : list podInfo)
    (policies : list networkPolicyInfo) (version : string) (installed : list rule) :
  chain <> kubeInputChainName -> chain <> kubeForwardChainName ->
  chain <> kubeOutputChainName ->
  (forall q, In q pods -> podFirewallChainName (namespace q) (name q) version <> chain) ->
  List.fold_left (restoreRule chain) (fullSyncPodFirewallRules pods policies version) installed
  = installed.
Proof.
  intros Hi Hf Ho Hq. apply restore_others.
  unfold fullSyncPodFirewallRules. apply Forall_forall. intros r Hr.
  apply list_elem_of_In, in_flat_map in Hr. destruct Hr as (q & Hin & Hr).
  pose proof (sync_rules_elsewhere q policies version chain (Hq q Hin) Hi Hf Ho) as Hall.
  rewrite Forall_forall in Hall. apply Hall. now apply list_elem_of_In.
Qed.

Lemma app_assoc_str (a b c : string) : (a +:+ b) +:+ c = a +:+ (b +:+ c).
Proof. induction a as [|x a IH]; [reflexivity | now rewrite !app_String, IH]. Qed.

Lemma WriteRules_text (rules : list rule) (buf : string) :
  WriteRules buf rules = buf +:+ renderRules rules.
Proof.
  revert buf; induction rules as [|r rules IH]; intros buf.
  - cbn [WriteRules List.fold_left renderRules List.fold_right]. now rewrite app_empty_r.
  - unfold WriteRules in *. cbn [List.fold_left renderRules List.fold_right].
    rewrite IH. unfold WriteRule. apply app_assoc_str.
Qed.

(** The buffer after the loop over the local pods: one segment per pod, in
    the order of the iteration; and every pod's chain is marked active. *)
Lemma fullSyncPodFirewallChains_text (pods : list podInfo)
    (policies : list networkPolicyInfo) (version : string) :
  forall (buf : string) (active : gmap string bool),
    fst (fullSyncPodFirewallChains buf pods policies version active)
    = buf +:+ List.fold_right (fun pod text => podSegment policies version pod +:+ text) "" pods.
Proof.
  induction pods as [|pod pods IH]; intros buf active.
  - cbn [fullSyncPodFirewallChains fst List.fold_right]. now rewrite app_empty_r.
  - cbn [fullSyncPodFirewallChains List.fold_right]. rewrite IH.
    unfold syncPodFirewall. rewrite WriteRules_text. unfold podSegment.
    now rewrite !app_assoc_str.
Qed.

Lemma fullSyncPodFirewallChains_active (pods : list podInfo)
    (policies : list networkPolicyInfo) (version : string) :
  forall (buf : string) (active : gmap string bool) (c : string),
    isActive (snd (fullSyncPodFirewallChains buf pods policies version active)) c = true <->
    isActive active c = true \/
    exists pod, In pod pods /\ c = podFirewallChainName (namespace pod) (name pod) version.
Proof.
  induction pods as [|pod pods IH]; intros buf active c.
  - cbn [fullSyncPodFirewallChains snd]. split; [now left | intros [H | (p & [] & _)]; exact H].
  - cbn [fullSyncPodFirewallChains]. rewrite IH. unfold isActive.
    rewrite !bool_decide_eq_true.
    split.
    + intros [H | (p & Hp & ->)].
      * destruct (decide (podFirewallChainName (namespace pod) (name pod) version = c)) as [<- | Hne].
        -- right. exists pod. split; [now left | reflexivity].
        -- left. now rewrite lookup_insert_ne in H.
      * right. exists p. split; [now right | reflexivity].
    + intros [H | (p & [<- | Hp] & ->)].
      * left. destruct (decide (podFirewallChainName (namespace pod) (name pod) version = c))
          as [<- | Hne]; [rewrite lookup_insert_eq; eauto | now rewrite lookup_insert_ne].
      * left. rewrite lookup_insert_eq. eauto.
      * right. exists p. split; [exact Hp | reflexivity].
Qed.

(** The restore of the lines as the composer wrote them, none left out:
    the rules one full sync emits for a local pod make its chain of the
    inserted jumps (in reverse of the order written), then the rate-limited
    log rule and the reject rule, both on mark != 0x10000/0x10000, then the
    rule resetting the mark (set-mark 0/0x10000), and last the rule setting
    0x20000/0x20000; and this is all the lines of a full sync make of the
    chain when no other local pod shares the chain name. *)
Lemma written_rules_chain_order :
  (forall (pod : podInfo) (policies : list networkPolicyInfo) (version : string),
      let chain := podFirewallChainName (namespace pod) (name pod) version in
      installedChain chain (syncPodFirewallRules pod policies version)
      = insertedHead pod chain policies version
        ++ [spec_of (logRule (name pod) (namespace pod) chain);
            spec_of (rejectRule (name pod) (namespace pod) chain);
            spec_of (resetMarkRule chain);
            spec_of (acceptMarkRule chain)]) /\
  (forall (before after : list podInfo) (pod : podInfo)
          (policies : list networkPolicyInfo) (version : string),
      let chain := podFirewallChainName (namespace pod) (name pod) version in
      (forall q, In q (before ++ after) ->
                 podFirewallChainName (namespace q) (name q) version <> chain) ->
      installedChain chain (fullSyncPodFirewallRules (before ++ pod :: after) policies version)
      = insertedHead pod chain policies version
        ++ [spec_of (logRule (name pod) (namespace pod) chain);
            spec_of (rejectRule (name pod) (namespace pod) chain);
            spec_of (resetMarkRule chain);
            spec_of (acceptMarkRule chain)]).
Proof.
  split.
  - intros pod policies version chain.
    exact (sync_rules_own_chain pod policies version []).
  - intros before after pod policies version chain Hothers.
    destruct (pod_chain_not_top_level (namespace pod) (name pod) version) as (Hi & Hf & Ho).
    fold chain in Hi, Hf, Ho.
    assert (Hsplit : fullSyncPodFirewallRules (before ++ pod :: after) policies version
                     = fullSyncPodFirewallRules before policies version
                       ++ syncPodFirewallRules pod policies version
                       ++ fullSyncPodFirewallRules after policies version).
    { unfold fullSyncPodFirewallRules. rewrite flat_map_app. reflexivity. }
    unfold installedChain. rewrite Hsplit, !fold_left_app.
    rewrite (installed_skips_other_pods chain before policies version [])
      by (try assumption; intros q Hq; apply Hothers, in_or_app; now left).
    pose proof (sync_rules_own_chain pod policies version []) as Hown.
    cbv zeta in Hown. fold chain in Hown. rewrite Hown.
    rewrite (installed_skips_other_pods chain after)
      by (try assumption; intros q Hq; apply Hothers, in_or_app; now right).
    reflexivity.
Qed.

End PodFirewall.

Module PodFirewallExamples.

(** The chain of a pod no policy selects, as installed. *)
Example unselected_pod_chain :
  let chain := podFirewallChainName "default" "db-0" sampleVersion in
  List.map (fun r => GoStrings.Join (List.firstn (length r - 1) r) " ")
           (installedChain chain (fullSyncPodFirewallRules [otherPodInfo] [samplePolicy] sampleVersion))
  = [ "-m comment --comment " +:+ quoted "rule for stateful firewall for pod"
        +:+ " -m conntrack --ctstate RELATED,ESTABLISHED -j ACCEPT";
      "-s 10.1.2.6 -m comment --comment " +:+ quoted "run through default egress policy  chain"
        +:+ " -j KUBE-NWPLCY-DEFAULT-EGRESS";
      "-m comment --comment " +:+ quoted "rule for stateful firewall for pod"
        +:+ " -m conntrack --ctstate RELATED,ESTABLISHED -j ACCEPT";
      "-m comment --comment "
        +:+ quoted "rule to permit the traffic traffic to pods when source is the pod's local node"
        +:+ " -m addrtype --src-type LOCAL -d 10.1.2.6 -j ACCEPT";
      "-d 10.1.2.6 -m comment --comment " +:+ quoted "run through default ingress policy  chain"
        +:+ " -j KUBE-NWPLCY-DEFAULT-INGRESS";
      "-m comment --comment "
        +:+ quoted "rule to log dropped traffic POD name:db-0 namespace: default"
        +:+ " -m mark ! --mark 0x10000/0x10000 -j NFLOG --nflog-group 100"
        +:+ " -m limit --limit 10/minute --limit-burst 10";
      "-m comment --comment "
        +:+ quoted "rule to REJECT traffic destined for POD name:db-0 namespace: default"
        +:+ " -m mark ! --mark 0x10000/0x10000 -j REJECT";
      "-j MARK --set-mark 0/0x10000";
      "-m comment --comment "
        +:+ quoted "set mark to ACCEPT traffic that comply to network policies"
        +:+ " -j MARK --set-mark 0x20000/0x20000" ].
Proof. vm_compute. reflexivity. Qed.

End PodFirewallExamples.

(** ** The garbage collector: what is classified stale *)

#[global] Arguments GoStrings.HasPrefix : simpl never.
#[global] Arguments GoStrings.Contains : simpl never.

Section Staleness.
Import GoStrings.

Lemma staleChains_filter (chains : list string)
    (activePolicyChains activePodFwChains : gmap string bool) :
  staleChains chains activePolicyChains activePodFwChains
  = (List.filter (stalePolicyChain activePolicyChains) chains,
     List.filter (stalePodFwChain activePodFwChains) chains).
Proof.
  unfold staleChains.
  enough (H : forall acc1 acc2,
             List.fold_left
               (fun '(cleanupPolicyChains, cleanupPodFwChains) chain =>
                  (if HasPrefix chain kubeNetworkPolicyChainPrefix
                      && negb (isActive activePolicyChains chain)
                   then cleanupPolicyChains ++ [chain] else cleanupPolicyChains,
                   if HasPrefix chain kubePodFirewallChainPrefix
                      && negb (isActive activePodFwChains chain)
                   then cleanupPodFwChains ++ [chain] else cleanupPodFwChains))
               chains (acc1, acc2)
             = (acc1 ++ List.filter (stalePolicyChain activePolicyChains) chains,
                acc2 ++ List.filter (stalePodFwChain activePodFwChains) chains))
    by exact (H [] []).
  induction chains as [|c chains IH]; intros acc1 acc2; simpl.
  - now rewrite !app_nil_r.
  - rewrite IH. unfold stalePolicyChain, stalePodFwChain.
    destruct (HasPrefix c kubeNetworkPolicyChainPrefix && _),
             (HasPrefix c kubePodFirewallChainPrefix && _);
      now rewrite <- ?app_assoc.
Qed.

Lemma staleIPSets_filter (sets : IPSet) (activePolicyIPSets : gmap string bool) :
  staleIPSets sets activePolicyIPSets
  = List.filter (staleIPSet activePolicyIPSets) (List.map fst sets).
Proof.
  unfold staleIPSets.
  enough (H : forall acc,
             List.fold_left
               (fun cleanupPolicyIPSets (set : string * list string) =>
                  if (HasPrefix (fst set) kubeSourceIPSetPrefix
                      || HasPrefix (fst set) kubeDestinationIPSetPrefix)
                     && negb (isActive activePolicyIPSets (fst set))
                  then cleanupPolicyIPSets ++ [fst set] else cleanupPolicyIPSets)
               sets acc
             = acc ++ List.filter (staleIPSet activePolicyIPSets) (List.map fst sets))
    by exact (H []).
  induction sets as [|s sets IH]; intros acc; simpl.
  - now rewrite app_nil_r.
  - rewrite IH. unfold staleIPSet.
    destruct ((HasPrefix (fst s) kubeSourceIPSetPrefix || _) && _); now rewrite <- ?app_assoc.
Qed.

Lemma defaults_are_active (activePolicyChains activePodFwChains : gmap string bool) :
  isActive (withDefaultPodFwChain activePodFwChains) KubeDefaultPodFWChain = true /\
  isActive (withDefaultPolicyChains activePolicyChains) kubeIngressNetpolChain = true /\
  isActive (withDefaultPolicyChains activePolicyChains) kubeEgressNetpolChain = true.
Proof.
  unfold isActive, withDefaultPodFwChain, withDefaultPolicyChains.
  repeat split; apply bool_decide_eq_true.
  - rewrite lookup_insert_eq. eauto.
  - rewrite lookup_insert_ne by discriminate. rewrite lookup_insert_eq. eauto.
  - rewrite lookup_insert_eq. eauto.
Qed.

Lemma default_not_stale (activePolicyChains activePodFwChains : gmap string bool) (d : string) :
  In d defaultChains ->
  stalePolicyChain (withDefaultPolicyChains activePolicyChains) d = false /\
  stalePodFwChain (withDefaultPodFwChain activePodFwChains) d = false.
Proof.
  destruct (defaults_are_active activePolicyChains activePodFwChains) as (Hp & Hi & He).
  unfold stalePolicyChain, stalePodFwChain.
  intros [<- | [<- | [<- | []]]].
  - rewrite Hp. split; reflexivity.
  - rewrite Hi. split; reflexivity.
  - rewrite He. split; reflexivity.
Qed.

Lemma destroySets_result (cleanup : list string) (sets sets' : IPSet) :
  destroySets sets cleanup = inl sets' ->
  sets' = List.filter (fun entry => negb (List.existsb (String.eqb (fst entry)) cleanup)) sets.
Proof.
  revert sets; induction cleanup as [|c cleanup IH]; intros sets H; simpl in H.
  - injection H as <-. simpl. induction sets as [|e sets IHs]; simpl; congruence.
  - unfold DestroySet in H.
    destruct (List.existsb _ sets); [| discriminate].
    apply IH in H. subst sets'. clear IH.
    induction sets as [|e sets IHs]; simpl; [reflexivity |].
    rewrite (String.eqb_sym (fst e) c).
    destruct (String.eqb c (fst e)); simpl; [exact IHs |].
    destruct (List.existsb _ cleanup); simpl; [exact IHs | now rewrite IHs].
Qed.

(** What [cleanupStaleRules] classifies.  The staleness of chains is
    decided against the active maps with the three default chains added, so
    no default chain is in either clean-up list whatever maps were passed
    in; a chain is in a clean-up list only if its name has the policy or the
    pod firewall prefix, and an IP set only if its name has the source or
    the destination prefix; and when the function succeeds the IP sets it
    destroyed are exactly the sets classified stale, every other set being
    left as it was.  Which chains the restore then leaves is another
    matter: see [cleanupStaleRules_drops_spared_chains]. *)
Lemma stale_classification
    (Restore : table -> string -> result table) (h : host) (currentFilterTable : string)
    (activePolicyChains activePodFwChains activePolicyIPSets : gmap string bool) :
  let cleanupPolicyChains :=
    fst (staleChains (ListChains (filterTable h))
                     (withDefaultPolicyChains activePolicyChains)
                     (withDefaultPodFwChain activePodFwChains)) in
  let cleanupPodFwChains :=
    snd (staleChains (ListChains (filterTable h))
                     (withDefaultPolicyChains activePolicyChains)
                     (withDefaultPodFwChain activePodFwChains)) in
  let cleanupPolicyIPSets := staleIPSets (ipsetTable h) activePolicyIPSets in
  (forall d, In d defaultChains ->
             ~ In d cleanupPolicyChains /\ ~ In d cleanupPodFwChains) /\
  (forall c, In c cleanupPolicyChains ->
             HasPrefix c kubeNetworkPolicyChainPrefix = true /\
             In c (ListChains (filterTable h)) /\
             isActive (withDefaultPolicyChains activePolicyChains) c = false) /\
  (forall c, In c cleanupPodFwChains ->
             HasPrefix c kubePodFirewallChainPrefix = true /\
             In c (ListChains (filterTable h)) /\
             isActive (withDefaultPodFwChain activePodFwChains) c = false) /\
  (forall s, In s cleanupPolicyIPSets ->
             (HasPrefix s kubeSourceIPSetPrefix = true \/
              HasPrefix s kubeDestinationIPSetPrefix = true) /\
             isActive activePolicyIPSets s = false) /\
  (forall h' : host,
      cleanupStaleRules Restore h currentFilterTable
                        activePolicyChains activePodFwChains activePolicyIPSets = inl h' ->
      (exists t, removeStaleReferences (filterTable h) cleanupPodFwChains = inl t /\
                 Restore t (desiredFilterTable currentFilterTable
                                               cleanupPodFwChains cleanupPolicyChains)
                 = inl (filterTable h')) /\
      ipsetTable h'
      = List.filter (fun entry => negb (List.existsb (String.eqb (fst entry)) cleanupPolicyIPSets))
                    (ipsetTable h)).
Proof.
  intros cleanupPolicyChains cleanupPodFwChains cleanupPolicyIPSets.
  subst cleanupPolicyChains cleanupPodFwChains cleanupPolicyIPSets.
  unfold cleanupStaleRules.
  rewrite staleChains_filter, staleIPSets_filter. simpl fst. simpl snd.
  split; [| split; [| split; [| split]]].
  - intros d Hd.
    destruct (default_not_stale activePolicyChains activePodFwChains d Hd) as [Hp Hf].
    split; intros Hin; apply filter_In in Hin as [_ Hs]; congruence.
  - intros c Hin. apply filter_In in Hin as [Hc Hs].
    unfold stalePolicyChain in Hs. apply andb_prop in Hs as [Hpre Hact].
    apply negb_true_iff in Hact. auto.
  - intros c Hin. apply filter_In in Hin as [Hc Hs].
    unfold stalePodFwChain in Hs. apply andb_prop in Hs as [Hpre Hact].
    apply negb_true_iff in Hact. auto.
  - intros s Hin. apply filter_In in Hin as [Hc Hs].
    unfold staleIPSet in Hs. apply andb_prop in Hs as [Hpre Hact].
    apply negb_true_iff in Hact. apply orb_prop in Hpre. auto.
  - intros h' H. unfold mbind, result_bind, mret, result_ret in H.
    destruct (removeStaleReferences _ _) as [t|] eqn:Ht; [| discriminate].
    destruct (Restore t _) as [t'|] eqn:Hr; [| discriminate].
    destruct (destroySets _ _) as [sets'|] eqn:Hd; [| discriminate].
    injection H as <-. simpl. split.
    + exists t. split; [reflexivity | exact Hr].
    + now apply destroySets_result.
Qed.

End Staleness.

(** ** The garbage collector: the buffer handed to the restore primitive *)

Section RestoreBuffer.
Import GoStrings.

Lemma app_inv_tail_string (s s' t : string) : s +:+ t = s' +:+ t -> s = s'.
Proof.
  revert s'; induction s as [|c s IH]; intros [|c' s'] H.
  - reflexivity.
  - apply (f_equal String.length) in H.
    rewrite app_empty_l, app_String in H. cbn [String.length] in H.
    rewrite length_app_string in H. lia.
  - apply (f_equal String.length) in H.
    rewrite app_empty_l, app_String in H. cbn [String.length] in H.
    rewrite length_app_string in H. lia.
  - rewrite !app_String in H. injection H as -> H. f_equal. now apply IH.
Qed.

Lemma SplitLines_noLineFeed (s : string) : Forall (fun l => noLineFeed l = true) (SplitLines s).
Proof.
  induction s as [|c s IH]; simpl.
  - repeat constructor.
  - destruct (Ascii.eqb c newline) eqn:E.
    + constructor; [reflexivity | exact IH].
    + destruct (SplitLines s) as [|l ls]; [repeat constructor; simpl; now rewrite E |].
      inversion IH; subst. constructor; [simpl; now rewrite E | assumption].
Qed.

(** Splitting gives back a line and goes on with what follows its line
    feed. *)
Lemma SplitLines_line (l rest : string) :
  noLineFeed l = true -> SplitLines ((l +:+ lf) +:+ rest) = l :: SplitLines rest.
Proof.
  induction l as [|c l IH]; intros H.
  - reflexivity.
  - simpl in H. apply andb_prop in H as [Hc Hl]. apply negb_true_iff in Hc.
    rewrite !app_String. simpl. rewrite Hc, (IH Hl). reflexivity.
Qed.

Lemma SplitLines_unlines (ls : list string) (rest : string) :
  Forall (fun l => noLineFeed l = true) ls ->
  SplitLines (unlines ls +:+ rest) = ls ++ SplitLines rest.
Proof.
  induction ls as [|l ls IH]; intros H; [reflexivity |].
  inversion H; subst. simpl unlines.
  rewrite app_assoc_str, SplitLines_line by assumption.
  now rewrite IH.
Qed.

Lemma noLineFeed_app (a b : string) :
  noLineFeed (a +:+ b) = noLineFeed a && noLineFeed b.
Proof.
  induction a as [|c a IH]; [reflexivity |].
  rewrite app_String. simpl. rewrite IH. now rewrite andb_assoc.
Qed.

Lemma dumpLines_noLineFeed (text : string) :
  Forall (fun l => noLineFeed l = true) (dumpLines text).
Proof.
  unfold dumpLines. pose proof (SplitLines_noLineFeed text) as H.
  destruct (List.rev (SplitLines text)) as [|[|c s] front] eqn:E; try exact H.
  apply (f_equal (@List.rev string)) in E. rewrite rev_involutive in E. simpl in E.
  rewrite E in H. apply Forall_app in H as [H _]. exact H.
Qed.

(** The two buffers of the rebuild loop hold the kept declarations, each
    with its suffix, and the kept rule lines. *)
Lemma rebuild_unlines (podStale policyStale : list string) (rules : list string) :
  let kept := List.filter (fun l => negb (skipRule podStale policyStale l)) rules in
  rebuild podStale policyStale rules
  = (unlines (List.map (fun l => l +:+ " - [0:0]") (List.filter isDeclaration kept)),
     unlines (List.filter isRuleLine kept)).
Proof.
  unfold rebuild.
  enough (H : forall c r,
             List.fold_left
               (fun '(newChains, newRules) ruleText =>
                  if skipRule podStale policyStale ruleText then (newChains, newRules)
                  else (if HasPrefix ruleText ":"
                        then newChains +:+ (ruleText +:+ " - [0:0]" +:+ lf) else newChains,
                        if HasPrefix ruleText "-"
                        then newRules +:+ (ruleText +:+ lf) else newRules))
               rules (c, r)
             = (c +:+ unlines (List.map (fun l => l +:+ " - [0:0]")
                                 (List.filter isDeclaration
                                    (List.filter (fun l => negb (skipRule podStale policyStale l))
                                                 rules))),
                r +:+ unlines (List.filter isRuleLine
                                 (List.filter (fun l => negb (skipRule podStale policyStale l))
                                              rules))))
    by exact (H "" "").
  induction rules as [|l rules IH]; intros c r.
  - simpl. now rewrite !app_empty_r.
  - cbn [List.fold_left List.filter].
    destruct (skipRule podStale policyStale l); cbn [negb]; [apply IH |].
    rewrite IH. cbn [List.filter]. unfold isDeclaration at 2, isRuleLine at 2.
    destruct (HasPrefix l ":"), (HasPrefix l "-"); cbn [List.map unlines];
      rewrite ?app_assoc_str; reflexivity.
Qed.

Lemma kept_line_clean (text : string) (podStale policyStale : list string) (l : string) :
  In l (keptLines text podStale policyStale) ->
  In l (dumpLines text) /\
  (forall c, In c podStale -> Contains l c = false) /\
  (forall c, In c policyStale -> Contains l c = false) /\
  Contains l "COMMIT" = false /\ HasPrefix l "# " = false.
Proof.
  unfold keptLines. intros H. apply filter_In in H as [Hin Hs].
  apply negb_true_iff in Hs. unfold skipRule in Hs.
  apply orb_false_elim in Hs as [Hs Hc]. apply orb_false_elim in Hs as [Hs Hk].
  apply orb_false_elim in Hs as [Hp Hq].
  split; [exact Hin |]. repeat split; try assumption.
  - intros c Hc'. destruct (Contains l c) eqn:E; [| reflexivity].
    assert (List.existsb (Contains l) podStale = true)
      by (apply existsb_exists; eauto). congruence.
  - intros c Hc'. destruct (Contains l c) eqn:E; [| reflexivity].
    assert (List.existsb (Contains l) policyStale = true)
      by (apply existsb_exists; eauto). congruence.
Qed.

(** C6, as the code has it. The buffer handed to the restore primitive
    reads, line by line: [*filter]; then every kept line of the dump that
    starts with a colon, followed by [ - [0:0]]; then every kept line that
    starts with a dash; then [COMMIT], and nothing after it.  A kept line
    mentions no stale pod firewall or policy chain, does not contain
    [COMMIT] and is not a comment; a declaration the sync wrote as
    [:name] therefore comes out as [:name - [0:0]], and no line but the
    last is [COMMIT]. *)
Theorem restore_buffer_layout (currentFilterTable : string)
    (cleanupPodFwChains cleanupPolicyChains : list string) :
  let kept := keptLines currentFilterTable cleanupPodFwChains cleanupPolicyChains in
  let declarations := List.map (fun l => l +:+ " - [0:0]") (List.filter isDeclaration kept) in
  let rules := List.filter isRuleLine kept in
  SplitLines (desiredFilterTable currentFilterTable cleanupPodFwChains cleanupPolicyChains)
  = ["*filter"] ++ declarations ++ rules ++ ["COMMIT"; ""] /\
  (forall l, In l kept ->
             In l (dumpLines currentFilterTable) /\
             (forall c, In c cleanupPodFwChains -> Contains l c = false) /\
             (forall c, In c cleanupPolicyChains -> Contains l c = false) /\
             Contains l "COMMIT" = false /\ HasPrefix l "# " = false) /\
  (forall d, In d declarations -> HasPrefix d ":" = true /\ d <> "COMMIT") /\
  (forall r, In r rules -> HasPrefix r "-" = true /\ r <> "COMMIT") /\
  (forall chainName, In (":" +:+ chainName) kept ->
                     In (":" +:+ chainName +:+ " - [0:0]") declarations).
Proof.
  intros kept declarations rules.
  assert (Hclean : Forall (fun l => noLineFeed l = true) kept).
  { unfold kept, keptLines. apply Forall_forall. intros l Hl.
    apply list_elem_of_In, filter_In in Hl as [Hl _].
    pose proof (dumpLines_noLineFeed currentFilterTable) as H.
    rewrite Forall_forall in H. apply H. now apply list_elem_of_In. }
  split; [| split; [| split; [| split]]].
  - unfold desiredFilterTable.
    pose proof (rebuild_unlines cleanupPodFwChains cleanupPolicyChains
                                (dumpLines currentFilterTable)) as Hr.
    cbv zeta in Hr. fold (keptLines currentFilterTable cleanupPodFwChains cleanupPolicyChains) in Hr.
    fold kept in Hr. fold declarations rules in Hr. rewrite Hr.
    rewrite (SplitLines_line "*filter") by reflexivity.
    rewrite SplitLines_unlines.
    + rewrite SplitLines_unlines.
      * reflexivity.
      * unfold rules. apply Forall_forall. intros l Hl.
        apply list_elem_of_In, filter_In in Hl as [Hl _].
        rewrite Forall_forall in Hclean. apply Hclean. now apply list_elem_of_In.
    + unfold declarations. apply Forall_forall. intros l Hl.
      apply list_elem_of_In, in_map_iff in Hl as (l0 & <- & Hl0).
      apply filter_In in Hl0 as [Hl0 _].
      rewrite noLineFeed_app.
      rewrite Forall_forall in Hclean. rewrite (Hclean l0) by (now apply list_elem_of_In).
      reflexivity.
  - intros l Hl. now apply kept_line_clean.
  - intros d Hd. unfold declarations in Hd.
    apply in_map_iff in Hd as (l & <- & Hl). apply filter_In in Hl as [_ Hl].
    unfold isDeclaration in Hl. destruct (HasPrefix_inv _ _ Hl) as [t ->].
    split; [rewrite app_assoc_str; apply HasPrefix_app | discriminate].
  - intros r Hr. unfold rules in Hr. apply filter_In in Hr as [_ Hr].
    unfold isRuleLine in Hr. split; [exact Hr |].
    intros ->. discriminate Hr.
  - intros chainName Hin. unfold declarations.
    change (":" +:+ chainName +:+ " - [0:0]") with ((":" +:+ chainName) +:+ " - [0:0]").
    apply in_map_iff. exists (":" +:+ chainName). split; [reflexivity |].
    apply filter_In. split; [exact Hin |]. apply (HasPrefix_app ":" chainName).
Qed.

End RestoreBuffer.

Module CleanupExamples.

Example sample_classification :
  sampleStalePolicyChains = ["KUBE-NWPLCY-CCCCCCCCCCCCCCCC"] /\
  sampleStalePodFwChains = ["KUBE-POD-FW-AAAAAAAAAAAAAAAA"] /\
  staleIPSets (ipsetTable sampleHost) sampleActiveIPSets = ["KUBE-SRC-DDDDDDDDDDDDDDDD"].
Proof. vm_compute. repeat split; reflexivity. Qed.

(** Even with empty active maps the default chains are spared. *)
Example nothing_active :
  staleChains (ListChains (filterTable sampleHost))
              (withDefaultPolicyChains ∅) (withDefaultPodFwChain ∅)
  = (["KUBE-NWPLCY-CCCCCCCCCCCCCCCC"],
     ["KUBE-POD-FW-AAAAAAAAAAAAAAAA"; "KUBE-POD-FW-BBBBBBBBBBBBBBBB"]).
Proof. vm_compute. reflexivity. Qed.

Example sample_references_removed :
  (fun t => (chainRules t kubeInputChainName, chainRules t kubeForwardChainName,
             chainRules t kubeOutputChainName))
    <$> removeStaleReferences (filterTable sampleHost) sampleStalePodFwChains
  = inl (Some ["-j KUBE-POD-FW-DEFAULT"],
         Some ["-s 10.1.2.5 -j KUBE-POD-FW-BBBBBBBBBBBBBBBB"; "-j KUBE-POD-FW-DEFAULT"],
         Some ["-j KUBE-POD-FW-DEFAULT"]).
Proof. vm_compute. reflexivity. Qed.

Example sample_run :
  sampleCleaned
  = {| filterTable :=
         [("INPUT", ["-j KUBE-ROUTER-INPUT"]);
          ("FORWARD", ["-j KUBE-ROUTER-FORWARD"]);
          ("OUTPUT", ["-j KUBE-ROUTER-OUTPUT"]);
          ("DOCKER-USER", ["-j RETURN"]);
          ("KUBE-ROUTER-INPUT", ["-j KUBE-POD-FW-DEFAULT"]);
          ("KUBE-ROUTER-FORWARD",
           ["-s 10.1.2.5 -j KUBE-POD-FW-BBBBBBBBBBBBBBBB"; "-j KUBE-POD-FW-DEFAULT"]);
          ("KUBE-ROUTER-OUTPUT", ["-j KUBE-POD-FW-DEFAULT"]);
          ("KUBE-POD-FW-DEFAULT", ["-d 10.1.2.0/24 -j REJECT"]);
          ("KUBE-NWPLCY-DEFAULT-INGRESS", ["-j MARK --set-xmark 0x10000/0x10000"]);
          ("KUBE-NWPLCY-DEFAULT-EGRESS", ["-j MARK --set-xmark 0x10000/0x10000"]);
          ("KUBE-POD-FW-AAAAAAAAAAAAAAAA", ["-j KUBE-NWPLCY-CCCCCCCCCCCCCCCC"]);
          ("KUBE-POD-FW-BBBBBBBBBBBBBBBB", ["-j KUBE-NWPLCY-DEFAULT-INGRESS"]);
          ("KUBE-NWPLCY-CCCCCCCCCCCCCCCC",
           ["-m set --match-set KUBE-SRC-DDDDDDDDDDDDDDDD src -j MARK --set-xmark 0x10000/0x10000"])];
       ipsetTable :=
         [("KUBE-DST-EEEEEEEEEEEEEEEE", ["10.1.2.5"]); ("blocklist", ["198.51.100.7"])] |}.
Proof. vm_compute. reflexivity. Qed.

Example sample_buffer :
  GoStrings.SplitLines (desiredFilterTable sampleDump sampleStalePodFwChains sampleStalePolicyChains)
  = ["*filter";
     ":INPUT ACCEPT [0:0] - [0:0]";
     ":KUBE-ROUTER-FORWARD - [0:0] - [0:0]";
     ":KUBE-POD-FW-BBBBBBBBBBBBBBBB - [0:0]";
     "-A INPUT -j KUBE-ROUTER-INPUT";
     "-A KUBE-ROUTER-FORWARD -j KUBE-POD-FW-DEFAULT";
     "-I KUBE-POD-FW-BBBBBBBBBBBBBBBB 1 -j KUBE-NWPLCY-DEFAULT-INGRESS ";
     "-A KUBE-POD-FW-BBBBBBBBBBBBBBBB -j MARK --set-mark 0x20000/0x20000 ";
     "COMMIT"; ""].
Proof. vm_compute. reflexivity. Qed.

End CleanupExamples.

Example stale_classification_on_sample :
  (~ In KubeDefaultPodFWChain sampleStalePolicyChains /\
   ~ In KubeDefaultPodFWChain sampleStalePodFwChains) /\
  (GoStrings.HasPrefix "KUBE-POD-FW-AAAAAAAAAAAAAAAA" kubePodFirewallChainPrefix = true /\
   In "KUBE-POD-FW-AAAAAAAAAAAAAAAA" (ListChains (filterTable sampleHost)) /\
   isActive (withDefaultPodFwChain sampleActivePodFwChains) "KUBE-POD-FW-AAAAAAAAAAAAAAAA" = false) /\
  ((GoStrings.HasPrefix "KUBE-SRC-DDDDDDDDDDDDDDDD" kubeSourceIPSetPrefix = true \/
    GoStrings.HasPrefix "KUBE-SRC-DDDDDDDDDDDDDDDD" kubeDestinationIPSetPrefix = true) /\
   isActive sampleActiveIPSets "KUBE-SRC-DDDDDDDDDDDDDDDD" = false) /\
  ipsetTable sampleCleaned
  = List.filter
      (fun entry => negb (List.existsb (String.eqb (fst entry))
                            (staleIPSets (ipsetTable sampleHost) sampleActiveIPSets)))
      (ipsetTable sampleHost).
Proof.
  pose proof (stale_classification
                acceptingRestore sampleHost sampleDump
                ∅ sampleActivePodFwChains sampleActiveIPSets) as (Hd & _ & Hf & Hs & Hh).
  split; [| split; [| split]].
  - apply Hd. left. reflexivity.
  - apply Hf. vm_compute. left. reflexivity.
  - apply Hs. vm_compute. left. reflexivity.
  - apply Hh. vm_compute. reflexivity.
Qed.

(** C6 as stated fails on a dump of the filter table as [iptables-save]
    writes it: the declaration of a built-in chain already carries its
    policy and counters, and comes out with the suffix added once more,
    which is not a colon, a chain name and [ - [0:0]]. *)
Lemma restore_buffer_layout_counterexample :
  ~ (forall l : string,
        In l (GoStrings.SplitLines
                (desiredFilterTable sampleDump sampleStalePodFwChains sampleStalePolicyChains)) ->
        GoStrings.HasPrefix l ":" = true -> declaresChain l).
Proof.
  intros H.
  destruct (H ":INPUT ACCEPT [0:0] - [0:0]") as (chainName & Hblank & Heq).
  - vm_compute. right. left. reflexivity.
  - reflexivity.
  - rewrite app_String, app_empty_l in Heq. injection Heq as Heq.
    change "INPUT ACCEPT [0:0] - [0:0]" with ("INPUT ACCEPT [0:0]" +:+ " - [0:0]") in Heq.
    apply app_inv_tail_string in Heq. subst chainName. discriminate Hblank.
Qed.

Lemma restore_buffer_layout_witness :
  GoStrings.HasPrefix (":KUBE-POD-FW-BBBBBBBBBBBBBBBB" +:+ " - [0:0]") ":" = true /\
  ":KUBE-POD-FW-BBBBBBBBBBBBBBBB" +:+ " - [0:0]" <> "COMMIT".
Proof.
  pose proof (restore_buffer_layout sampleDump sampleStalePodFwChains sampleStalePolicyChains)
    as (_ & _ & Hd & _ & Hn).
  apply Hd. apply (Hn "KUBE-POD-FW-BBBBBBBBBBBBBBBB").
  vm_compute. do 5 right. left. reflexivity.
Defined.

(** ** [Cleanup]: what it removes and what it leaves *)

Section CleanupFacts.
Import GoStrings.

Lemma chainRules_setChainRules_ne (t : table) (c c' : string) (rules : list string) :
  c <> c' -> chainRules (setChainRules t c' rules) c = chainRules t c.
Proof.
  intros Hne. unfold chainRules, setChainRules. f_equal.
  induction t as [|[n r] t IH]; [reflexivity |]. cbn [List.map List.find fst].
  destruct (String.eqb_spec n c') as [-> | Hn]; cbn [fst].
  - apply String.eqb_neq in Hne. rewrite String.eqb_sym, Hne. exact IH.
  - destruct (String.eqb n c); [reflexivity | exact IH].
Qed.

Lemma chainRules_setChainRules_eq (t : table) (c : string) (rules : list string) :
  is_Some (chainRules t c) -> chainRules (setChainRules t c rules) c = Some rules.
Proof.
  unfold chainRules, setChainRules. intros [x Hx].
  induction t as [|[n r] t IH]; [discriminate Hx |].
  cbn [List.map List.find fst] in *.
  destruct (String.eqb_spec n c) as [-> | Hn]; cbn [fst].
  - rewrite String.eqb_refl. reflexivity.
  - apply String.eqb_neq in Hn. rewrite Hn in *. apply IH, Hx.
Qed.

Lemma chainRules_app_ne (t : table) (c c' : string) (rules : list string) :
  c <> c' -> chainRules (t ++ [(c', rules)]) c = chainRules t c.
Proof.
  intros Hne. unfold chainRules. f_equal.
  induction t as [|[n r] t IH]; cbn [app List.find fst].
  - apply String.eqb_neq in Hne. now rewrite String.eqb_sym, Hne.
  - destruct (String.eqb n c); [reflexivity | exact IH].
Qed.

Lemma chainRules_remove_ne (t : table) (c c' : string) :
  c <> c' ->
  chainRules (List.filter (fun entry => negb (String.eqb (fst entry) c')) t) c = chainRules t c.
Proof.
  intros Hne. unfold chainRules. f_equal.
  induction t as [|[n r] t IH]; [reflexivity |]. cbn [List.filter List.find fst].
  destruct (String.eqb_spec n c') as [-> | Hn]; cbn [negb List.find fst].
  - apply String.eqb_neq in Hne. rewrite String.eqb_sym, Hne. exact IH.
  - destruct (String.eqb n c); [reflexivity | exact IH].
Qed.

Lemma ListChains_setChainRules (t : table) (c : string) (rules : list string) :
  ListChains (setChainRules t c rules) = ListChains t.
Proof.
  unfold ListChains, setChainRules. rewrite map_map. apply map_ext_in.
  intros [n r] _. cbn [fst]. destruct (String.eqb_spec n c) as [-> |]; reflexivity.
Qed.

Lemma DeleteRule_other (t t' : table) (chain c : string) (n : Z) :
  DeleteRule t chain n = inl t' -> c <> chain -> chainRules t' c = chainRules t c.
Proof.
  unfold DeleteRule. intros H Hne.
  destruct (chainRules t chain); [| discriminate].
  destruct (_ && _); [| discriminate]. injection H as <-.
  now apply chainRules_setChainRules_ne.
Qed.

Lemma cleanupReferences_other (chain c : string) (listing : list string) :
  c <> chain ->
  forall t i k log,
    chainRules (fst (cleanupReferences t chain listing i k log)) c = chainRules t c.
Proof.
  intros Hne. induction listing as [|r listing IH]; intros t i k log; [reflexivity |].
  cbn [cleanupReferences].
  destruct (Contains r kubePodFirewallChainPrefix); [| apply IH].
  destruct (DeleteRule t chain (i - k)) as [t'|] eqn:E; rewrite IH; [| reflexivity].
  eapply DeleteRule_other; eassumption.
Qed.

Lemma DeleteRule_names (t t' : table) (chain : string) (n : Z) :
  DeleteRule t chain n = inl t' -> ListChains t' = ListChains t.
Proof.
  unfold DeleteRule. intros H.
  destruct (chainRules t chain); [| discriminate].
  destruct (_ && _); [| discriminate]. injection H as <-.
  apply ListChains_setChainRules.
Qed.

Lemma cleanupReferences_names (chain : string) (listing : list string) :
  forall t i k log,
    ListChains (fst (cleanupReferences t chain listing i k log)) = ListChains t.
Proof.
  induction listing as [|r listing IH]; intros t i k log; [reflexivity |].
  cbn [cleanupReferences].
  destruct (Contains r kubePodFirewallChainPrefix); [| apply IH].
  destruct (DeleteRule t chain (i - k)) as [t'|] eqn:E; rewrite IH; [| reflexivity].
  eapply DeleteRule_names; eassumption.
Qed.

(** The scan deletes by number while the numbers shift: with [kept] the
    rules already passed over and [k] deletions done, the rule looked at is
    number [length kept + 1] of the chain as it now stands. *)
Lemma cleanupReferences_shift (chain : string) (rules : list string) :
  forall (kept : list string) (t : table) (k : Z) (log : list string),
    chainRules t chain = Some (kept ++ rules) ->
    chainRules
      (fst (cleanupReferences t chain
              (List.map (fun r => "-A " +:+ chain +:+ " " +:+ r) rules)
              (Z.of_nat (length kept) + 1 + k) k log))
      chain
    = Some (kept ++ keptByCleanup chain rules).
Proof.
  induction rules as [|r rules IH]; intros kept t k log Ht; [exact Ht |].
  cbn [List.map cleanupReferences keptByCleanup List.filter].
  fold (keptByCleanup chain rules).
  destruct (Contains ("-A " +:+ chain +:+ " " +:+ r) kubePodFirewallChainPrefix) eqn:E;
    cbn [negb].
  - replace (Z.of_nat (length kept) + 1 + k - k)%Z with (Z.of_nat (length kept) + 1)%Z by lia.
    unfold DeleteRule. rewrite Ht.
    assert (Hin : ((1 <=? Z.of_nat (length kept) + 1)%Z
                   && (Z.of_nat (length kept) + 1 <=? Z.of_nat (length (kept ++ r :: rules)))%Z)
                  = true).
    { rewrite length_app. cbn [length]. apply andb_true_intro. split; apply Z.leb_le; lia. }
    rewrite Hin.
    replace (Z.to_nat (Z.of_nat (length kept) + 1 - 1)) with (length kept) by lia.
    assert (Hcut : List.firstn (length kept) (kept ++ r :: rules)
                   ++ List.skipn (S (length kept)) (kept ++ r :: rules) = kept ++ rules).
    { clear. induction kept as [|x kept IHk]; [reflexivity |].
      cbn [length app List.firstn List.skipn]. now rewrite IHk. }
    rewrite Hcut.
    replace (Z.of_nat (length kept) + 1 + k + 1)%Z
      with (Z.of_nat (length kept) + 1 + (k + 1))%Z by lia.
    apply IH. apply chainRules_setChainRules_eq. rewrite Ht. eauto.
  - replace (Z.of_nat (length kept) + 1 + k + 1)%Z
      with (Z.of_nat (length (kept ++ [r])) + 1 + k)%Z
      by (rewrite length_app; cbn [length]; lia).
    replace (kept ++ r :: keptByCleanup chain rules)
      with ((kept ++ [r]) ++ keptByCleanup chain rules) by (now rewrite <- app_assoc).
    apply IH. now rewrite <- app_assoc.
Qed.

Lemma cleanupReferences_scan (chain : string) (t : table) (rules listing : list string)
    (log : list string) :
  Contains ("-N " +:+ chain) kubePodFirewallChainPrefix = false ->
  chainRules t chain = Some rules ->
  ListRules t chain = inl listing ->
  chainRules (fst (cleanupReferences t chain listing 0 0 log)) chain
  = Some (keptByCleanup chain rules).
Proof.
  intros Hn Ht Hl. unfold ListRules in Hl. rewrite Ht in Hl. injection Hl as <-.
  cbn [cleanupReferences]. rewrite Hn.
  exact (cleanupReferences_shift chain rules [] t 0 log Ht).
Qed.

Lemma ClearChain_other (t t' : table) (chain c : string) :
  ClearChain t chain = inl t' -> c <> chain -> chainRules t' c = chainRules t c.
Proof.
  unfold ClearChain. intros H Hne.
  destruct (chainRules t chain); injection H as <-.
  - now apply chainRules_setChainRules_ne.
  - now apply chainRules_app_ne.
Qed.

Lemma ClearChain_names (t t' : table) (chain x : string) :
  ClearChain t chain = inl t' -> In x (ListChains t') -> In x (ListChains t) \/ x = chain.
Proof.
  unfold ClearChain. intros H Hx.
  destruct (chainRules t chain); injection H as <-.
  - rewrite ListChains_setChainRules in Hx. now left.
  - unfold ListChains in Hx. rewrite map_app in Hx. apply in_app_or in Hx as [Hx | [<- | []]];
      [now left | now right].
Qed.

Lemma DeleteChain_result (t t' : table) (chain : string) :
  DeleteChain t chain = inl t' ->
  t' = List.filter (fun entry => negb (String.eqb (fst entry) chain)) t.
Proof.
  unfold DeleteChain. intros H.
  destruct (chainRules t chain) as [[|r rs]|]; try discriminate.
  destruct (referenced t chain); [discriminate |]. now injection H as <-.
Qed.

Lemma removed_names (t : table) (chain x : string) :
  In x (ListChains (List.filter (fun entry => negb (String.eqb (fst entry) chain)) t)) ->
  In x (ListChains t) /\ x <> chain.
Proof.
  unfold ListChains. intros H. apply in_map_iff in H as ([n r] & <- & Hin).
  apply filter_In in Hin as [Hin Hn]. cbn [fst] in *. split.
  - apply in_map_iff. exists (n, r). auto.
  - apply negb_true_iff, String.eqb_neq in Hn. exact Hn.
Qed.

(** The flush-and-delete loop never touches a chain outside its prefix. *)
Lemma flushAndDelete_other (prefix c : string) (chains : list string) :
  HasPrefix c prefix = false ->
  forall t, chainRules (fst (flushAndDelete prefix t chains)) c = chainRules t c.
Proof.
  intros Hc. induction chains as [|chain chains IH]; intros t; [reflexivity |].
  cbn [flushAndDelete].
  destruct (HasPrefix chain prefix) eqn:Hp; [| apply IH].
  assert (Hne : c <> chain) by (intros ->; congruence).
  destruct (ClearChain t chain) as [t1|] eqn:E1; [| reflexivity].
  destruct (DeleteChain t1 chain) as [t2|] eqn:E2; cbn [fst].
  - rewrite IH. apply DeleteChain_result in E2. subst t2.
    rewrite chainRules_remove_ne by exact Hne. eapply ClearChain_other; eassumption.
  - eapply ClearChain_other; eassumption.
Qed.

(** When the loop runs to its end, every listed chain under the prefix is
    gone and no name has appeared. *)
Lemma flushAndDelete_done (prefix : string) (chains : list string) :
  forall t t', flushAndDelete prefix t chains = (t', None) ->
  forall x, In x (ListChains t') ->
            In x (ListChains t) /\ (HasPrefix x prefix = true -> ~ In x chains).
Proof.
  induction chains as [|chain chains IH]; intros t t' H x Hx.
  - injection H as <-. split; [exact Hx | intros _ []].
  - cbn [flushAndDelete] in H.
    destruct (HasPrefix chain prefix) eqn:Hp.
    + destruct (ClearChain t chain) as [t1|] eqn:E1; [| discriminate].
      destruct (DeleteChain t1 chain) as [t2|] eqn:E2; [| discriminate].
      destruct (IH _ _ H x Hx) as [Hin Hrest].
      apply DeleteChain_result in E2. subst t2.
      apply removed_names in Hin as [Hin Hne].
      destruct (ClearChain_names _ _ _ _ E1 Hin) as [Hin' | ->]; [| congruence].
      split; [exact Hin' |]. intros Hx' [-> | Hr]; [congruence | now apply Hrest].
    + destruct (IH _ _ H x Hx) as [Hin Hrest].
      split; [exact Hin |]. intros Hx' [-> | Hr]; [congruence | now apply Hrest].
Qed.

Lemma last_snoc (l : list string) (a d : string) : List.last (l ++ [a]) d = a.
Proof. induction l as [|x [|y l] IH]; try reflexivity. exact IH. Qed.

Ltac cleanup_failed :=
  let H := fresh in
  intros H; rewrite last_snoc in H; unfold cleanedUp in H;
  rewrite ?app_String in H; discriminate H.

(** What [Cleanup] leaves alone on any host, and what it has done when
    it runs to its end.  One call leaves every chain that is neither under
    the pod firewall or policy prefix nor one of KUBE-ROUTER-FORWARD and
    KUBE-ROUTER-OUTPUT exactly as it was (so the built-in chains keep their
    jumps and KUBE-ROUTER-INPUT its rules); it keeps KUBE-ROUTER-FORWARD and
    KUBE-ROUTER-OUTPUT, less the rules whose listing mentions the pod
    firewall prefix; it leaves every IP set outside the engine's prefixes
    in place; and when it runs to its end, no chain under the two prefixes
    and no IP set under the engine's prefixes is left, and no chain has
    appeared. *)
Lemma Cleanup_frame (h : host) :
  let h' := fst (Cleanup h) in
  (forall c : string,
      HasPrefix c kubePodFirewallChainPrefix = false ->
      HasPrefix c kubeNetworkPolicyChainPrefix = false ->
      c <> kubeForwardChainName -> c <> kubeOutputChainName ->
      chainRules (filterTable h') c = chainRules (filterTable h) c) /\
  (forall (c : string) (rules : list string),
      c = kubeForwardChainName \/ c = kubeOutputChainName ->
      is_Some (chainRules (filterTable h) kubeForwardChainName) ->
      chainRules (filterTable h) c = Some rules ->
      chainRules (filterTable h') c = Some (keptByCleanup c rules)) /\
  (forall entry : string * list string,
      In entry (ipsetTable h) ->
      HasPrefix (fst entry) kubeSourceIPSetPrefix = false ->
      HasPrefix (fst entry) kubeDestinationIPSetPrefix = false ->
      In entry (ipsetTable h')) /\
  (List.last (snd (Cleanup h)) "" = cleanedUp ->
   (forall c : string,
       In c (ListChains (filterTable h')) ->
       In c (ListChains (filterTable h)) /\
       HasPrefix c kubePodFirewallChainPrefix = false /\
       HasPrefix c kubeNetworkPolicyChainPrefix = false) /\
   ipsetTable h'
   = List.filter (fun entry => negb (HasPrefix (fst entry) kubeSourceIPSetPrefix
                                     || HasPrefix (fst entry) kubeDestinationIPSetPrefix))
                 (ipsetTable h)).
Proof.
  intros h'. subst h'. unfold Cleanup.
  set (log0 := ["Cleaning up iptables configuration permanently done by kube-router"]).
  destruct (ListRules (filterTable h) kubeForwardChainName) as [l1|e1] eqn:L1.
  2:{ cbn [fst snd]. split; [| split; [| split]]; [reflexivity | | auto | cleanup_failed].
      intros c rules _ [x Hx] _. unfold ListRules in L1. rewrite Hx in L1. discriminate L1. }
  pose proof (cleanupReferences_other kubeForwardChainName) as T1.
  pose proof (fun rules Hr =>
                cleanupReferences_scan kubeForwardChainName (filterTable h) rules l1 log0
                                       eq_refl Hr L1) as F1.
  pose proof (cleanupReferences_names kubeForwardChainName l1 (filterTable h) 0 0 log0) as N1.
  specialize (fun c Hc => T1 c l1 Hc (filterTable h) 0%Z 0%Z log0).
  destruct (cleanupReferences (filterTable h) kubeForwardChainName l1 0 0 log0)
    as [t1 log1]. cbn [fst] in T1, F1, N1.
  destruct (ListRules t1 kubeOutputChainName) as [l2|e2] eqn:L2.
  2:{ cbn [fst snd filterTable ipsetTable]. split; [| split; [| split]].
      - intros c _ _ Hf _. now apply T1.
      - intros c rules [-> | ->] _ Hr; [now apply F1 |].
        rewrite <- T1 in Hr by discriminate.
        unfold ListRules in L2. rewrite Hr in L2. discriminate L2.
      - auto.
      - cleanup_failed. }
  pose proof (cleanupReferences_other kubeOutputChainName) as T2.
  pose proof (fun rules Hr =>
                cleanupReferences_scan kubeOutputChainName t1 rules l2 log1 eq_refl Hr L2) as F2.
  pose proof (cleanupReferences_names kubeOutputChainName l2 t1 0 0 log1) as N2.
  specialize (fun c Hc => T2 c l2 Hc t1 0%Z 0%Z log1).
  destruct (cleanupReferences t1 kubeOutputChainName l2 0 0 log1) as [t2 log2].
  cbn [fst] in T2, F2, N2.
  pose proof (fun c Hc => flushAndDelete_other kubePodFirewallChainPrefix c (ListChains t2) Hc t2)
    as T3.
  pose proof (flushAndDelete_done kubePodFirewallChainPrefix (ListChains t2) t2) as D3.
  destruct (flushAndDelete kubePodFirewallChainPrefix t2 (ListChains t2)) as [t3 r3].
  cbn [fst] in T3.
  assert (K3 : forall c, HasPrefix c kubePodFirewallChainPrefix = false ->
                         c <> kubeForwardChainName -> c <> kubeOutputChainName ->
                         chainRules t3 c = chainRules (filterTable h) c).
  { intros c Hp Hf Ho. rewrite T3, T2, T1; auto. }
  assert (S3 : forall c rules,
             c = kubeForwardChainName \/ c = kubeOutputChainName ->
             chainRules (filterTable h) c = Some rules ->
             chainRules t3 c = Some (keptByCleanup c rules)).
  { intros c rules [-> | ->] Hr.
    - rewrite T3 by reflexivity. rewrite T2 by discriminate. now apply F1.
    - rewrite T3 by reflexivity. apply F2. rewrite T1 by discriminate. exact Hr. }
  destruct r3 as [err3|].
  { cbn [fst snd filterTable ipsetTable]. split; [| split; [| split]].
    - intros c Hp _ Hf Ho. now apply K3.
    - intros c rules Hc _ Hr. now apply S3.
    - auto.
    - cleanup_failed. }
  pose proof (fun c Hc => flushAndDelete_other kubeNetworkPolicyChainPrefix c (ListChains t3) Hc t3)
    as T4.
  pose proof (flushAndDelete_done kubeNetworkPolicyChainPrefix (ListChains t3) t3) as D4.
  destruct (flushAndDelete kubeNetworkPolicyChainPrefix t3 (ListChains t3)) as [t4 r4].
  cbn [fst] in T4.
  assert (K4 : forall c, HasPrefix c kubePodFirewallChainPrefix = false ->
                         HasPrefix c kubeNetworkPolicyChainPrefix = false ->
                         c <> kubeForwardChainName -> c <> kubeOutputChainName ->
                         chainRules t4 c = chainRules (filterTable h) c).
  { intros c Hp Hn Hf Ho. rewrite T4 by exact Hn. now apply K3. }
  assert (S4 : forall c rules,
             c = kubeForwardChainName \/ c = kubeOutputChainName ->
             is_Some (chainRules (filterTable h) kubeForwardChainName) ->
             chainRules (filterTable h) c = Some rules ->
             chainRules t4 c = Some (keptByCleanup c rules)).
  { intros c rules Hc _ Hr. rewrite T4 by (destruct Hc as [-> | ->]; reflexivity).
    now apply S3. }
  destruct r4 as [err4|]; cbn [fst snd filterTable ipsetTable].
  { split; [| split; [| split]]; [exact K4 | exact S4 | auto | cleanup_failed]. }
  split; [exact K4 |]. split; [exact S4 |]. split.
  - intros entry Hin Hs Hd. unfold DestroyAllWithin. apply filter_In.
    split; [exact Hin |]. now rewrite Hs, Hd.
  - intros _. split; [| reflexivity].
    intros c Hc.
    destruct (D4 t4 eq_refl c Hc) as [Hc3 Hn4].
    destruct (D3 t3 eq_refl c Hc3) as [Hc2 Hn3].
    split; [now rewrite <- N1, <- N2 |]. split.
    + destruct (HasPrefix c kubePodFirewallChainPrefix) eqn:E; [| reflexivity].
      exfalso. now apply Hn3.
    + destruct (HasPrefix c kubeNetworkPolicyChainPrefix) eqn:E; [| reflexivity].
      exfalso. now apply Hn4.
Qed.

End CleanupFacts.

Module CleanupRuns.

(** On the host a sync has left behind, the inbound top-level chain still
    jumps to pod chains when the deletion of the first pod chain is tried:
    it is refused and [Cleanup] stops there. *)
Example after_a_sync :
  snd (Cleanup sampleHost)
  = ["Cleaning up iptables configuration permanently done by kube-router";
     "Failed to cleanup iptables rules: iptables: Too many links."] /\
  ListChains (filterTable (fst (Cleanup sampleHost))) = ListChains (filterTable sampleHost) /\
  ipsetTable (fst (Cleanup sampleHost)) = ipsetTable sampleHost.
Proof. vm_compute. repeat split; reflexivity. Qed.

Example run_to_the_end :
  Cleanup tidyHost
  = ({| filterTable :=
          [("INPUT", ["-j KUBE-ROUTER-INPUT"]);
           ("FORWARD", ["-j KUBE-ROUTER-FORWARD"]);
           ("OUTPUT", ["-j KUBE-ROUTER-OUTPUT"]);
           ("DOCKER-USER", ["-j RETURN"]);
           ("KUBE-ROUTER-INPUT", ["-m mark --mark 0x20000/0x20000 -j ACCEPT"]);
           ("KUBE-ROUTER-FORWARD", ["-m mark --mark 0x20000/0x20000 -j ACCEPT"]);
           ("KUBE-ROUTER-OUTPUT", [])];
        ipsetTable := [("blocklist", ["198.51.100.7"])] |},
     ["Cleaning up iptables configuration permanently done by kube-router"; cleanedUp]).
Proof. vm_compute. reflexivity. Qed.

End CleanupRuns.

(** Also on a host where [Cleanup] does run to its end, the three
    top-level chains and the jumps to them in the built-in chains are still
    there afterwards: no step of [Cleanup] removes them. *)
Example top_level_chains_outlive_Cleanup :
  List.last (snd (Cleanup tidyHost)) "" = cleanedUp /\
  In kubeInputChainName (ListChains (filterTable (fst (Cleanup tidyHost)))) /\
  In kubeForwardChainName (ListChains (filterTable (fst (Cleanup tidyHost)))) /\
  In kubeOutputChainName (ListChains (filterTable (fst (Cleanup tidyHost)))) /\
  chainRules (filterTable (fst (Cleanup tidyHost))) "INPUT" = Some ["-j KUBE-ROUTER-INPUT"] /\
  chainRules (filterTable (fst (Cleanup tidyHost))) "FORWARD" = Some ["-j KUBE-ROUTER-FORWARD"] /\
  chainRules (filterTable (fst (Cleanup tidyHost))) "OUTPUT" = Some ["-j KUBE-ROUTER-OUTPUT"] /\
  fst (Cleanup tidyHost) <> pristineHost.
Proof.
  vm_compute. repeat split; auto 10; discriminate.
Qed.

Example Cleanup_frame_on_tidy_host :
  chainRules (filterTable (fst (Cleanup tidyHost))) "INPUT"
  = chainRules (filterTable tidyHost) "INPUT" /\
  chainRules (filterTable (fst (Cleanup tidyHost))) kubeForwardChainName
  = Some (keptByCleanup kubeForwardChainName
            ["-d 10.1.2.5 -j KUBE-POD-FW-BBBBBBBBBBBBBBBB";
             "-m mark --mark 0x20000/0x20000 -j ACCEPT";
             "-j KUBE-POD-FW-DEFAULT"]) /\
  In ("blocklist", ["198.51.100.7"]) (ipsetTable (fst (Cleanup tidyHost))) /\
  (forall c : string,
      In c (ListChains (filterTable (fst (Cleanup tidyHost)))) ->
      In c (ListChains (filterTable tidyHost)) /\
      GoStrings.HasPrefix c kubePodFirewallChainPrefix = false /\
      GoStrings.HasPrefix c kubeNetworkPolicyChainPrefix = false) /\
  ipsetTable (fst (Cleanup tidyHost))
  = List.filter (fun entry => negb (GoStrings.HasPrefix (fst entry) kubeSourceIPSetPrefix
                                    || GoStrings.HasPrefix (fst entry) kubeDestinationIPSetPrefix))
                (ipsetTable tidyHost).
Proof.
  pose proof (Cleanup_frame tidyHost) as (H1 & H2 & H3 & H4).
  split; [| split; [| split]].
  - apply H1; [reflexivity | reflexivity | discriminate | discriminate].
  - apply H2; [left; reflexivity | vm_compute; eauto | reflexivity].
  - apply H3; [vm_compute; auto | reflexivity | reflexivity].
  - apply H4. vm_compute. reflexivity.
Qed.

(** ** The guard after the peer evaluation *)

Section PeerEvaluation.

Lemma client_peer_matches :
  Matches {[ "app" := "client" ]} (labelSet (labels clientPodInfo)) = true.
Proof. vm_compute. reflexivity. Qed.

Lemma web_selector_misses_client :
  Matches (npPodSelector allowClient) (labelSet (labels clientPodInfo)) = false.
Proof. vm_compute. reflexivity. Qed.

(** Whatever the policy, the peer and the state of the host: a peer whose
    evaluation succeeds never has its set created or refreshed. *)
Lemma successful_evaluation_builds_nothing
    (evalPodPeer : NetworkPolicy -> NetworkPolicyPeer -> list Pod * option error)
    (namespaceLabels : string -> option (option (gmap string string)))
    (createError : string -> option error)
    (policy : NetworkPolicy) (pod : podInfo) (setName : string)
    (peer : NetworkPolicyPeer) (sets : IPSet) :
  snd (evalPodPeer policy peer) = None ->
  snd (syncPeer evalPodPeer namespaceLabels createError policy pod setName peer sets) = sets.
Proof.
  intros Hok. unfold syncPeer.
  destruct (evalPodPeer policy peer) as [peerPods err]. cbn [snd] in Hok. subst err.
  destruct (PodSelector peer), (NamespaceSelector peer), (IPBlock peer);
    repeat match goal with
           | |- context [match ?x with _ => _ end] => destruct x
           end; reflexivity.
Qed.

(** C1, the code as it runs. For the sample policy and the event
    of a pod its ingress peer selects: when the peer evaluation succeeds,
    [syncAffectedNetworkPolicyChains] returns nil at once and leaves the IP
    sets untouched; when the evaluation fails with an error, the function
    does not return it but creates the rule's set, refreshes it with the
    addresses it was given, and returns nil after the loop. *)
Theorem syncAffected_guard_is_inverted :
  (forall (peerPods : list Pod) (sets : IPSet),
      sampleSync (fun _ _ => (peerPods, None)) sets = (Return None, sets)) /\
  (forall (e : error) (peerPods : list Pod) (sets : IPSet),
      sampleSync (fun _ _ => (peerPods, Some e)) sets
      = (Return None,
         RefreshSet (CreateSet sets clientSetName) clientSetName (podIPs peerPods))).
Proof.
  split; intros; unfold sampleSync, syncAffectedNetworkPolicyChains, syncAffectedLoop,
    syncPolicy, syncTargets;
    change (npPodSelector allowClient) with ({[ "app" := "web" ]} : LabelSelector);
    pose proof web_selector_misses_client as Hw;
    change (npPodSelector allowClient) with ({[ "app" := "web" ]} : LabelSelector) in Hw;
    rewrite Hw, andb_false_r;
    change (Ingress allowClient) with [[clientPeer]];
    change (Egress allowClient) with (@nil (list NetworkPolicyPeer));
    cbn [syncRules syncPeers]; unfold syncPeer;
    change (PodSelector clientPeer) with (Some ({[ "app" := "client" ]} : LabelSelector));
    change (NamespaceSelector clientPeer) with (@None LabelSelector);
    change (IPBlock clientPeer) with (@None string);
    cbv iota; rewrite client_peer_matches; cbn [andb negb];
    unfold createAndRefresh; reflexivity.
Qed.

End PeerEvaluation.

Module PeerEvaluationExamples.

(** The successful evaluation of the sample peer never reaches the host. *)
Example success_builds_nothing :
  sampleSync (fun _ _ => ([clientPod], None)) [] = (Return None, []).
Proof. vm_compute. reflexivity. Qed.

(** A failed evaluation leaves an empty set behind and no error. *)
Example failure_is_swallowed :
  sampleSync (fun _ _ => ([], Some (errorString "namespace lister failed"))) []
  = (Return None, [(clientSetName, [])]).
Proof. vm_compute. reflexivity. Qed.

End PeerEvaluationExamples.

(** * Further properties of the embedded code *)

(** ** The constructor: what a success guarantees *)

Section ConstructorResults.
Import Ctor NodePort.

Variable Node : Type.
Variable NodeName : Node -> string.
Variable ParseCIDR : string -> result IPNet.
Variable GetPodCidrFromNodeSpec : string -> result string.
Variable GetNodeObject : string -> result Node.
Variable GetNodeIP : Node -> result IP.
Variable NewIPSetSaved : result IPSet.

Local Abbreviation New :=
  (NewNetworkPolicyController Node NodeName ParseCIDR GetPodCidrFromNodeSpec
                              GetNodeObject GetNodeIP NewIPSetSaved).
Local Abbreviation parseExternal := (parseExternalIPRanges ParseCIDR).

(** The loop over the external ranges registers nothing and does not look
    at the registry; on success it has parsed every range, in order. *)
Lemma parseExternal_spec (ranges : list string) :
  forall acc : list IPNet,
  exists r : result (list IPNet),
    (forall registry, parseExternal ranges acc registry = Some (r, registry)) /\
    (forall nets, r = inl nets ->
                  exists parsed, nets = acc ++ parsed /\
                                 Forall2 (fun s n => ParseCIDR s = inl n) ranges parsed) /\
    (forall e, r = inr e -> exists s e0, In s ranges /\ ParseCIDR s = inr e0) /\
    ((exists s e0, In s ranges /\ ParseCIDR s = inr e0) -> exists e, r = inr e).
Proof.
  induction ranges as [|s ranges IH]; intros acc.
  - exists (inl acc). cbn. repeat split.
    + intros nets [= <-]. exists []. now rewrite app_nil_r.
    + intros e [=].
    + intros (s & e0 & [] & _).
  - cbn [parseExternalIPRanges]. unfold mbind, ctor_bind, bind, call, fail, ret.
    destruct (ParseCIDR s) as [n|e0] eqn:E.
    + destruct (IH (acc ++ [n])) as (r & Hrun & Hok & Herr & Hbad).
      exists r. split; [exact Hrun |]. split; [| split].
      * intros nets Hn. destruct (Hok nets Hn) as (parsed & -> & Hall).
        exists (n :: parsed). rewrite <- app_assoc. split; [reflexivity |].
        constructor; assumption.
      * intros e He. destruct (Herr e He) as (s' & e' & Hin & Hs').
        exists s', e'. split; [now right | exact Hs'].
      * intros (s' & e' & [<- | Hin] & Hs'); [congruence |].
        apply Hbad. eauto.
    + eexists. split; [reflexivity |]. split; [| split].
      * intros nets [=].
      * intros e _. exists s, e0. split; [now left | exact E].
      * intros _. eexists; reflexivity.
Qed.

(** When a collector is registered, and when the registration panics. *)
Lemma MustRegister_fresh (collector : string) (registry : list string) :
  ~ In collector registry ->
  MustRegister collector registry = Some (inl tt, registry ++ [collector]).
Proof.
  intros H. unfold MustRegister.
  destruct (List.existsb (String.eqb collector) registry) eqn:E; [| reflexivity].
  apply existsb_exists in E as (c & Hin & Hc). apply String.eqb_eq in Hc. now subst c.
Qed.

Lemma MustRegister_again (collector : string) (registry : list string) :
  In collector registry -> MustRegister collector registry = None.
Proof.
  intros H. unfold MustRegister.
  destruct (List.existsb (String.eqb collector) registry) eqn:E; [reflexivity |].
  assert (List.existsb (String.eqb collector) registry = true); [| congruence].
  apply existsb_exists. exists collector. split; [exact H | apply String.eqb_refl].
Qed.

Lemma MustRegister_inv (collector : string) (registry registry' : list string) (r : result unit) :
  MustRegister collector registry = Some (r, registry') ->
  ~ In collector registry /\ r = inl tt /\ registry' = registry ++ [collector].
Proof.
  intros H. destruct (in_dec String.string_dec collector registry) as [Hin | Hin].
  - rewrite (MustRegister_again _ _ Hin) in H. discriminate H.
  - rewrite (MustRegister_fresh _ _ Hin) in H. injection H as <- <-. auto.
Qed.

(** Everything a successful construction went through. *)
Lemma construction_inv (config : KubeRouterConfig) (registry registry' : list string)
    (npc : NetworkPolicyController) :
  New config registry = Some (inl npc, registry') ->
  exists (w d1 d2 : string) (p1 p2 : Z) (nets : list IPNet),
    ParseCIDR (ClusterIPCIDR config) = inl (serviceClusterIPRange npc) /\
    (if RunRouter config
     then GetPodCidrFromNodeSpec (HostnameOverride config) = inl (nodePodIPCIDR npc)
     else nodePodIPCIDR npc = "") /\
    FindStringSubmatch (NodePortRange config) = Some [w; d1; d2] /\
    ParseInt d1 16 = inl p1 /\ ParseInt d2 16 = inl p2 /\ (p1 < p2)%Z /\
    serviceNodePortRange npc = formatInt p1 +:+ ":" +:+ formatInt p2 /\
    (forall reg, parseExternal (ExternalIPCIDRs config) [] reg = Some (inl nets, reg)) /\
    serviceExternalIPRanges npc = nets /\
    registry' = registry ++ (if cfgMetricsEnabled config
                             then ["ControllerIptablesSyncTime"; "ControllerPolicyChainsSyncTime"]
                             else []) /\
    MetricsEnabled npc = cfgMetricsEnabled config /\
    netpolAllowPreCheck npc = NetpolAllowPreCheck config /\
    syncPeriod npc = IPTablesSyncPeriod config /\
    (exists node, GetNodeObject (HostnameOverride config) = inl node).
Proof.
  unfold NewNetworkPolicyController, mbind, ctor_bind, bind, call, fail, ret, mret, ctor_ret.
  intros H.
  destruct (ParseCIDR (ClusterIPCIDR config)) as [ipnet|] eqn:E1; [| discriminate H].
  assert (Hcidr : exists cidr,
             (if RunRouter config
              then GetPodCidrFromNodeSpec (HostnameOverride config) = inl cidr
              else cidr = "") /\
             (if RunRouter config
              then match GetPodCidrFromNodeSpec (HostnameOverride config) with
                   | inl a => ret a
                   | inr e => fail (Errorf1 "Failed to get pod CIDR details from Node.spec: "
                                            (Error e))
                   end
              else ret "") registry = Some (inl cidr, registry)).
  { destruct (RunRouter config).
    - destruct (GetPodCidrFromNodeSpec (HostnameOverride config)) as [cidr|]; [| discriminate H].
      exists cidr. split; reflexivity.
    - exists "". split; reflexivity. }
  destruct Hcidr as (cidr & Hc & Hrun). unfold ret, fail in Hrun. rewrite Hrun in H. clear Hrun.
  destruct (MatchString (NodePortRange config)) eqn:EM; [| discriminate H]. cbn [negb] in H.
  unfold MatchString in EM.
  destruct (FindStringSubmatch (NodePortRange config)) as [ms|] eqn:EF; [| discriminate EM].
  destruct (FindStringSubmatch_inv _ _ EF) as (d1 & d2 & sep & -> & _).
  cbn [length Nat.eqb negb List.nth] in H.
  destruct (ParseInt d1 16) as [p1|] eqn:P1; [| discriminate H].
  destruct (ParseInt d2 16) as [p2|] eqn:P2; [| discriminate H].
  destruct (Z.leb_spec p2 p1) as [Hle|Hlt]; [discriminate H |].
  destruct (parseExternal_spec (ExternalIPCIDRs config) []) as (r & Hx & _).
  rewrite Hx in H. destruct r as [nets|]; [| discriminate H].
  exists (NodePortRange config), d1, d2, p1, p2, nets.
  destruct (cfgMetricsEnabled config) eqn:EMt.
  - destruct (MustRegister "ControllerIptablesSyncTime" registry) as [[r1 reg1]|] eqn:M1;
      [| discriminate H].
    apply MustRegister_inv in M1 as (_ & -> & ->).
    destruct (MustRegister "ControllerPolicyChainsSyncTime"
                           (registry ++ ["ControllerIptablesSyncTime"])) as [[r2 reg2]|] eqn:M2;
      [| discriminate H].
    apply MustRegister_inv in M2 as (_ & -> & ->).
    destruct (GetNodeObject (HostnameOverride config)) as [node|]; [| discriminate H].
    destruct (GetNodeIP node) as [ip|]; [| discriminate H].
    destruct NewIPSetSaved as [ipset|]; [| discriminate H].
    injection H as <- <-. cbn. rewrite <- app_assoc. split_and!; eauto.
  - destruct (GetNodeObject (HostnameOverride config)) as [node|]; [| discriminate H].
    destruct (GetNodeIP node) as [ip|]; [| discriminate H].
    destruct NewIPSetSaved as [ipset|]; [| discriminate H].
    injection H as <- <-. cbn. rewrite app_nil_r. split_and!; eauto.
Qed.

Lemma decimalFrom_nonneg (s : string) :
  forall acc : Z, (0 <= acc)%Z -> allDigits s = true -> (0 <= decimalFrom acc s)%Z.
Proof.
  induction s as [|c s IH]; intros acc Hacc Hd; [exact Hacc |].
  cbn [allDigits] in Hd. apply andb_prop in Hd as [Hc Hs].
  cbn [decimalFrom]. apply IH; [| exact Hs].
  unfold isDigit in Hc. apply andb_prop in Hc as [Hlo _].
  apply Nat.leb_le in Hlo. lia.
Qed.

(** X1. The node-port range a successful construction stores is the two
    numbers of the configured range in plain decimal with a colon between
    them, whatever the separator and the leading zeros given; the numbers
    satisfy 0 <= first < second <= 32767. *)
Theorem constructed_port_range (config : KubeRouterConfig) (registry registry' : list string)
    (npc : NetworkPolicyController) :
  New config registry = Some (inl npc, registry') ->
  exists (d1 d2 : string) (sep : ascii),
    NodePortRange config = d1 +:+ String sep d2 /\
    isSeparator sep = true /\
    (0 <= decimal d1 < decimal d2)%Z /\ (decimal d2 <= 32767)%Z /\
    serviceNodePortRange npc = formatInt (decimal d1) +:+ ":" +:+ formatInt (decimal d2).
Proof.
  intros H.
  destruct (construction_inv _ _ _ _ H)
    as (w & d1 & d2 & p1 & p2 & nets & _ & _ & HF & P1 & P2 & Hlt & Hr & _).
  destruct (FindStringSubmatch_inv _ _ HF)
    as (e1 & e2 & sep & Heq & Hs & Hsep & Hn1 & Hn2 & Hd1 & Hd2).
  injection Heq as _ <- <-.
  rewrite (ParseInt16_digits d1 Hn1 Hd1) in P1.
  rewrite (ParseInt16_digits d2 Hn2 Hd2) in P2.
  destruct (Z.leb_spec 32768 (decimal d1)); [discriminate P1 |]. injection P1 as <-.
  destruct (Z.leb_spec 32768 (decimal d2)); [discriminate P2 |]. injection P2 as <-.
  exists d1, d2, sep. repeat split; try assumption; try lia.
  apply decimalFrom_nonneg; [lia | exact Hd1].
Qed.

(** X2. The external IP ranges are parsed in order: one that does not
    parse makes the construction fail without anything being registered,
    and a successful construction holds the parsed form of every configured
    range, in the order given. *)
Theorem external_ranges_all_parsed (config : KubeRouterConfig) (registry : list string) :
  ((exists s e, In s (ExternalIPCIDRs config) /\ ParseCIDR s = inr e) ->
   exists err, New config registry = Some (inr err, registry)) /\
  (forall npc registry',
      New config registry = Some (inl npc, registry') ->
      Forall2 (fun s n => ParseCIDR s = inl n)
              (ExternalIPCIDRs config) (serviceExternalIPRanges npc)).
Proof.
  split.
  - intros Hbad.
    destruct (parseExternal_spec (ExternalIPCIDRs config) []) as (r & Hx & _ & _ & Hb).
    destruct (Hb Hbad) as [e ->].
    unfold NewNetworkPolicyController, mbind, ctor_bind, bind, call, fail, ret.
    destruct (ParseCIDR (ClusterIPCIDR config)); [| eexists; reflexivity].
    destruct (RunRouter config);
      [destruct (GetPodCidrFromNodeSpec (HostnameOverride config)); [| eexists; reflexivity] |];
      (destruct (negb (MatchString (NodePortRange config))); [eexists; reflexivity |];
       destruct (negb _); [eexists; reflexivity |];
       destruct (ParseInt _ 16); [| eexists; reflexivity];
       destruct (ParseInt _ 16); [| eexists; reflexivity];
       destruct (_ <=? _)%Z; [eexists; reflexivity |];
       rewrite Hx; eexists; reflexivity).
  - intros npc registry' H.
    destruct (construction_inv _ _ _ _ H)
      as (w & d1 & d2 & p1 & p2 & nets & _ & _ & _ & _ & _ & _ & _ & Hx & <- & _).
    destruct (parseExternal_spec (ExternalIPCIDRs config) []) as (r & Hrun & Hok & _).
    specialize (Hx []). rewrite Hrun in Hx. injection Hx as ->.
    destruct (Hok _ eq_refl) as (parsed & -> & Hall). exact Hall.
Qed.


End ConstructorResults.

Lemma constructed_port_range_witness :
  exists (d1 d2 : string) (sep : ascii),
    NodePortRange (LonelyCluster.config "node-1" "030000-32767" false) = d1 +:+ String sep d2 /\
    NodePort.isSeparator sep = true /\
    (0 <= NodePort.decimal d1 < NodePort.decimal d2)%Z /\ (NodePort.decimal d2 <= 32767)%Z /\
    serviceNodePortRange LonelyCluster.dashController
    = NodePort.formatInt (NodePort.decimal d1) +:+ ":" +:+ NodePort.formatInt (NodePort.decimal d2).
Proof.
  apply (constructed_port_range string (fun n => n) SampleCluster.ParseCIDR
           SampleCluster.GetPodCidrFromNodeSpec LonelyCluster.GetNodeObject
           SampleCluster.GetNodeIP SampleCluster.NewIPSetSaved
           (LonelyCluster.config "node-1" "030000-32767" false) []
           LonelyCluster.collectors LonelyCluster.dashController).
  vm_compute. reflexivity.
Defined.

Lemma external_ranges_all_parsed_witness :
  Forall2 (fun s n => SampleCluster.ParseCIDR s = inl n)
          (ExternalIPCIDRs (LonelyCluster.config "node-1" "030000-32767" false))
          (serviceExternalIPRanges LonelyCluster.dashController).
Proof.
  apply (proj2 (external_ranges_all_parsed string (fun n => n) SampleCluster.ParseCIDR
                  SampleCluster.GetPodCidrFromNodeSpec LonelyCluster.GetNodeObject
                  SampleCluster.GetNodeIP SampleCluster.NewIPSetSaved
                  (LonelyCluster.config "node-1" "030000-32767" false) [])
               LonelyCluster.dashController LonelyCluster.collectors).
  vm_compute. reflexivity.
Defined.


(** ** The pod handlers once the flag is up *)

Section Handlers.

Lemma DeepEqual_labels_spec (a b : option (gmap string string)) :
  DeepEqual_labels a b = true <-> a = b.
Proof.
  destruct a as [m|], b as [n|]; cbn; split; try congruence; try discriminate.
  - intros H. apply bool_decide_eq_true in H. now subst.
  - intros [= ->]. now apply bool_decide_eq_true.
Qed.

(** X4. Once the flag is up, an update of a pod requests a full sync exactly
    when the phase, the IP or the labels differ between the old and the new
    pod (a nil label map differing from an empty one); an update that
    changes none of the three only logs, whatever else changed. *)
Theorem UpdateFunc_filter (npc : NetworkPolicyController) (oldPod newPod : Pod) :
  readyForUpdates npc = true ->
  let line := "Received pod:" +:+ podNamespace newPod +:+ "/" +:+ podName newPod
                +:+ " update event" in
  (podPhase newPod = podPhase oldPod /\ podIP newPod = podIP oldPod /\
   podLabels newPod = podLabels oldPod ->
   UpdateFunc npc (PodObject oldPod) (PodObject newPod) = Some (npc, [line])) /\
  (~ (podPhase newPod = podPhase oldPod /\ podIP newPod = podIP oldPod /\
      podLabels newPod = podLabels oldPod) ->
   UpdateFunc npc (PodObject oldPod) (PodObject newPod)
   = Some (fst (RequestFullSync npc), line :: snd (RequestFullSync npc))).
Proof.
  intros Hr line. unfold UpdateFunc. rewrite Hr. cbn [negb].
  destruct (String.eqb_spec (podPhase newPod) (podPhase oldPod)) as [Hp|Hp];
    destruct (String.eqb_spec (podIP newPod) (podIP oldPod)) as [Hi|Hi];
    destruct (DeepEqual_labels (podLabels newPod) (podLabels oldPod)) eqn:Hl;
    cbn [negb orb];
    try (split; [intros (? & ? & ?); try contradiction;
                 try (apply DeepEqual_labels_spec in H1; congruence)
                | intros _; reflexivity]).
  apply DeepEqual_labels_spec in Hl.
  split; [intros _; reflexivity | intros Hn; exfalso; apply Hn; auto].
Qed.

(** X5. The delete handler returns for every object it is given, a
    tombstone included, since it asserts no type; the add and update
    handlers panic exactly when the flag is up and an argument is not a
    pod, the guard on the flag coming before the type assertion. *)
Theorem handlers_panic_exactly (npc : NetworkPolicyController) (obj oldObj newObj : Object) :
  is_Some (DeleteFunc npc obj) /\
  (AddFunc npc obj = None <-> readyForUpdates npc = true /\ obj = ForeignObject) /\
  (UpdateFunc npc oldObj newObj = None <->
   readyForUpdates npc = true /\ (oldObj = ForeignObject \/ newObj = ForeignObject)).
Proof.
  unfold DeleteFunc, AddFunc, UpdateFunc.
  destruct (readyForUpdates npc); cbn [negb].
  - split; [eauto |]. split.
    + destruct obj; split; try discriminate; auto. intros [_ [=]].
    + destruct newObj as [n|], oldObj as [o|]; split; try discriminate; auto.
      * destruct (_ || _); discriminate.
      * intros [_ [[=] | [=]]].
  - split; [eauto |]. split; split; try discriminate; intros [[=] _].
Qed.

End Handlers.

Lemma UpdateFunc_filter_witness :
  UpdateFunc readyController (PodObject samplePod) (PodObject relabelledPod)
  = Some (fst (RequestFullSync readyController),
          ("Received pod:" +:+ podNamespace relabelledPod +:+ "/" +:+ podName relabelledPod
             +:+ " update event") :: snd (RequestFullSync readyController)).
Proof.
  apply (UpdateFunc_filter readyController samplePod relabelledPod eq_refl).
  intros (_ & _ & H). vm_compute in H. discriminate H.
Defined.

(** ** The event loop: every sync answers a request *)

Section LoopAccounting.

(** What a request does to the channel. *)
Lemma RequestFullSync_account (npc : NetworkPolicyController) :
  cap (fullSyncRequestChan npc) = 1 ->
  queued (fullSyncRequestChan npc) <= 1 ->
  cap (fullSyncRequestChan (fst (RequestFullSync npc))) = 1 /\
  queued (fullSyncRequestChan (fst (RequestFullSync npc))) <= 1 /\
  queued (fullSyncRequestChan npc) <= queued (fullSyncRequestChan (fst (RequestFullSync npc))) /\
  queued (fullSyncRequestChan (fst (RequestFullSync npc))) <= S (queued (fullSyncRequestChan npc)).
Proof.
  intros Hc Hq. unfold RequestFullSync, try_send. rewrite Hc.
  destruct (Nat.ltb_spec (queued (fullSyncRequestChan npc)) 1); cbn; split_and!; lia.
Qed.

(** The same for whatever a pod handler does. *)
Lemma handler_account (npc : NetworkPolicyController) (e : effect) :
  (exists obj, AddFunc npc obj = Some e) \/
  (exists o n, UpdateFunc npc o n = Some e) \/
  (exists obj, DeleteFunc npc obj = Some e) ->
  cap (fullSyncRequestChan npc) = 1 ->
  queued (fullSyncRequestChan npc) <= 1 ->
  cap (fullSyncRequestChan (fst e)) = 1 /\
  queued (fullSyncRequestChan (fst e)) <= 1 /\
  queued (fullSyncRequestChan npc) <= queued (fullSyncRequestChan (fst e)) /\
  queued (fullSyncRequestChan (fst e)) <= S (queued (fullSyncRequestChan npc)).
Proof.
  intros H Hc Hq.
  pose proof (RequestFullSync_account npc Hc Hq) as (R1 & R2 & R3 & R4).
  unfold AddFunc, UpdateFunc, DeleteFunc, logged_then in H.
  destruct H as [[obj H] | [(o & n & H) | [obj H]]];
    destruct (readyForUpdates npc); cbn [negb] in H;
    try (injection H as <-; cbn [fst snd]; split_and!; first [assumption | lia]).
  - destruct obj; [| discriminate]. injection H as <-. cbn [fst snd].
    split_and!; first [assumption | lia].
  - destruct n, o; try discriminate.
    destruct (_ || _); injection H as <-; cbn [fst snd];
      split_and!; first [assumption | lia].
Qed.

(** One step keeps the invariant, and it raises the number of syncs
    started and requests queued, taken together, by one at most, and only
    when it is a tick or a pod callback. *)
Lemma step_keeps_invariant (s s' : system) (ev : event) :
  loop_invariant s -> step s ev = Some s' ->
  loop_invariant s' /\
  syncsStarted s' + queued (fullSyncRequestChan (controller s'))
  <= syncsStarted s + queued (fullSyncRequestChan (controller s))
     + (if may_request ev then 1 else 0).
Proof.
  unfold loop_invariant.
  intros (Hc & Hq & Hle & Hs & Hn) Hstep.
  destruct ev; cbn [step] in Hstep; cbn [may_request].
  - injection Hstep as <-. cbn [apply_effect controller goroutine syncsStarted syncsCompleted].
    pose proof (RequestFullSync_account (controller s) Hc Hq) as (R1 & R2 & R3 & R4).
    split_and!; first [lia | exact Hs | exact Hn].
  - destruct (goroutine s) eqn:G; try discriminate.
    unfold try_recv in Hstep.
    destruct (queued (fullSyncRequestChan (controller s))) as [|q] eqn:Q; [discriminate |].
    injection Hstep as <-.
    cbn [controller goroutine syncsStarted syncsCompleted set_fullSyncRequestChan
         fullSyncRequestChan cap queued].
    assert (syncsStarted s = syncsCompleted s) by (apply Hn; discriminate).
    split_and!; first [lia | discriminate | intros Hx; now contradiction Hx].
  - destruct (goroutine s) eqn:G; try discriminate.
    injection Hstep as <-. cbn [controller goroutine syncsStarted syncsCompleted].
    specialize (Hs eq_refl). split_and!; first [lia | discriminate | intros _; lia].
  - destruct (goroutine s) eqn:G; try discriminate.
    injection Hstep as <-.
    cbn [controller goroutine syncsStarted syncsCompleted set_readyForUpdates
         fullSyncRequestChan].
    assert (syncsStarted s = syncsCompleted s) by (apply Hn; discriminate).
    split_and!; first [lia | discriminate | intros _; lia].
  - destruct (AddFunc (controller s) obj) as [e|] eqn:E; [| discriminate].
    injection Hstep as <-. cbn [apply_effect controller goroutine syncsStarted syncsCompleted].
    destruct (handler_account (controller s) e) as (R1 & R2 & R3 & R4); eauto.
    split_and!; first [lia | exact Hs | exact Hn].
  - destruct (UpdateFunc (controller s) oldObj newObj) as [e|] eqn:E; [| discriminate].
    injection Hstep as <-. cbn [apply_effect controller goroutine syncsStarted syncsCompleted].
    destruct (handler_account (controller s) e) as (R1 & R2 & R3 & R4); eauto 6.
    split_and!; first [lia | exact Hs | exact Hn].
  - destruct (DeleteFunc (controller s) obj) as [e|] eqn:E; [| discriminate].
    injection Hstep as <-. cbn [apply_effect controller goroutine syncsStarted syncsCompleted].
    destruct (handler_account (controller s) e) as (R1 & R2 & R3 & R4); eauto 6.
    split_and!; first [lia | exact Hs | exact Hn].
Qed.

Lemma run_keeps_invariant (evs : list event) :
  forall s0 s1 : system,
    loop_invariant s0 -> run s0 evs = Some s1 ->
    loop_invariant s1 /\
    syncsStarted s1 + queued (fullSyncRequestChan (controller s1))
    <= syncsStarted s0 + queued (fullSyncRequestChan (controller s0)) + requestsMade evs.
Proof.
  induction evs as [|ev evs IH]; intros s0 s1 Hinv Hrun; cbn [run] in Hrun.
  - injection Hrun as <-. split; [exact Hinv |]. unfold requestsMade. cbn. lia.
  - destruct (step s0 ev) as [s'|] eqn:E; [| discriminate].
    destruct (step_keeps_invariant s0 s' ev Hinv E) as [Hinv' Hb].
    destruct (IH s' s1 Hinv' Hrun) as [Hinv1 Hb1].
    split; [exact Hinv1 |].
    unfold requestsMade in *. cbn [List.filter].
    destruct (may_request ev); cbn [length]; lia.
Qed.

(** X6. Along any interleaving of ticks, goroutine steps and pod callbacks
    from a controller with an empty channel of capacity one: the channel
    never holds more than one request; at most one full sync is in
    progress, and one is exactly when the goroutine is inside it; and no
    sync starts without a request, the syncs started and the request still
    queued being together no more than the ticks and pod callbacks so
    far. *)
Theorem event_loop_accounting (npc0 : NetworkPolicyController) (evs : list event) (s : system) :
  fullSyncRequestChan npc0 = make_chan 1 ->
  run (started npc0) evs = Some s ->
  cap (fullSyncRequestChan (controller s)) = 1 /\
  queued (fullSyncRequestChan (controller s)) <= 1 /\
  syncsCompleted s <= syncsStarted s /\
  (goroutine s = Syncing -> syncsStarted s = S (syncsCompleted s)) /\
  (goroutine s <> Syncing -> syncsStarted s = syncsCompleted s) /\
  syncsStarted s + queued (fullSyncRequestChan (controller s)) <= requestsMade evs.
Proof.
  intros H0 Hrun.
  destruct (run_keeps_invariant evs (started npc0) s) as [(I1 & I2 & I3 & I4 & I5) Hb];
    [| exact Hrun |].
  - unfold loop_invariant. cbn. rewrite H0. cbn.
    split_and!; first [lia | discriminate | reflexivity | intros _; reflexivity].
  - cbn [started syncsStarted controller] in Hb. rewrite H0 in Hb. cbn in Hb.
    split_and!; first [assumption | lia].
Qed.

End LoopAccounting.

Lemma event_loop_accounting_witness :
  cap (fullSyncRequestChan (controller sampleEarlyState)) = 1 /\
  queued (fullSyncRequestChan (controller sampleEarlyState)) <= 1 /\
  syncsCompleted sampleEarlyState <= syncsStarted sampleEarlyState /\
  (goroutine sampleEarlyState = Syncing ->
   syncsStarted sampleEarlyState = S (syncsCompleted sampleEarlyState)) /\
  (goroutine sampleEarlyState <> Syncing ->
   syncsStarted sampleEarlyState = syncsCompleted sampleEarlyState) /\
  syncsStarted sampleEarlyState + queued (fullSyncRequestChan (controller sampleEarlyState))
  <= requestsMade sampleEarlyTrace.
Proof.
  apply (event_loop_accounting sampleController sampleEarlyTrace sampleEarlyState).
  - reflexivity.
  - vm_compute. reflexivity.
Defined.

(** ** The garbage collector: the references it deletes *)

Section StaleReferences.
Import GoStrings.

Lemma HasPrefix_nil (s : string) : HasPrefix s "" = true.
Proof. reflexivity. Qed.

Lemma HasPrefix_cons (a b : ascii) (s p : string) :
  HasPrefix (String b s) (String a p) = if Ascii.eqb a b then HasPrefix s p else false.
Proof. reflexivity. Qed.

Lemma Contains_unfold (s sub : string) :
  Contains s sub
  = if HasPrefix s sub then true
    else match s with
         | EmptyString => false
         | String _ s' => Contains s' sub
         end.
Proof. destruct s; reflexivity. Qed.

Lemma HasPrefix_weaken (p t : string) :
  forall s, HasPrefix s (p +:+ t) = true -> HasPrefix s p = true.
Proof.
  induction p as [|a p IH]; intros s H; [reflexivity |].
  rewrite app_String in H. destruct s as [|b s]; [discriminate H |].
  rewrite HasPrefix_cons in *. destruct (Ascii.eqb a b); [now apply IH | discriminate H].
Qed.

Lemma Contains_weaken (p t : string) :
  forall s, Contains s (p +:+ t) = true -> Contains s p = true.
Proof.
  induction s as [|b s IH]; intros H; rewrite Contains_unfold in H; rewrite Contains_unfold.
  - destruct (HasPrefix "" (p +:+ t)) eqn:E; [| discriminate H].
    now rewrite (HasPrefix_weaken _ _ _ E).
  - destruct (HasPrefix (String b s) (p +:+ t)) eqn:E.
    + now rewrite (HasPrefix_weaken _ _ _ E).
    + rewrite (IH H). now destruct (HasPrefix (String b s) p).
Qed.

(** The [-N] line that heads the listing of a top-level chain mentions no
    pod firewall chain. *)
Lemma header_mentions_no_pod_chain (chain podFwChain : string) :
  In chain primaryChains ->
  HasPrefix podFwChain kubePodFirewallChainPrefix = true ->
  Contains ("-N " +:+ chain) podFwChain = false.
Proof.
  intros Hc Hp. apply HasPrefix_inv in Hp as [tok ->].
  destruct (Contains ("-N " +:+ chain) (kubePodFirewallChainPrefix +:+ tok)) eqn:E;
    [| reflexivity].
  apply Contains_weaken in E.
  destruct Hc as [<- | [<- | [<- | []]]]; vm_compute in E; discriminate E.
Qed.

Lemma firstn_skipn_middle (kept : list string) (r : string) (rules : list string) :
  List.firstn (length kept) (kept ++ r :: rules)
  ++ List.skipn (S (length kept)) (kept ++ r :: rules) = kept ++ rules.
Proof.
  induction kept as [|x kept IHk]; [reflexivity |].
  cbn [length app List.firstn List.skipn]. now rewrite IHk.
Qed.

Lemma keptByCollector_one_cons (chain podFwChain r : string) (rules : list string) :
  keptByCollector chain [podFwChain] (r :: rules)
  = if Contains ("-A " +:+ chain +:+ " " +:+ r) podFwChain
    then keptByCollector chain [podFwChain] rules
    else r :: keptByCollector chain [podFwChain] rules.
Proof.
  unfold keptByCollector. cbn [List.filter List.existsb]. rewrite orb_false_r.
  now destruct (Contains _ podFwChain).
Qed.

(** The scan deletes by number while the numbers shift, and no deletion is
    refused: with [kept] the rules passed over and [k] deletions done, the
    rule looked at is number [length kept + 1] of the chain as it stands. *)
Lemma deleteReferences_shift (chain podFwChain : string) (rules : list string) :
  forall (kept : list string) (t : table) (k : Z),
    chainRules t chain = Some (kept ++ rules) ->
    exists t',
      deleteReferences t chain podFwChain
        (List.map (fun r => "-A " +:+ chain +:+ " " +:+ r) rules)
        (Z.of_nat (length kept) + 1 + k) k = inl t' /\
      chainRules t' chain = Some (kept ++ keptByCollector chain [podFwChain] rules) /\
      ListChains t' = ListChains t /\
      (forall c, c <> chain -> chainRules t' c = chainRules t c).
Proof.
  induction rules as [|r rules IH]; intros kept t k Ht.
  - exists t. cbn. now rewrite Ht.
  - cbn [List.map deleteReferences]. rewrite keptByCollector_one_cons.
    destruct (Contains ("-A " +:+ chain +:+ " " +:+ r) podFwChain) eqn:E.
    + replace (Z.of_nat (length kept) + 1 + k - k)%Z with (Z.of_nat (length kept) + 1)%Z by lia.
      destruct (DeleteRule t chain (Z.of_nat (length kept) + 1)) as [t1|e] eqn:D.
      2:{ exfalso. unfold DeleteRule in D. rewrite Ht in D.
          rewrite length_app in D. cbn [length] in D.
          destruct (Z.leb_spec 1 (Z.of_nat (length kept) + 1)); [| lia].
          destruct (Z.leb_spec (Z.of_nat (length kept) + 1)
                               (Z.of_nat (length kept + S (length rules)))); [| lia].
          discriminate D. }
      assert (H1 : chainRules t1 chain = Some (kept ++ rules)).
      { unfold DeleteRule in D. rewrite Ht in D.
        destruct (_ && _); [| discriminate D]. injection D as <-.
        replace (Z.to_nat (Z.of_nat (length kept) + 1 - 1)) with (length kept) by lia.
        rewrite firstn_skipn_middle.
        apply chainRules_setChainRules_eq. rewrite Ht. eauto. }
      replace (Z.of_nat (length kept) + 1 + k + 1)%Z
        with (Z.of_nat (length kept) + 1 + (k + 1))%Z by lia.
      destruct (IH kept t1 (k + 1)%Z H1) as (t' & R & Hk & Hn & Ho).
      exists t'. split_and!; [exact R | exact Hk | |].
      * rewrite Hn. eapply DeleteRule_names; exact D.
      * intros c Hc. rewrite Ho by exact Hc. eapply DeleteRule_other; eassumption.
    + replace (Z.of_nat (length kept) + 1 + k + 1)%Z
        with (Z.of_nat (length (kept ++ [r])) + 1 + k)%Z
        by (rewrite length_app; cbn [length]; lia).
      replace (kept ++ r :: keptByCollector chain [podFwChain] rules)
        with ((kept ++ [r]) ++ keptByCollector chain [podFwChain] rules)
        by (now rewrite <- app_assoc).
      apply IH. now rewrite <- app_assoc.
Qed.

(** One top-level chain scanned from its listing. *)
Lemma deleteReferences_scan (chain podFwChain : string) (t : table) (rules : list string) :
  In chain primaryChains ->
  HasPrefix podFwChain kubePodFirewallChainPrefix = true ->
  chainRules t chain = Some rules ->
  exists listing t',
    ListRules t chain = inl listing /\
    deleteReferences t chain podFwChain listing 0 0 = inl t' /\
    chainRules t' chain = Some (keptByCollector chain [podFwChain] rules) /\
    ListChains t' = ListChains t /\
    (forall c, c <> chain -> chainRules t' c = chainRules t c).
Proof.
  intros Hc Hp Ht. unfold ListRules. rewrite Ht.
  destruct (deleteReferences_shift chain podFwChain rules [] t 0 Ht) as (t' & R & H).
  eexists. exists t'. split; [reflexivity |]. split; [| exact H].
  cbn [deleteReferences]. rewrite (header_mentions_no_pod_chain _ _ Hc Hp). exact R.
Qed.

Lemma deleteFromPrimaryChains_effect (podFwChain : string) (chains : list string) :
  HasPrefix podFwChain kubePodFirewallChainPrefix = true ->
  List.NoDup chains ->
  (forall c, In c chains -> In c primaryChains) ->
  forall t : table,
    (forall c, In c chains -> is_Some (chainRules t c)) ->
    exists t',
      deleteFromPrimaryChains t podFwChain chains = inl t' /\
      ListChains t' = ListChains t /\
      (forall c, ~ In c chains -> chainRules t' c = chainRules t c) /\
      (forall c rules, In c chains -> chainRules t c = Some rules ->
                       chainRules t' c = Some (keptByCollector c [podFwChain] rules)).
Proof.
  intros Hp Hnd Hsub. induction chains as [|chain rest IH]; intros t Hex.
  - exists t. cbn. split_and!; auto. intros c rules [].
  - apply List.NoDup_cons_iff in Hnd as [Hnot Hnd].
    destruct (Hex chain (or_introl eq_refl)) as [rules0 Hr0].
    destruct (deleteReferences_scan chain podFwChain t rules0
                (Hsub chain (or_introl eq_refl)) Hp Hr0)
      as (listing & t1 & L & D & K1 & N1 & O1).
    cbn [deleteFromPrimaryChains]. rewrite L. unfold mbind, result_bind. rewrite D.
    destruct (IH Hnd (fun c Hc => Hsub c (or_intror Hc)) t1) as (t' & R & N & O & K).
    { intros c Hc. rewrite O1; [apply Hex; now right |]. intros ->. contradiction. }
    exists t'. split_and!; [exact R | now rewrite N | |].
    + intros c Hc. rewrite O by (intros Hin; apply Hc; now right).
      apply O1. intros ->. apply Hc. now left.
    + intros c rules [<- | Hc] Hr.
      * rewrite O by exact Hnot. rewrite Hr in Hr0. injection Hr0 as <-. exact K1.
      * apply K; [exact Hc |]. rewrite O1; [exact Hr |]. intros ->. contradiction.
Qed.

Lemma keptByCollector_step (chain r : string) (names rules : list string) :
  keptByCollector chain names (r :: rules)
  = if List.existsb (Contains ("-A " +:+ chain +:+ " " +:+ r)) names
    then keptByCollector chain names rules
    else r :: keptByCollector chain names rules.
Proof.
  unfold keptByCollector. cbn [List.filter].
  now destruct (List.existsb _ names).
Qed.

Lemma keptByCollector_cons (chain podFwChain : string) (rest rules : list string) :
  keptByCollector chain rest (keptByCollector chain [podFwChain] rules)
  = keptByCollector chain (podFwChain :: rest) rules.
Proof.
  induction rules as [|r rules IH]; [reflexivity |].
  rewrite keptByCollector_one_cons, (keptByCollector_step chain r (podFwChain :: rest)).
  cbn [List.existsb].
  destruct (Contains ("-A " +:+ chain +:+ " " +:+ r) podFwChain); cbn [orb].
  - exact IH.
  - rewrite keptByCollector_step, IH. reflexivity.
Qed.

Lemma keptByCollector_nil (chain : string) (rules : list string) :
  keptByCollector chain [] rules = rules.
Proof.
  induction rules as [|r rules IH]; [reflexivity |].
  rewrite keptByCollector_step. cbn [List.existsb]. now rewrite IH.
Qed.

Lemma primaryChains_NoDup : List.NoDup primaryChains.
Proof.
  unfold primaryChains. repeat constructor; cbn [In]; intros H;
    repeat (destruct H as [H | H]; [discriminate H |]); exact H.
Qed.

(** X7. The first stage of the garbage collector, given stale names
    under the pod firewall prefix (as the classification yields them) on a
    host that has the three top-level chains: no deletion is refused; each
    top-level chain keeps, in order, exactly the rules whose listing line
    mentions none of the stale names; every other chain keeps its rules;
    and no chain appears or disappears. *)
Theorem removeStaleReferences_effect (cleanupPodFwChains : list string) (t : table) :
  Forall (fun c => HasPrefix c kubePodFirewallChainPrefix = true) cleanupPodFwChains ->
  (forall c, In c primaryChains -> is_Some (chainRules t c)) ->
  exists t',
    removeStaleReferences t cleanupPodFwChains = inl t' /\
    ListChains t' = ListChains t /\
    (forall c, ~ In c primaryChains -> chainRules t' c = chainRules t c) /\
    (forall c rules, In c primaryChains -> chainRules t c = Some rules ->
                     chainRules t' c = Some (keptByCollector c cleanupPodFwChains rules)).
Proof.
  intros Hall. revert t.
  induction Hall as [|podFwChain rest Hp Hall IH]; intros t Hex.
  - exists t. cbn [removeStaleReferences]. split_and!; auto.
    intros c rules _ Hr. now rewrite keptByCollector_nil.
  - destruct (deleteFromPrimaryChains_effect podFwChain primaryChains Hp primaryChains_NoDup
                (fun c Hc => Hc) t Hex) as (t1 & R1 & N1 & O1 & K1).
    cbn [removeStaleReferences]. fold primaryChains. rewrite R1. unfold mbind, result_bind.
    destruct (IH t1) as (t' & R & N & O & K).
    { intros c Hc. destruct (Hex c Hc) as [rules Hr]. rewrite (K1 c rules Hc Hr). eauto. }
    exists t'. split_and!; [exact R | now rewrite N | |].
    + intros c Hc. now rewrite O, O1.
    + intros c rules Hc Hr. rewrite (K c _ Hc (K1 c rules Hc Hr)).
      now rewrite keptByCollector_cons.
Qed.

End StaleReferences.

Lemma removeStaleReferences_effect_witness :
  exists t',
    removeStaleReferences (filterTable sampleHost) sampleStalePodFwChains = inl t' /\
    ListChains t' = ListChains (filterTable sampleHost) /\
    (forall c, ~ In c primaryChains ->
               chainRules t' c = chainRules (filterTable sampleHost) c) /\
    (forall c rules, In c primaryChains ->
                     chainRules (filterTable sampleHost) c = Some rules ->
                     chainRules t' c = Some (keptByCollector c sampleStalePodFwChains rules)).
Proof.
  apply (removeStaleReferences_effect sampleStalePodFwChains (filterTable sampleHost)).
  - vm_compute. repeat constructor.
  - intros c [<- | [<- | [<- | []]]]; vm_compute; eauto.
Defined.

(** ** The composer and the garbage collector together *)

Section SyncedPodsSurvive.
Import GoStrings.

Lemma isActive_withDefaultPodFwChain (active : gmap string bool) (c : string) :
  isActive (withDefaultPodFwChain active) c = true <->
  c = KubeDefaultPodFWChain \/ isActive active c = true.
Proof.
  unfold isActive, withDefaultPodFwChain. rewrite !bool_decide_eq_true.
  destruct (decide (KubeDefaultPodFWChain = c)) as [<- | Hne].
  - rewrite lookup_insert_eq. split; [now left | eauto].
  - rewrite lookup_insert_ne by exact Hne. split; [now right |].
    intros [-> | H]; [contradiction | exact H].
Qed.

Lemma isActive_empty (c : string) : isActive ∅ c = false.
Proof. unfold isActive. apply bool_decide_eq_false. rewrite lookup_empty. now intros [x Hx]. Qed.

(** X8. The active map [fullSyncPodFirewallChains] returns, handed to the
    classification loop of [cleanupStaleRules]: a chain of the table is
    put on the pod clean-up list exactly when its name has the pod
    firewall prefix, is not the default pod chain, and is not the chain the
    sync has just named for one of the local pods; so no local pod's chain
    is ever on either clean-up list. *)
Theorem synced_pod_chains_survive_collection
    (buf : string) (pods : list podInfo) (policies : list networkPolicyInfo)
    (version : string) (chains : list string) (activePolicyChains : gmap string bool) :
  let activePodFwChains := snd (fullSyncPodFirewallChains buf pods policies version ∅) in
  let cleanup := staleChains chains (withDefaultPolicyChains activePolicyChains)
                             (withDefaultPodFwChain activePodFwChains) in
  (forall c, In c (snd cleanup) <->
             In c chains /\
             HasPrefix c kubePodFirewallChainPrefix = true /\
             c <> KubeDefaultPodFWChain /\
             forall pod, In pod pods ->
                         c <> podFirewallChainName (namespace pod) (name pod) version) /\
  (forall pod, In pod pods ->
               ~ In (podFirewallChainName (namespace pod) (name pod) version) (fst cleanup) /\
               ~ In (podFirewallChainName (namespace pod) (name pod) version) (snd cleanup)).
Proof.
  intros activePodFwChains cleanup. subst cleanup.
  rewrite staleChains_filter. cbn [fst snd].
  assert (Hact : forall c, isActive (withDefaultPodFwChain activePodFwChains) c = true <->
                           c = KubeDefaultPodFWChain \/
                           exists pod, In pod pods /\
                                       c = podFirewallChainName (namespace pod) (name pod) version).
  { intros c. rewrite isActive_withDefaultPodFwChain. subst activePodFwChains.
    rewrite fullSyncPodFirewallChains_active, isActive_empty.
    split; [intros [H | [H | H]]; [now left | discriminate H | now right]
           | intros [H | H]; [now left | right; now right]]. }
  assert (Hiff : forall c, In c (List.filter (stalePodFwChain (withDefaultPodFwChain activePodFwChains))
                                             chains) <->
                           In c chains /\
                           HasPrefix c kubePodFirewallChainPrefix = true /\
                           c <> KubeDefaultPodFWChain /\
                           forall pod, In pod pods ->
                                       c <> podFirewallChainName (namespace pod) (name pod) version).
  { intros c. rewrite filter_In. unfold stalePodFwChain.
    rewrite andb_true_iff, negb_true_iff.
    split.
    - intros (Hc & Hp & Hn). split_and!; [exact Hc | exact Hp | |].
      + intros ->. assert (H : isActive (withDefaultPodFwChain activePodFwChains)
                                        KubeDefaultPodFWChain = true)
          by (apply Hact; now left).
        congruence.
      + intros pod Hpod ->.
        assert (H : isActive (withDefaultPodFwChain activePodFwChains)
                             (podFirewallChainName (namespace pod) (name pod) version) = true)
          by (apply Hact; right; eauto).
        congruence.
    - intros (Hc & Hp & Hd & Hpods). split_and!; [exact Hc | exact Hp |].
      destruct (isActive (withDefaultPodFwChain activePodFwChains) c) eqn:E; [| reflexivity].
      apply Hact in E as [-> | (pod & Hpod & ->)]; [contradiction |].
      exfalso. exact (Hpods pod Hpod eq_refl). }
  split; [exact Hiff |].
  intros pod Hpod. split.
  - intros Hin. apply filter_In in Hin as [_ Hs]. unfold stalePolicyChain in Hs.
    apply andb_true_iff in Hs as [Hs _].
    apply HasPrefix_inv in Hs as [tok Ht].
    unfold podFirewallChainName, kubePodFirewallChainPrefix, kubeNetworkPolicyChainPrefix in Ht.
    rewrite !app_String in Ht. discriminate Ht.
  - intros Hin. apply Hiff in Hin as (_ & _ & _ & Hne). exact (Hne pod Hpod eq_refl).
Qed.

End SyncedPodsSurvive.

Lemma synced_pod_chains_survive_collection_witness :
  let chain := podFirewallChainName (namespace samplePodInfo) (name samplePodInfo) sampleVersion in
  let cleanup :=
    staleChains (ListChains (filterTable sampleHost) ++ [chain])
                (withDefaultPolicyChains ∅)
                (withDefaultPodFwChain
                   (snd (fullSyncPodFirewallChains "" [samplePodInfo] [samplePolicy]
                                                   sampleVersion ∅))) in
  ~ In chain (fst cleanup) /\ ~ In chain (snd cleanup).
Proof.
  exact (proj2 (synced_pod_chains_survive_collection
                  "" [samplePodInfo] [samplePolicy] sampleVersion
                  (ListChains (filterTable sampleHost)
                     ++ [podFirewallChainName (namespace samplePodInfo) (name samplePodInfo)
                                              sampleVersion]) ∅)
               samplePodInfo (or_introl eq_refl)).
Defined.


(** ** [ensureTopLevelChains]: the identifier written into a rule *)

Section RuleIdentifier.
Import GoStrings.

Lemma annotateComment_skips (ruleSpec before parts : list string) (encoded : string) :
  ~ In "--comment" before ->
  forall idx,
    annotateComment ruleSpec encoded idx (before ++ parts)
    = annotateComment ruleSpec encoded (idx + length before) parts.
Proof.
  induction before as [|b before IH]; intros Hno idx.
  - cbn [app length]. now rewrite Nat.add_0_r.
  - cbn [app annotateComment length].
    destruct (String.eqb_spec "--comment" b) as [<- | _]; [exfalso; apply Hno; now left |].
    rewrite IH by (intros H; apply Hno; now right).
    f_equal. lia.
Qed.

(** X9. [addUUIDForRuleSpec] never fails on its slice of the encoded
    hash, and what it does is decided by the first ["--comment"] of the
    rule: with none, the rule is left as it is and an error is returned;
    with a part after it, that part and no other gets [" - "] and the
    identifier appended, the identifier being the first 16 characters of
    the encoded hash of the chain name and the parts of the rule as they
    were; with ["--comment"] as the last part, the call panics. *)
Theorem addUUIDForRuleSpec_cases (chain : string) :
  (forall ruleSpec : list string,
      ~ In "--comment" ruleSpec ->
      addUUIDForRuleSpec chain ruleSpec
      = Some (ruleSpec,
              inr (errorString ("could not find a comment in the ruleSpec string given: "
                                  +:+ Join ruleSpec " ")))) /\
  (forall (before after : list string) (comment : string),
      ~ In "--comment" before ->
      let ruleSpec := before ++ "--comment" :: comment :: after in
      let uuid := substring 0 16 (encodedHash (chain +:+ Join ruleSpec "")) in
      String.length uuid = 16 /\
      addUUIDForRuleSpec chain ruleSpec
      = Some (before ++ "--comment" :: (comment +:+ " - " +:+ uuid) :: after, inl uuid)) /\
  (forall before : list string,
      ~ In "--comment" before ->
      addUUIDForRuleSpec chain (before ++ ["--comment"]) = None).
Proof.
  split_and!.
  - intros ruleSpec Hno. unfold addUUIDForRuleSpec.
    rewrite podFirewallChainName_slice. cbn [mbind option_bind].
    pose proof (annotateComment_skips ruleSpec ruleSpec []
                  (substring 0 16 (encodedHash (chain +:+ Join ruleSpec ""))) Hno 0) as H.
    rewrite app_nil_r in H. rewrite H. reflexivity.
  - intros before after comment Hno ruleSpec uuid.
    split; [apply token_length |].
    unfold addUUIDForRuleSpec. rewrite podFirewallChainName_slice. cbn [mbind option_bind].
    fold uuid. unfold ruleSpec at 2. rewrite annotateComment_skips by exact Hno.
    cbn [annotateComment]. rewrite String.eqb_refl.
    unfold ruleSpec.
    replace (0 + length before + 1)%nat with (length before + 1)%nat by lia.
    rewrite lookup_app_r by lia.
    replace (length before + 1 - length before)%nat with 1%nat by lia.
    cbn [lookup list_lookup mbind option_bind].
    rewrite insert_app_r_alt by lia.
    replace (length before + 1 - length before)%nat with 1%nat by lia.
    reflexivity.
  - intros before Hno. unfold addUUIDForRuleSpec.
    rewrite podFirewallChainName_slice. cbn [mbind option_bind].
    rewrite annotateComment_skips by exact Hno.
    cbn [annotateComment]. rewrite String.eqb_refl.
    rewrite lookup_ge_None_2; [reflexivity |].
    rewrite length_app. cbn [length]. lia.
Qed.

End RuleIdentifier.

Lemma addUUIDForRuleSpec_cases_witness :
  addUUIDForRuleSpec "INPUT" ["-j"; "KUBE-ROUTER-INPUT"]
  = Some (["-j"; "KUBE-ROUTER-INPUT"],
          inr (errorString ("could not find a comment in the ruleSpec string given: "
                              +:+ "-j KUBE-ROUTER-INPUT"))) /\
  (let uuid := substring 0 16 (encodedHash ("INPUT" +:+ GoStrings.Join
                                              (jumpToCustomChain "KUBE-ROUTER-INPUT") "")) in
   String.length uuid = 16 /\
   addUUIDForRuleSpec "INPUT" (jumpToCustomChain "KUBE-ROUTER-INPUT")
   = Some (["-m"; "comment"; "--comment"; "kube-router netpol - " +:+ uuid;
            "-j"; "KUBE-ROUTER-INPUT"], inl uuid)) /\
  addUUIDForRuleSpec "INPUT" ["-m"; "comment"; "--comment"] = None.
Proof.
  destruct (addUUIDForRuleSpec_cases "INPUT") as (H1 & H2 & H3).
  split_and!.
  - apply (H1 ["-j"; "KUBE-ROUTER-INPUT"]).
    intros [H | [H | []]]; discriminate H.
  - apply (H2 ["-m"; "comment"] ["-j"; "KUBE-ROUTER-INPUT"] "kube-router netpol").
    intros [H | [H | []]]; discriminate H.
  - apply (H3 ["-m"; "comment"]).
    intros [H | [H | []]]; discriminate H.
Defined.

(** ** [ensureTopLevelChains]: a rule kept at its position *)

Section RulePosition.
Import GoStrings.

(** The scan with its two counters: past lines that are headers or do not
    mention the identifier, the first hit gets the number it has among the
    lines that are no headers. *)
Lemma findRuleNo_counts (uuid : string) (before : list string) :
  Forall (fun l => isListingHeader l = true \/ mentionsUUID uuid l = false) before ->
  forall (rest : list string) (i off : Z),
    findRuleNo uuid (before ++ rest) i off
    = findRuleNo uuid rest (i + Z.of_nat (length before))
        (off + Z.of_nat (length (List.filter isListingHeader before))).
Proof.
  induction 1 as [|l before Hl _ IH]; intros rest i off.
  - cbn [app length List.filter]. now rewrite !Z.add_0_r.
  - cbn [app findRuleNo length List.filter].
    fold (isListingHeader l). fold (mentionsUUID uuid l).
    destruct (isListingHeader l) eqn:Eh.
    + rewrite IH. cbn [length]. f_equal; lia.
    + destruct Hl as [Hl | Hl]; [discriminate Hl |]. rewrite Hl, IH. f_equal; lia.
Qed.

Lemma length_filter_split (f : string -> bool) (l : list string) :
  length (List.filter f l) + length (List.filter (fun x => negb (f x)) l) = length l.
Proof.
  induction l as [|x l IH]; [reflexivity |].
  cbn [List.filter]. destruct (f x); cbn [negb length]; lia.
Qed.

Lemma findRuleNo_hit (uuid : string) (before after : list string) (hit : string) :
  Forall (fun l => isListingHeader l = true \/ mentionsUUID uuid l = false) before ->
  isListingHeader hit = false ->
  mentionsUUID uuid hit = true ->
  findRuleNo uuid (before ++ hit :: after) 0 0
  = (Z.of_nat (length (List.filter (fun l => negb (isListingHeader l)) before)) + 1)%Z.
Proof.
  intros Hall Hh Hm.
  rewrite findRuleNo_counts by exact Hall.
  cbn [findRuleNo]. fold (isListingHeader hit). fold (mentionsUUID uuid hit).
  rewrite Hh, Hm.
  pose proof (length_filter_split isListingHeader before). lia.
Qed.

(** X10. The rule number [ensureRuleAtPosition] computes from a listing:
    zero when every line is a header ([-P] or [-N]) or does not mention the
    identifier; otherwise the place the first hit has among the lines that
    are no headers, counted from one, which is the number iptables knows
    the rule by. *)
Theorem findRuleNo_is_rule_number (uuid : string) :
  (forall rules : list string,
      Forall (fun l => isListingHeader l = true \/ mentionsUUID uuid l = false) rules ->
      findRuleNo uuid rules 0 0 = 0%Z) /\
  (forall (before after : list string) (hit : string),
      Forall (fun l => isListingHeader l = true \/ mentionsUUID uuid l = false) before ->
      isListingHeader hit = false ->
      mentionsUUID uuid hit = true ->
      findRuleNo uuid (before ++ hit :: after) 0 0
      = (Z.of_nat (length (List.filter (fun l => negb (isListingHeader l)) before)) + 1)%Z).
Proof.
  split.
  - intros rules Hall.
    rewrite <- (app_nil_r rules). now rewrite findRuleNo_counts.
  - intros before after hit. apply findRuleNo_hit.
Qed.

End RulePosition.

Lemma findRuleNo_is_rule_number_witness :
  findRuleNo "ABCDEFGHIJKLMNOP" (List.firstn 3 sampleListing) 0 0 = 0%Z /\
  findRuleNo "ABCDEFGHIJKLMNOP" sampleListing 0 0 = 2%Z.
Proof.
  destruct (findRuleNo_is_rule_number "ABCDEFGHIJKLMNOP") as [H1 H2].
  split.
  - apply H1. cbn [List.firstn sampleListing]. repeat (apply List.Forall_cons; [vm_compute; auto |]). apply List.Forall_nil.
  - apply (H2 (List.firstn 3 sampleListing) [] (List.last sampleListing "")).
    + cbn [List.firstn sampleListing]. repeat (apply List.Forall_cons; [vm_compute; auto |]). apply List.Forall_nil.
    + vm_compute. reflexivity.
    + vm_compute. reflexivity.
Defined.
(** ** [ensureTopLevelChains]: what [ensureRuleAtPosition] does to a chain *)

Section RulePlacement.
Import GoStrings.

Variable ruleText : list string -> string.

Lemma listing_line_is_no_header (chain r : string) :
  isListingHeader ("-A " +:+ chain +:+ " " +:+ r) = false.
Proof. reflexivity. Qed.

Lemma listing_head_is_header (chain : string) : isListingHeader ("-N " +:+ chain) = true.
Proof. reflexivity. Qed.

Lemma filter_no_header_lines (chain : string) (rules : list string) :
  List.filter (fun l => negb (isListingHeader l))
              (List.map (fun r => "-A " +:+ chain +:+ " " +:+ r) rules)
  = List.map (fun r => "-A " +:+ chain +:+ " " +:+ r) rules.
Proof.
  induction rules as [|r rules IH]; [reflexivity |].
  cbn [List.map List.filter]. rewrite listing_line_is_no_header. cbn [negb]. now rewrite IH.
Qed.

(** The rule number found in the listing of a chain whose first rule to
    mention the identifier comes after [before]. *)
Lemma findRuleNo_listing (t : table) (chain uuid hit : string) (before after : list string) :
  chainRules t chain = Some (before ++ hit :: after) ->
  (forall r, In r before -> mentionsUUID uuid ("-A " +:+ chain +:+ " " +:+ r) = false) ->
  mentionsUUID uuid ("-A " +:+ chain +:+ " " +:+ hit) = true ->
  exists listing,
    ListRules t chain = inl listing /\
    findRuleNo uuid listing 0 0 = (Z.of_nat (length before) + 1)%Z.
Proof.
  intros Ht Hb Hh. unfold ListRules. rewrite Ht. eexists. split; [reflexivity |].
  rewrite map_app. cbn [List.map].
  pose proof (findRuleNo_hit uuid
                (("-N " +:+ chain) :: List.map (fun r => "-A " +:+ chain +:+ " " +:+ r) before)
                (List.map (fun r => "-A " +:+ chain +:+ " " +:+ r) after)
                ("-A " +:+ chain +:+ " " +:+ hit)) as H.
  cbn [app] in H. rewrite H; clear H.
  - cbn [List.filter]. rewrite listing_head_is_header. cbn [negb].
    rewrite filter_no_header_lines, length_map. reflexivity.
  - apply List.Forall_cons; [left; apply listing_head_is_header |].
    apply Forall_forall. intros l Hl.
    apply list_elem_of_In, in_map_iff in Hl as (r & <- & Hr). right. now apply Hb.
  - apply listing_line_is_no_header.
  - exact Hh.
Qed.

Lemma chainRules_set_twice (t : table) (chain : string) (r1 r2 : list string) :
  is_Some (chainRules t chain) ->
  chainRules (setChainRules (setChainRules t chain r1) chain r2) chain = Some r2.
Proof.
  intros Hs. apply chainRules_setChainRules_eq.
  rewrite chainRules_setChainRules_eq by exact Hs. eauto.
Qed.

Lemma Exists_present (t : table) (chain : string) (ruleSpec : list string)
    (rules : list string) :
  chainRules t chain = Some rules ->
  IPTables.Exists ruleText t chain ruleSpec = true <-> In (ruleText ruleSpec) rules.
Proof.
  intros Ht. unfold IPTables.Exists. rewrite Ht. rewrite existsb_exists. split.
  - intros (x & Hx & He). apply String.eqb_eq in He. now subst x.
  - intros Hin. exists (ruleText ruleSpec). split; [exact Hin | apply String.eqb_refl].
Qed.

Lemma Insert_effect (t : table) (chain : string) (ruleSpec : list string)
    (front back : list string) :
  chainRules t chain = Some (front ++ back) ->
  IPTables.Insert ruleText t chain (Z.of_nat (length front) + 1) ruleSpec
  = inl (setChainRules t chain (front ++ ruleText ruleSpec :: back)).
Proof.
  intros Ht. unfold IPTables.Insert. rewrite Ht.
  rewrite length_app.
  destruct (Z.leb_spec 1 (Z.of_nat (length front) + 1)); [| lia].
  destruct (Z.leb_spec (Z.of_nat (length front) + 1)
                       (Z.of_nat (length front + length back) + 1)); [| lia].
  cbn [andb].
  replace (Z.to_nat (Z.of_nat (length front) + 1 - 1)) with (length front) by lia.
  now rewrite take_app_length, drop_app_length.
Qed.

(** X11. [ensureRuleAtPosition] on a chain of the host, for a position
    within the chain.  A rule the chain does not have is inserted at the
    position.  A rule the chain has at the position or after it, being the
    first whose listing mentions the identifier, ends up at the position,
    once, the other rules keeping their order.  In both cases every other
    chain is left alone and no chain appears or disappears. *)
Theorem ensureRuleAtPosition_effect (t : table) (chain : string)
    (ruleSpec : list string) (uuid : string) :
  (forall front back : list string,
      chainRules t chain = Some (front ++ back) ->
      ~ In (ruleText ruleSpec) (front ++ back) ->
      exists t',
        ensureRuleAtPosition ruleText t chain ruleSpec uuid (Z.of_nat (length front) + 1)
        = inl t' /\
        chainRules t' chain = Some (front ++ ruleText ruleSpec :: back) /\
        ListChains t' = ListChains t /\
        (forall c, c <> chain -> chainRules t' c = chainRules t c)) /\
  (forall front mid back : list string,
      chainRules t chain = Some (front ++ mid ++ ruleText ruleSpec :: back) ->
      (forall r, In r (front ++ mid) ->
                 mentionsUUID uuid ("-A " +:+ chain +:+ " " +:+ r) = false) ->
      mentionsUUID uuid ("-A " +:+ chain +:+ " " +:+ ruleText ruleSpec) = true ->
      exists t',
        ensureRuleAtPosition ruleText t chain ruleSpec uuid (Z.of_nat (length front) + 1)
        = inl t' /\
        chainRules t' chain = Some (front ++ ruleText ruleSpec :: mid ++ back) /\
        ListChains t' = ListChains t /\
        (forall c, c <> chain -> chainRules t' c = chainRules t c)).
Proof.
  split.
  - intros front back Ht Hno. unfold ensureRuleAtPosition.
    destruct (IPTables.Exists ruleText t chain ruleSpec) eqn:E.
    { apply (Exists_present t chain ruleSpec _ Ht) in E. contradiction. }
    cbn [negb]. rewrite (Insert_effect t chain ruleSpec front back Ht).
    eexists. split; [reflexivity |]. split_and!.
    + apply chainRules_setChainRules_eq. rewrite Ht. eauto.
    + apply ListChains_setChainRules.
    + intros c Hc. now apply chainRules_setChainRules_ne.
  - intros front mid back Ht Hno Hhit. unfold ensureRuleAtPosition.
    assert (E : IPTables.Exists ruleText t chain ruleSpec = true).
    { apply (Exists_present t chain ruleSpec _ Ht).
      apply in_or_app. right. apply in_or_app. right. now left. }
    rewrite E. cbn [negb].
    destruct (findRuleNo_listing t chain uuid (ruleText ruleSpec) (front ++ mid) back)
      as (listing & L & N).
    { now rewrite <- app_assoc. }
    { exact Hno. }
    { exact Hhit. }
    rewrite L, N. rewrite length_app.
    destruct mid as [|m mid].
    + cbn [length app] in *. rewrite Nat.add_0_r, Z.eqb_refl. cbn [negb].
      exists t. split_and!; auto.
    + destruct (Z.eqb_spec (Z.of_nat (length front + length (m :: mid)) + 1)
                           (Z.of_nat (length front) + 1)) as [Heq | _];
        [cbn [length] in Heq; lia |].
      cbn [negb].
      rewrite (Insert_effect t chain ruleSpec front ((m :: mid) ++ ruleText ruleSpec :: back) Ht).
      set (t1 := setChainRules t chain _).
      assert (H1 : chainRules t1 chain
                   = Some ((front ++ ruleText ruleSpec :: m :: mid)
                             ++ ruleText ruleSpec :: back)).
      { unfold t1. rewrite chainRules_setChainRules_eq by (rewrite Ht; eauto).
        f_equal. now rewrite <- app_assoc. }
      unfold DeleteRule. rewrite H1.
      assert (Hlen : length (front ++ ruleText ruleSpec :: m :: mid)
                     = S (length front + length (m :: mid))).
      { rewrite length_app. cbn [length]. lia. }
      rewrite (length_app (front ++ ruleText ruleSpec :: m :: mid)). cbn [length] in *.
      rewrite Hlen.
      destruct (Z.leb_spec 1 (Z.of_nat (length front + S (length mid)) + 1 + 1)); [| lia].
      destruct (Z.leb_spec (Z.of_nat (length front + S (length mid)) + 1 + 1)
                           (Z.of_nat (S (length front + S (length mid)) + S (length back))));
        [| lia].
      cbn [andb].
      replace (Z.to_nat (Z.of_nat (length front + S (length mid)) + 1 + 1 - 1))
        with (length (front ++ ruleText ruleSpec :: m :: mid)) by lia.
      rewrite firstn_skipn_middle.
      eexists. split; [reflexivity |]. split_and!.
      * unfold t1. rewrite chainRules_set_twice by (rewrite Ht; eauto).
        now rewrite <- app_assoc.
      * unfold t1. now rewrite !ListChains_setChainRules.
      * intros c Hc. unfold t1. now rewrite !chainRules_setChainRules_ne.
Qed.

(** X12. [ensureRuleAtPosition] for a rule found before its position.
    Found one place early, the chain is left as it is and the rule stays
    one place early.  Found earlier than that, the rule is inserted at the
    position and the deletion, by the number of the hit plus one, removes
    the rule that followed the hit: the rule is then in the chain twice and
    its neighbour is gone. *)
Theorem ensureRuleAtPosition_found_early (t : table) (chain : string)
    (ruleSpec : list string) (uuid : string) :
  (forall front back : list string,
      chainRules t chain = Some (front ++ ruleText ruleSpec :: back) ->
      (forall r, In r front -> mentionsUUID uuid ("-A " +:+ chain +:+ " " +:+ r) = false) ->
      mentionsUUID uuid ("-A " +:+ chain +:+ " " +:+ ruleText ruleSpec) = true ->
      exists t',
        ensureRuleAtPosition ruleText t chain ruleSpec uuid (Z.of_nat (length front) + 2)
        = inl t' /\
        chainRules t' chain = Some (front ++ ruleText ruleSpec :: back)) /\
  (forall (front mid back : list string) (next : string),
      chainRules t chain = Some (front ++ ruleText ruleSpec :: next :: mid ++ back) ->
      (forall r, In r front -> mentionsUUID uuid ("-A " +:+ chain +:+ " " +:+ r) = false) ->
      mentionsUUID uuid ("-A " +:+ chain +:+ " " +:+ ruleText ruleSpec) = true ->
      exists t',
        ensureRuleAtPosition ruleText t chain ruleSpec uuid
                             (Z.of_nat (length front + length mid) + 3)
        = inl t' /\
        chainRules t' chain
        = Some (front ++ ruleText ruleSpec :: mid ++ ruleText ruleSpec :: back)).
Proof.
  split.
  - intros front back Ht Hno Hhit. unfold ensureRuleAtPosition.
    assert (E : IPTables.Exists ruleText t chain ruleSpec = true).
    { apply (Exists_present t chain ruleSpec _ Ht). apply in_or_app. right. now left. }
    rewrite E. cbn [negb].
    destruct (findRuleNo_listing t chain uuid (ruleText ruleSpec) front back Ht Hno Hhit)
      as (listing & L & N).
    rewrite L, N.
    destruct (Z.eqb_spec (Z.of_nat (length front) + 1) (Z.of_nat (length front) + 2));
      [lia |].
    cbn [negb].
    assert (Ht' : chainRules t chain = Some ((front ++ [ruleText ruleSpec]) ++ back))
      by (now rewrite <- app_assoc).
    pose proof (Insert_effect t chain ruleSpec _ _ Ht') as I.
    rewrite length_app in I. cbn [length] in I.
    replace (Z.of_nat (length front + 1) + 1)%Z with (Z.of_nat (length front) + 2)%Z in I
      by lia.
    rewrite I. set (t1 := setChainRules t chain _).
    assert (H1 : chainRules t1 chain
                 = Some ((front ++ [ruleText ruleSpec]) ++ ruleText ruleSpec :: back)).
    { unfold t1. now rewrite chainRules_setChainRules_eq by (rewrite Ht; eauto). }
    unfold DeleteRule. rewrite H1.
    rewrite !length_app. cbn [length].
    destruct (Z.leb_spec 1 (Z.of_nat (length front) + 1 + 1)); [| lia].
    destruct (Z.leb_spec (Z.of_nat (length front) + 1 + 1)
                         (Z.of_nat (length front + 1 + S (length back)))); [| lia].
    cbn [andb].
    replace (Z.to_nat (Z.of_nat (length front) + 1 + 1 - 1))
      with (length (front ++ [ruleText ruleSpec])) by (rewrite length_app; cbn [length]; lia).
    rewrite firstn_skipn_middle.
    eexists. split; [reflexivity |].
    unfold t1. rewrite chainRules_set_twice by (rewrite Ht; eauto).
    now rewrite <- app_assoc.
  - intros front mid back next Ht Hno Hhit. unfold ensureRuleAtPosition.
    assert (E : IPTables.Exists ruleText t chain ruleSpec = true).
    { apply (Exists_present t chain ruleSpec _ Ht). apply in_or_app. right. now left. }
    rewrite E. cbn [negb].
    destruct (findRuleNo_listing t chain uuid (ruleText ruleSpec) front
                                 (next :: mid ++ back) Ht Hno Hhit)
      as (listing & L & N).
    rewrite L, N.
    destruct (Z.eqb_spec (Z.of_nat (length front) + 1)
                         (Z.of_nat (length front + length mid) + 3)); [lia |].
    cbn [negb].
    assert (Ht' : chainRules t chain
                  = Some ((front ++ ruleText ruleSpec :: next :: mid) ++ back)).
    { rewrite Ht. f_equal. rewrite <- app_assoc. reflexivity. }
    pose proof (Insert_effect t chain ruleSpec _ _ Ht') as I.
    rewrite length_app in I. cbn [length] in I.
    replace (Z.of_nat (length front + S (S (length mid))) + 1)%Z
      with (Z.of_nat (length front + length mid) + 3)%Z in I by lia.
    rewrite I. set (t1 := setChainRules t chain _).
    assert (H1 : chainRules t1 chain
                 = Some ((front ++ [ruleText ruleSpec])
                           ++ next :: mid ++ ruleText ruleSpec :: back)).
    { unfold t1. rewrite chainRules_setChainRules_eq by (rewrite Ht; eauto).
      f_equal. rewrite <- !app_assoc. reflexivity. }
    unfold DeleteRule. rewrite H1.
    rewrite !length_app. cbn [length]. rewrite length_app. cbn [length].
    destruct (Z.leb_spec 1 (Z.of_nat (length front) + 1 + 1)); [| lia].
    destruct (Z.leb_spec (Z.of_nat (length front) + 1 + 1)
                         (Z.of_nat (length front + 1
                                    + S (length mid + S (length back))))); [| lia].
    cbn [andb].
    replace (Z.to_nat (Z.of_nat (length front) + 1 + 1 - 1))
      with (length (front ++ [ruleText ruleSpec])) by (rewrite length_app; cbn [length]; lia).
    rewrite firstn_skipn_middle.
    eexists. split; [reflexivity |].
    unfold t1. rewrite chainRules_set_twice by (rewrite Ht; eauto).
    now rewrite <- app_assoc.
Qed.

End RulePlacement.

Lemma ensureRuleAtPosition_effect_witness :
  (exists t',
      ensureRuleAtPosition plainText sampleInputTable "INPUT" sampleWhitelist
                           "ABCDEFGHIJKLMNOP" 1 = inl t' /\
      chainRules t' "INPUT" = Some [plainText sampleWhitelist; "-j KUBE-ROUTER-INPUT"] /\
      ListChains t' = ListChains sampleInputTable /\
      (forall c, c <> "INPUT" -> chainRules t' c = chainRules sampleInputTable c)) /\
  (exists t',
      ensureRuleAtPosition plainText sampleInputTable "KUBE-ROUTER-INPUT" sampleWhitelist
                           "ABCDEFGHIJKLMNOP" 2 = inl t' /\
      chainRules t' "KUBE-ROUTER-INPUT"
      = Some ["-s 10.1.2.5 -j KUBE-POD-FW-BBBBBBBBBBBBBBBB";
              plainText sampleWhitelist;
              "-j KUBE-POD-FW-DEFAULT"] /\
      ListChains t' = ListChains sampleInputTable /\
      (forall c, c <> "KUBE-ROUTER-INPUT" ->
                 chainRules t' c = chainRules sampleInputTable c)).
Proof.
  split.
  - apply (proj1 (ensureRuleAtPosition_effect plainText sampleInputTable "INPUT"
                    sampleWhitelist "ABCDEFGHIJKLMNOP")
                 [] ["-j KUBE-ROUTER-INPUT"]).
    + reflexivity.
    + intros [H | []]. vm_compute in H. discriminate H.
  - apply (proj2 (ensureRuleAtPosition_effect plainText sampleInputTable "KUBE-ROUTER-INPUT"
                    sampleWhitelist "ABCDEFGHIJKLMNOP")
                 ["-s 10.1.2.5 -j KUBE-POD-FW-BBBBBBBBBBBBBBBB"]
                 ["-j KUBE-POD-FW-DEFAULT"] []).
    + reflexivity.
    + intros r [<- | [<- | []]]; vm_compute; reflexivity.
    + vm_compute. reflexivity.
Defined.

Lemma ensureRuleAtPosition_found_early_witness :
  (exists t',
      ensureRuleAtPosition plainText
        [("KUBE-ROUTER-INPUT", [plainText sampleWhitelist; "-j KUBE-POD-FW-DEFAULT"])]
        "KUBE-ROUTER-INPUT" sampleWhitelist "ABCDEFGHIJKLMNOP" 2 = inl t' /\
      chainRules t' "KUBE-ROUTER-INPUT"
      = Some [plainText sampleWhitelist; "-j KUBE-POD-FW-DEFAULT"]) /\
  (exists t',
      ensureRuleAtPosition plainText
        [("KUBE-ROUTER-INPUT",
          [plainText sampleWhitelist; "-p tcp -j RETURN"; "-j KUBE-POD-FW-DEFAULT"])]
        "KUBE-ROUTER-INPUT" sampleWhitelist "ABCDEFGHIJKLMNOP" 3 = inl t' /\
      chainRules t' "KUBE-ROUTER-INPUT"
      = Some [plainText sampleWhitelist; plainText sampleWhitelist;
              "-j KUBE-POD-FW-DEFAULT"]).
Proof.
  split.
  - apply (proj1 (ensureRuleAtPosition_found_early plainText _ "KUBE-ROUTER-INPUT"
                    sampleWhitelist "ABCDEFGHIJKLMNOP")
                 [] ["-j KUBE-POD-FW-DEFAULT"]).
    + reflexivity.
    + intros r [].
    + vm_compute. reflexivity.
  - apply (proj2 (ensureRuleAtPosition_found_early plainText _ "KUBE-ROUTER-INPUT"
                    sampleWhitelist "ABCDEFGHIJKLMNOP")
                 [] [] ["-j KUBE-POD-FW-DEFAULT"] "-p tcp -j RETURN").
    + reflexivity.
    + intros r [].
    + vm_compute. reflexivity.
Defined.

(** ** The local pods *)

Section LocalPods.

Lemma length_zero_iff_empty (s : string) : (String.length s =? 0)%nat = String.eqb s "".
Proof. destruct s; reflexivity. Qed.

Lemma find_snoc (f : Pod -> bool) (l : list Pod) (pod : Pod) :
  List.find f (l ++ [pod])
  = match List.find f l with
    | Some p => Some p
    | None => if f pod then Some pod else None
    end.
Proof.
  induction l as [|q l IHl]; [reflexivity |].
  cbn [app List.find]. destruct (f q); [reflexivity | exact IHl].
Qed.

Lemma getLocalPodsLoop_lookup (nodeIP : string) (pods : list Pod) :
  forall localPods : gmap string podInfo,
  exists m,
    getLocalPodsLoop (List.map PodObject pods) nodeIP localPods = Some m /\
    forall addr,
      m !! addr
      = match List.find (fun p => tracked nodeIP p && String.eqb (podIP p) addr)
                        (List.rev pods) with
        | Some p => Some (asPodInfo p)
        | None => localPods !! addr
        end.
Proof.
  induction pods as [|pod pods IH]; intros localPods.
  - exists localPods. split; reflexivity.
  - cbn [List.map getLocalPodsLoop List.rev].
    pose proof (fun addr =>
                  find_snoc (fun p => tracked nodeIP p && String.eqb (podIP p) addr)
                            (List.rev pods) pod) as Hfind.
    cbv beta in Hfind.
    rewrite length_zero_iff_empty, orb_diag.
    unfold tracked in *.
    destruct (isLocalPod pod nodeIP) eqn:E1; cbn [negb andb].
    2:{ destruct (IH localPods) as (m & R & L). exists m. split; [exact R |].
        intros addr. rewrite L, Hfind.
        now destruct (List.find _ (List.rev pods)). }
    destruct (podHostNetwork pod) eqn:E2; cbn [negb andb].
    { destruct (IH localPods) as (m & R & L). exists m. split; [exact R |].
      intros addr. rewrite L, Hfind.
      now destruct (List.find _ (List.rev pods)). }
    destruct (String.eqb (podIP pod) "") eqn:E3; cbn [negb andb].
    { destruct (IH localPods) as (m & R & L). exists m. split; [exact R |].
      intros addr. rewrite L, Hfind.
      now destruct (List.find _ (List.rev pods)). }
    destruct (IH (<[podIP pod := asPodInfo pod]> localPods)) as (m & R & L).
    exists m. split; [exact R |].
    intros addr. rewrite L, Hfind.
    destruct (List.find _ (List.rev pods)); [reflexivity |].
    destruct (String.eqb_spec (podIP pod) addr) as [<- | Hne].
    + now rewrite lookup_insert_eq.
    + now rewrite lookup_insert_ne.
Qed.

(** X13. [getLocalPods] panics exactly when the lister holds an object
    that is no pod.  On a list of pods it returns a map in which an address
    is bound exactly when some listed pod has it, runs on this node, is not
    in the host network and has a non-empty address; the entry is that of
    the last such pod listed, so two pods of the node under one address
    leave one entry; and the empty address is never bound. *)
Theorem getLocalPods_spec (nodeIP : string) :
  (forall objs : list Object,
      getLocalPods objs nodeIP = None <-> In ForeignObject objs) /\
  (forall pods : list Pod,
      exists localPods,
        getLocalPods (List.map PodObject pods) nodeIP = Some localPods /\
        localPods !! "" = None /\
        forall addr,
          localPods !! addr
          = asPodInfo <$> List.find (fun p => tracked nodeIP p && String.eqb (podIP p) addr)
                                    (List.rev pods)).
Proof.
  split.
  - intros objs. unfold getLocalPods. generalize (∅ : gmap string podInfo).
    induction objs as [|obj objs IH]; intros acc.
    + cbn. split; [discriminate | intros []].
    + destruct obj as [pod|].
      * cbn [getLocalPodsLoop].
        assert (Hin : In ForeignObject (PodObject pod :: objs) <-> In ForeignObject objs).
        { cbn [In]. split; [intros [H | H]; [discriminate H | exact H] | now right]. }
        rewrite Hin.
        repeat match goal with
               | |- context [if ?b then _ else _] => destruct b
               end; apply IH.
      * cbn. split; [now left | reflexivity].
  - intros pods. unfold getLocalPods.
    destruct (getLocalPodsLoop_lookup nodeIP pods ∅) as (m & R & L).
    exists m. split; [exact R |].
    assert (Hall : forall addr,
               m !! addr
               = asPodInfo <$> List.find (fun p => tracked nodeIP p && String.eqb (podIP p) addr)
                                         (List.rev pods)).
    { intros addr. rewrite L. destruct (List.find _ (List.rev pods)); [reflexivity |].
      apply lookup_empty. }
    split; [| exact Hall].
    rewrite Hall.
    destruct (List.find _ (List.rev pods)) as [p|] eqn:F; [| reflexivity].
    apply find_some in F as [_ F]. unfold tracked in F.
    apply andb_true_iff in F as [F1 F2]. apply andb_true_iff in F1 as [_ F1].
    rewrite F2 in F1. discriminate F1.
Qed.

End LocalPods.

Lemma getLocalPods_spec_witness :
  (getLocalPods [PodObject samplePod; ForeignObject] "192.168.0.10" = None <->
   In ForeignObject [PodObject samplePod; ForeignObject]) /\
  exists localPods,
    getLocalPods (List.map PodObject listedPods) "192.168.0.10" = Some localPods /\
    localPods !! "" = None /\
    forall addr,
      localPods !! addr
      = asPodInfo <$> List.find (fun p => tracked "192.168.0.10" p && String.eqb (podIP p) addr)
                                (List.rev listedPods).
Proof.
  split.
  - apply (proj1 (getLocalPods_spec "192.168.0.10")).
  - apply (proj2 (getLocalPods_spec "192.168.0.10") listedPods).
Defined.

Example two_pods_one_address :
  exists localPods,
    getLocalPods (List.map PodObject listedPods) "192.168.0.10" = Some localPods /\
    localPods !! "10.1.2.5" = Some (asPodInfo samplePod) /\
    localPods !! "10.1.5.7" = None.
Proof.
  destruct (getLocalPodsLoop_lookup "192.168.0.10" listedPods ∅) as (m & R & L).
  exists m. split; [exact R |]. split; rewrite L; reflexivity.
Qed.

(** ** [syncAffectedNetworkPolicyChains]: what it returns and what it leaves *)

Section SyncAffectedFacts.

Variable listPodsByNamespaceAndLabels : string -> LabelSelector -> result (list Pod).
Variable evalPodPeer : NetworkPolicy -> NetworkPolicyPeer -> list Pod * option error.
Variable namespaceLabels : string -> option (option (gmap string string)).
Variable createError : string -> option error.

Local Abbreviation syncPeer' := (syncPeer evalPodPeer namespaceLabels createError).
Local Abbreviation syncPeers' := (syncPeers evalPodPeer namespaceLabels createError).
Local Abbreviation syncRules' := (syncRules evalPodPeer namespaceLabels createError).
Local Abbreviation syncTargets' := (syncTargets listPodsByNamespaceAndLabels createError).
Local Abbreviation syncPolicy' :=
  (syncPolicy listPodsByNamespaceAndLabels evalPodPeer namespaceLabels createError).
Local Abbreviation syncAffected' :=
  (syncAffectedNetworkPolicyChains listPodsByNamespaceAndLabels evalPodPeer namespaceLabels
                                   createError).

Local Abbreviation fromListerOrCreate' :=
  (fromListerOrCreate listPodsByNamespaceAndLabels createError).

Lemma createAndRefresh_error (sets sets' : IPSet) (setName : string) (members : list string)
    (e : error) :
  createAndRefresh createError sets setName members = (Return (Some e), sets') ->
  fromListerOrCreate' e.
Proof.
  unfold createAndRefresh. destruct (createError setName) as [err|] eqn:E; intros H.
  - injection H as <- _. right. eauto.
  - discriminate H.
Qed.

Lemma syncPeer_error (policy : NetworkPolicy) (pod : podInfo) (setName : string)
    (peer : NetworkPolicyPeer) (sets sets' : IPSet) (e : error) :
  syncPeer' policy pod setName peer sets = (Return (Some e), sets') ->
  fromListerOrCreate' e.
Proof.
  unfold syncPeer. intros H.
  destruct (evalPodPeer policy peer) as [peerPods [err|]];
    repeat match type of H with
           | context [match ?x with _ => _ end] => destruct x eqn:?
           end;
    try discriminate H;
    try (eapply createAndRefresh_error; eassumption).
Qed.

Lemma syncPeers_error (policy : NetworkPolicy) (pod : podInfo) (setName : string)
    (peers : list NetworkPolicyPeer) :
  forall (sets sets' : IPSet) (e : error),
    syncPeers' policy pod setName peers sets = (Return (Some e), sets') ->
    fromListerOrCreate' e.
Proof.
  induction peers as [|peer peers IH]; intros sets sets' e H; cbn [syncPeers] in H.
  - discriminate H.
  - destruct (syncPeer' policy pod setName peer sets) as [[| err |] s1] eqn:E.
    + eapply IH; exact H.
    + injection H as -> _. eapply syncPeer_error; exact E.
    + discriminate H.
Qed.

Lemma syncRules_error (setNameOf : nat -> string) (policy : NetworkPolicy) (pod : podInfo)
    (rules : list (list NetworkPolicyPeer)) :
  forall (i : nat) (sets sets' : IPSet) (e : error),
    syncRules' setNameOf policy pod i rules sets = (Return (Some e), sets') ->
    fromListerOrCreate' e.
Proof.
  induction rules as [|peers rules IH]; intros i sets sets' e H; cbn [syncRules] in H.
  - discriminate H.
  - destruct (syncPeers' policy pod (setNameOf i) peers sets) as [[| err |] s1] eqn:E.
    + eapply IH; exact H.
    + injection H as -> _. eapply syncPeers_error; exact E.
    + discriminate H.
Qed.

Lemma syncTargets_error (policy : NetworkPolicy) (pod : podInfo) (sets sets' : IPSet)
    (e : error) :
  syncTargets' policy pod sets = (Return (Some e), sets') ->
  fromListerOrCreate' e.
Proof.
  unfold syncTargets. intros H.
  destruct (_ && _); [| discriminate H].
  destruct (listPodsByNamespaceAndLabels _ _) as [matchingPods | err] eqn:L.
  2:{ injection H as <- _. left. eauto. }
  destruct (0 <? length (Ingress policy))%nat.
  - destruct (createAndRefresh createError sets _ _) as [[| err |] s1] eqn:C1.
    + destruct (0 <? length (Egress policy))%nat; [| discriminate H].
      eapply createAndRefresh_error; exact H.
    + injection H as -> _. eapply createAndRefresh_error; exact C1.
    + discriminate H.
  - destruct (0 <? length (Egress policy))%nat; [| discriminate H].
    eapply createAndRefresh_error; exact H.
Qed.

Lemma syncPolicy_error (policy : NetworkPolicy) (pod : podInfo) (sets sets' : IPSet)
    (e : error) :
  syncPolicy' policy pod sets = (Return (Some e), sets') ->
  fromListerOrCreate' e.
Proof.
  unfold syncPolicy. intros H.
  destruct (syncTargets' policy pod sets) as [[| err |] s1] eqn:T.
  - destruct (syncRules' _ policy pod 0 (Ingress policy) s1) as [[| err |] s2] eqn:R.
    + eapply syncRules_error; exact H.
    + injection H as -> _. eapply syncRules_error; exact R.
    + discriminate H.
  - injection H as -> _. eapply syncTargets_error; exact T.
  - discriminate H.
Qed.

(** X14. Whatever the policies, the pod and the host: an error
    [syncAffectedNetworkPolicyChains] returns is an error of the pod lister
    or the wrapped refusal to create a set.  There is no third kind: what
    the peer evaluation reports never reaches the caller. *)
Theorem syncAffected_error_provenance (policies : list NetworkPolicy) (pod : podInfo)
    (sets sets' : IPSet) (e : error) :
  syncAffected' policies pod sets = (Return (Some e), sets') ->
  fromListerOrCreate' e.
Proof.
  unfold syncAffectedNetworkPolicyChains. revert sets.
  induction policies as [|policy policies IH]; intros sets H; cbn [syncAffectedLoop] in H.
  - discriminate H.
  - destruct (syncPolicy' policy pod sets) as [[| err |] s1] eqn:P.
    + eapply IH; exact H.
    + injection H as -> _. eapply syncPolicy_error; exact P.
    + discriminate H.
Qed.

Lemma syncPeer_healthy (policy : NetworkPolicy) (pod : podInfo) (setName : string)
    (peer : NetworkPolicyPeer) (sets : IPSet) :
  snd (evalPodPeer policy peer) = None ->
  exists ending,
    syncPeer' policy pod setName peer sets = (ending, sets) /\
    (ending = Continue \/ ending = Return None \/ ending = Panic).
Proof.
  intros Hok. unfold syncPeer.
  destruct (evalPodPeer policy peer) as [peerPods err]. cbn [snd] in Hok. subst err.
  destruct (PodSelector peer), (NamespaceSelector peer), (IPBlock peer);
    repeat match goal with
           | |- context [match ?x with _ => _ end] => destruct x
           end; eexists; (split; [reflexivity | auto]).
Qed.

Lemma syncPeers_healthy (policy : NetworkPolicy) (pod : podInfo) (setName : string)
    (peers : list NetworkPolicyPeer) (sets : IPSet) :
  (forall peer, snd (evalPodPeer policy peer) = None) ->
  exists ending,
    syncPeers' policy pod setName peers sets = (ending, sets) /\
    (ending = Continue \/ ending = Return None \/ ending = Panic).
Proof.
  intros Hok. induction peers as [|peer peers IH]; cbn [syncPeers].
  - exists Continue. auto.
  - destruct (syncPeer_healthy policy pod setName peer sets (Hok peer))
      as (e1 & -> & [-> | [-> | ->]]).
    + exact IH.
    + eexists. split; [reflexivity | auto].
    + eexists. split; [reflexivity | auto].
Qed.

Lemma syncRules_healthy (setNameOf : nat -> string) (policy : NetworkPolicy) (pod : podInfo)
    (rules : list (list NetworkPolicyPeer)) (sets : IPSet) :
  (forall peer, snd (evalPodPeer policy peer) = None) ->
  forall i,
  exists ending,
    syncRules' setNameOf policy pod i rules sets = (ending, sets) /\
    (ending = Continue \/ ending = Return None \/ ending = Panic).
Proof.
  intros Hok. induction rules as [|peers rules IH]; intros i; cbn [syncRules].
  - exists Continue. auto.
  - destruct (syncPeers_healthy policy pod (setNameOf i) peers sets Hok)
      as (e1 & -> & [-> | [-> | ->]]).
    + apply IH.
    + eexists. split; [reflexivity | auto].
    + eexists. split; [reflexivity | auto].
Qed.

(** X15. With a peer evaluation that never fails, and for a pod none of
    the policies targets: [syncAffectedNetworkPolicyChains] leaves every IP
    set as it was, whichever peers of whichever rules select the pod; it
    returns nil, or panics on the namespace of the pod. *)
Theorem syncAffected_builds_no_peer_set (policies : list NetworkPolicy) (pod : podInfo)
    (sets : IPSet) :
  (forall policy peer, snd (evalPodPeer policy peer) = None) ->
  (forall policy, In policy policies -> targetedBy policy pod = false) ->
  syncAffected' policies pod sets = (Return None, sets) \/
  syncAffected' policies pod sets = (Panic, sets).
Proof.
  intros Hok. unfold syncAffectedNetworkPolicyChains.
  induction policies as [|policy policies IH]; intros Hnot; cbn [syncAffectedLoop].
  - now left.
  - unfold syncPolicy, syncTargets.
    pose proof (Hnot policy (or_introl eq_refl)) as Hp. unfold targetedBy in Hp. rewrite Hp.
    destruct (syncRules_healthy
                (policyIndexedSourcePodIPSetName (npNamespace policy) (npName policy))
                policy pod (Ingress policy) sets (Hok policy) 0)
      as (e1 & -> & [-> | [-> | ->]]); [| now left | now right].
    destruct (syncRules_healthy
                (policyIndexedDestinationPodIPSetName (npNamespace policy) (npName policy))
                policy pod (Egress policy) sets (Hok policy) 0)
      as (e2 & -> & [-> | [-> | ->]]); [| now left | now right].
    apply IH. intros p Hin. apply Hnot. now right.
Qed.

End SyncAffectedFacts.

Lemma syncAffected_error_provenance_witness :
  fromListerOrCreate (fun _ _ => inl []) refusingCreate
                     (errorString "failed to create ipset: ipset: Kernel error").
Proof.
  apply (syncAffected_error_provenance (fun _ _ => inl []) failingEval (fun _ => Some None)
           refusingCreate [allowClient] clientPodInfo [] []).
  vm_compute. reflexivity.
Defined.

Lemma syncAffected_builds_no_peer_set_witness :
  sampleSync workingEval (ipsetTable sampleHost) = (Return None, ipsetTable sampleHost) \/
  sampleSync workingEval (ipsetTable sampleHost) = (Panic, ipsetTable sampleHost).
Proof.
  apply (syncAffected_builds_no_peer_set (fun _ _ => inl []) workingEval (fun _ => Some None)
           (fun _ => None) [allowClient] clientPodInfo (ipsetTable sampleHost)).
  - reflexivity.
  - intros policy [<- | []]. vm_compute. reflexivity.
Defined.

(** ** The default chains *)

Section DefaultChainFacts.

Variable ruleText : list string -> string.
Variable iptablesNew : result unit.
Variable NewChain : table -> string -> table + handlerError.
Variable AppendUnique : table -> string -> list string -> result table.

Lemma chainRules_app_new (t : table) (chain : string) (rules : list string) :
  chainRules t chain = None -> chainRules (t ++ [(chain, rules)]) chain = Some rules.
Proof.
  unfold chainRules. intros H.
  induction t as [|[n r] t IH]; cbn [app List.find fst] in *.
  - now rewrite String.eqb_refl.
  - destruct (String.eqb n chain); [discriminate H | exact (IH H)].
Qed.

Lemma AppendUnique_spec (t : table) (chain : string) (ruleSpec : list string)
    (old : list string) :
  chainRules t chain = Some old ->
  exists t' added,
    IPTables.AppendUnique ruleText t chain ruleSpec = inl t' /\
    chainRules t' chain = Some (old ++ added) /\
    In (ruleText ruleSpec) (old ++ added) /\
    (forall c, c <> chain -> chainRules t' c = chainRules t c) /\
    (In (ruleText ruleSpec) old -> t' = t).
Proof.
  intros Ht. unfold IPTables.AppendUnique.
  destruct (IPTables.Exists ruleText t chain ruleSpec) eqn:E.
  - apply (Exists_present ruleText t chain ruleSpec old Ht) in E.
    exists t, []. rewrite app_nil_r. split_and!; auto.
  - unfold IPTables.Append. rewrite Ht.
    eexists. exists [ruleText ruleSpec]. split; [reflexivity |]. split_and!.
    + apply chainRules_setChainRules_eq. rewrite Ht. eauto.
    + apply in_or_app. right. now left.
    + intros c Hc. now apply chainRules_setChainRules_ne.
    + intros Hin. apply (Exists_present ruleText t chain ruleSpec old Ht) in Hin. congruence.
Qed.

(** A call of [AppendUnique] that the host answers as a host where the
    command runs, on a chain that is there. *)
Lemma appendUniqueOrDie_spec (t : table) (chain : string) (ruleSpec : list string)
    (old : list string) :
  chainRules t chain = Some old ->
  AppendUnique t chain ruleSpec = IPTables.AppendUnique ruleText t chain ruleSpec ->
  exists t' added,
    appendUniqueOrDie AppendUnique t chain ruleSpec = Returns t' /\
    chainRules t' chain = Some (old ++ added) /\
    In (ruleText ruleSpec) (old ++ added) /\
    (forall c, c <> chain -> chainRules t' c = chainRules t c) /\
    (In (ruleText ruleSpec) old -> t' = t).
Proof.
  intros Ht Hrun.
  destruct (AppendUnique_spec t chain ruleSpec old Ht) as (t' & added & R & H).
  exists t', added. unfold appendUniqueOrDie. rewrite Hrun, R. split; [reflexivity | exact H].
Qed.

Lemma appendUniqueOrDie_fatal (t : table) (chain : string) (ruleSpec : list string)
    (err : error) :
  AppendUnique t chain ruleSpec = inr err ->
  appendUniqueOrDie AppendUnique t chain ruleSpec
  = Fatalf ("Failed to run iptables command: " +:+ Error err).
Proof. intros H. unfold appendUniqueOrDie. now rewrite H. Qed.

Lemma newChainIfMissing_fatal (t : table) (chain : string) (exitStatus : Z) (text : string) :
  NewChain t chain = inr (commandError exitStatus text) ->
  exitStatus <> 1%Z ->
  newChainIfMissing NewChain t chain
  = Fatalf ("Failed to run iptables command to create " +:+ chain +:+ " chain due to " +:+ text).
Proof.
  intros H Hs. unfold newChainIfMissing. rewrite H.
  destruct (Z.eqb_spec exitStatus 1); [contradiction | reflexivity].
Qed.

(** A call of [NewChain] that the host answers as a host where the command
    runs: the chain is there afterwards, with the rules it had. *)
Lemma newChainIfMissing_spec (t : table) (chain : string) :
  NewChain t chain = IPTables.NewChain t chain ->
  exists t',
    newChainIfMissing NewChain t chain = Returns t' /\
    is_Some (chainRules t' chain) /\
    rulesOf t' chain = rulesOf t chain /\
    (forall c, c <> chain -> chainRules t' c = chainRules t c) /\
    (is_Some (chainRules t chain) -> t' = t).
Proof.
  intros Hrun. unfold newChainIfMissing. rewrite Hrun. unfold IPTables.NewChain, rulesOf.
  destruct (chainRules t chain) as [rules|] eqn:E.
  - exists t. cbn. rewrite E. split_and!; eauto.
  - eexists. split; [reflexivity |].
    rewrite (chainRules_app_new t chain [] E). split_and!; eauto.
    + intros c Hc. now apply chainRules_app_ne.
    + intros [x Hx]. discriminate Hx.
Qed.

Section HealthyHost.

(** The handler is set up and the command runs: [NewChain] is refused
    only for a chain that is there, with exit status 1, and [AppendUnique]
    appends to a chain that is there unless the chain has the rule. *)
Hypothesis handler_set_up : iptablesNew = inl tt.
Hypothesis command_runs : forall t chain, NewChain t chain = IPTables.NewChain t chain.
Hypothesis appends_run :
  forall t chain args, AppendUnique t chain args = IPTables.AppendUnique ruleText t chain args.

Lemma ensureDefaultPodFWChains_healthy (npc : NetworkPolicyController) (t : table) :
  let defaultAction := if netpolAllowPreCheck npc then "ACCEPT" else "REJECT" in
  exists (t' : table) (added : list string),
    ensureDefaultPodFWChains iptablesNew NewChain AppendUnique npc t = Returns t' /\
    chainRules t' KubeDefaultPodFWChain = Some (rulesOf t KubeDefaultPodFWChain ++ added) /\
    (forall c, c <> KubeDefaultPodFWChain -> chainRules t' c = chainRules t c) /\
    (nodePodIPCIDR npc = "" -> added = []) /\
    (nodePodIPCIDR npc <> "" ->
     In (ruleText (defaultIngressAction npc defaultAction))
        (rulesOf t KubeDefaultPodFWChain ++ added) /\
     In (ruleText (defaultEgressAction npc defaultAction))
        (rulesOf t KubeDefaultPodFWChain ++ added)) /\
    ensureDefaultPodFWChains iptablesNew NewChain AppendUnique npc t' = Returns t'.
Proof.
  intros defaultAction. unfold ensureDefaultPodFWChains. fold defaultAction.
  rewrite handler_set_up.
  destruct (newChainIfMissing_spec t KubeDefaultPodFWChain (command_runs _ _))
    as (t0 & R0 & [old Hold] & Hr & Ho & _).
  rewrite R0. cbn [mbind ended_bind].
  assert (Hold' : old = rulesOf t KubeDefaultPodFWChain).
  { rewrite <- Hr. unfold rulesOf. now rewrite Hold. }
  destruct (String.eqb_spec (nodePodIPCIDR npc) "") as [Hc | Hc].
  - exists t0, []. rewrite app_nil_r, <- Hold'. split_and!; auto.
    + intros H. contradiction.
    + destruct (newChainIfMissing_spec t0 KubeDefaultPodFWChain (command_runs _ _))
        as (t1 & R1 & _ & _ & _ & Hsame).
      rewrite R1, Hsame by (rewrite Hold; eauto). reflexivity.
  - destruct (appendUniqueOrDie_spec t0 KubeDefaultPodFWChain
                (defaultIngressAction npc defaultAction) old Hold (appends_run _ _ _))
      as (t1 & a1 & R1 & C1 & I1 & O1 & _).
    destruct (appendUniqueOrDie_spec t1 KubeDefaultPodFWChain
                (defaultEgressAction npc defaultAction) (old ++ a1) C1 (appends_run _ _ _))
      as (t2 & a2 & R2 & C2 & I2 & O2 & _).
    rewrite R1. cbn [mbind ended_bind]. rewrite R2.
    exists t2, (a1 ++ a2). rewrite <- Hold'. split_and!.
    + reflexivity.
    + now rewrite app_assoc.
    + intros c Hne. now rewrite O2, O1, Ho.
    + intros H. contradiction.
    + intros _. rewrite app_assoc. split; [| exact I2].
      apply in_or_app. now left.
    + destruct (newChainIfMissing_spec t2 KubeDefaultPodFWChain (command_runs _ _))
        as (t3 & R3 & _ & _ & _ & Hsame).
      rewrite R3, Hsame by (rewrite C2; eauto). cbn [mbind ended_bind].
      destruct (appendUniqueOrDie_spec t2 KubeDefaultPodFWChain
                  (defaultIngressAction npc defaultAction) _ C2 (appends_run _ _ _))
        as (t4 & a4 & R4 & _ & _ & _ & S4).
      rewrite R4, S4 by (apply in_or_app; now left). cbn [mbind ended_bind].
      destruct (appendUniqueOrDie_spec t2 KubeDefaultPodFWChain
                  (defaultEgressAction npc defaultAction) _ C2 (appends_run _ _ _))
        as (t5 & a5 & R5 & _ & _ & _ & S5).
      rewrite R5, S5 by exact I2. reflexivity.
Qed.

Lemma ensureDefaultNetworkPolicyChains_healthy (t : table) :
  exists (t' : table) (addedIngress addedEgress : list string),
    ensureDefaultNetworkPolicyChains iptablesNew NewChain AppendUnique t = Returns t' /\
    chainRules t' kubeIngressNetpolChain
    = Some (rulesOf t kubeIngressNetpolChain ++ addedIngress) /\
    chainRules t' kubeEgressNetpolChain
    = Some (rulesOf t kubeEgressNetpolChain ++ addedEgress) /\
    In (ruleText markArgs) (rulesOf t kubeIngressNetpolChain ++ addedIngress) /\
    In (ruleText markArgs) (rulesOf t kubeEgressNetpolChain ++ addedEgress) /\
    (forall c, c <> kubeIngressNetpolChain -> c <> kubeEgressNetpolChain ->
               chainRules t' c = chainRules t c) /\
    ensureDefaultNetworkPolicyChains iptablesNew NewChain AppendUnique t' = Returns t'.
Proof.
  unfold ensureDefaultNetworkPolicyChains. rewrite handler_set_up.
  assert (Hne : kubeEgressNetpolChain <> kubeIngressNetpolChain) by discriminate.
  assert (Hne' : kubeIngressNetpolChain <> kubeEgressNetpolChain) by discriminate.
  destruct (newChainIfMissing_spec t kubeIngressNetpolChain (command_runs _ _))
    as (t0 & R0 & [oldI HoldI] & HrI & HoI & _).
  rewrite R0. cbn [mbind ended_bind].
  assert (HI : oldI = rulesOf t kubeIngressNetpolChain).
  { rewrite <- HrI. unfold rulesOf. now rewrite HoldI. }
  destruct (appendUniqueOrDie_spec t0 kubeIngressNetpolChain markArgs oldI HoldI (appends_run _ _ _))
    as (t1 & a1 & R1 & C1 & I1 & O1 & _).
  rewrite R1. cbn [mbind ended_bind].
  destruct (newChainIfMissing_spec t1 kubeEgressNetpolChain (command_runs _ _))
    as (t2 & R2 & [oldE HoldE] & HrE & HoE & _).
  rewrite R2. cbn [mbind ended_bind].
  assert (HE : oldE = rulesOf t kubeEgressNetpolChain).
  { transitivity (rulesOf t2 kubeEgressNetpolChain);
      [unfold rulesOf; now rewrite HoldE |].
    rewrite HrE. unfold rulesOf. now rewrite (O1 _ Hne), (HoI _ Hne). }
  destruct (appendUniqueOrDie_spec t2 kubeEgressNetpolChain markArgs oldE HoldE (appends_run _ _ _))
    as (t3 & a3 & R3 & C3 & I3 & O3 & _).
  rewrite R3. exists t3, a1, a3. rewrite <- HI, <- HE.
  assert (C1' : chainRules t3 kubeIngressNetpolChain = Some (oldI ++ a1)).
  { now rewrite (O3 _ Hne'), (HoE _ Hne'). }
  split_and!; auto.
  - intros c H1 H2. now rewrite (O3 _ H2), (HoE _ H2), (O1 _ H1), (HoI _ H1).
  - destruct (newChainIfMissing_spec t3 kubeIngressNetpolChain (command_runs _ _))
      as (t4 & R4 & _ & _ & _ & Hsame).
    rewrite R4, Hsame by (rewrite C1'; eauto). cbn [mbind ended_bind].
    destruct (appendUniqueOrDie_spec t3 kubeIngressNetpolChain markArgs _ C1' (appends_run _ _ _))
      as (t5 & a5 & R5 & _ & _ & _ & S5).
    rewrite R5, S5 by exact I1. cbn [mbind ended_bind].
    destruct (newChainIfMissing_spec t3 kubeEgressNetpolChain (command_runs _ _))
      as (t6 & R6 & _ & _ & _ & Hsame').
    rewrite R6, Hsame' by (rewrite C3; eauto). cbn [mbind ended_bind].
    destruct (appendUniqueOrDie_spec t3 kubeEgressNetpolChain markArgs _ C3 (appends_run _ _ _))
      as (t7 & a7 & R7 & _ & _ & _ & S7).
    rewrite R7, S7 by exact I3. reflexivity.
Qed.

End HealthyHost.



End DefaultChainFacts.

Example flag_change_keeps_first_action :
  (t1 ← ensureDefaultPodFWChains (inl tt) IPTables.NewChain (IPTables.AppendUnique plainText)
          sampleController pristineHost.(filterTable);
   ensureDefaultPodFWChains (inl tt) IPTables.NewChain (IPTables.AppendUnique plainText)
     permissiveController t1)
  = Returns (filterTable pristineHost
               ++ [(KubeDefaultPodFWChain,
                    [plainText (defaultIngressAction sampleController "REJECT");
                     plainText (defaultEgressAction sampleController "REJECT");
                     plainText (defaultIngressAction sampleController "ACCEPT");
                     plainText (defaultEgressAction sampleController "ACCEPT")])]).
Proof. vm_compute. reflexivity. Qed.

(** A host where the iptables command cannot take its lock: the first
    [NewChain] ends the process. *)
Example locked_host_ends_the_process :
  ensureDefaultPodFWChains (inl tt) lockedNewChain (IPTables.AppendUnique plainText)
                           sampleController (filterTable pristineHost)
  = Fatalf ("Failed to run iptables command to create KUBE-POD-FW-DEFAULT chain due to "
              +:+ "Another app is currently holding the xtables lock.") /\
  ensureDefaultNetworkPolicyChains (inl tt) lockedNewChain (IPTables.AppendUnique plainText)
                                   (filterTable pristineHost)
  = Fatalf ("Failed to run iptables command to create KUBE-NWPLCY-DEFAULT-INGRESS"
              +:+ " chain due to Another app is currently holding the xtables lock.").
Proof. vm_compute. split; reflexivity. Qed.



(** ** [Cleanup] after a sync *)

Section CleanupAfterSync.
Import GoStrings.

Lemma referenced_by_rule (t : table) (c podChain r : string) (rules : list string) :
  chainRules t c = Some rules -> In r rules -> jumpsTo podChain r = true ->
  referenced t podChain = true.
Proof.
  unfold chainRules, referenced. intros Ht Hr Hj.
  destruct (List.find _ t) as [[n rs]|] eqn:F; [| discriminate Ht].
  cbn in Ht. injection Ht as ->.
  apply find_some in F as [Hin _].
  apply existsb_exists. exists (n, rules). split; [exact Hin |].
  apply existsb_exists. exists r. auto.
Qed.

Lemma ClearChain_flushes (t t1 : table) (chain : string) :
  ClearChain t chain = inl t1 -> chainRules t1 chain = Some [].
Proof.
  unfold ClearChain. destruct (chainRules t chain) as [rules|] eqn:E; intros H;
    injection H as <-.
  - apply chainRules_setChainRules_eq. rewrite E. eauto.
  - now apply chainRules_app_new.
Qed.

(** The flush-and-delete loop cannot get past a chain that a rule outside
    the prefix still jumps to. *)
Lemma flushAndDelete_refused (prefix keeper podChain r : string) (rules : list string)
    (chains : list string) :
  HasPrefix podChain prefix = true ->
  HasPrefix keeper prefix = false ->
  In r rules -> jumpsTo podChain r = true ->
  In podChain chains ->
  forall t,
    chainRules t keeper = Some rules ->
    exists t' err,
      flushAndDelete prefix t chains = (t', Some err) /\
      chainRules t' keeper = Some rules.
Proof.
  intros Hp Hk Hr Hj. induction chains as [|chain chains IH]; intros Hin t Ht; [destruct Hin |].
  cbn [flushAndDelete].
  destruct (HasPrefix chain prefix) eqn:Hc.
  - assert (Hne : keeper <> chain) by (intros ->; congruence).
    destruct (ClearChain t chain) as [t1|e1] eqn:E1.
    2:{ exists t, e1. auto. }
    assert (Ht1 : chainRules t1 keeper = Some rules).
    { rewrite <- Ht. eapply ClearChain_other; eassumption. }
    destruct (DeleteChain t1 chain) as [t2|e2] eqn:E2.
    2:{ exists t1, e2. auto. }
    assert (Hchain : chain <> podChain).
    { intros ->. unfold DeleteChain in E2.
      rewrite (ClearChain_flushes _ _ _ E1) in E2.
      rewrite (referenced_by_rule t1 keeper podChain r rules Ht1 Hr Hj) in E2.
      discriminate E2. }
    destruct Hin as [Heq | Hin]; [contradiction |].
    apply (IH Hin).
    apply DeleteChain_result in E2. subst t2.
    now rewrite chainRules_remove_ne.
  - assert (Hchain : chain <> podChain) by (intros ->; congruence).
    destruct Hin as [Heq | Hin]; [contradiction |].
    now apply IH.
Qed.

(** X18. On a host whose inbound top-level chain holds a rule that jumps
    to a chain under the pod firewall prefix, as every host does once
    [ensureTopLevelChains] has appended the jump to the default pod chain:
    [Cleanup] does not run to its end.  Its last log line is a failure,
    the inbound chain keeps its rules and no IP set is destroyed. *)
Theorem Cleanup_stops_on_inbound_jump (h : host) (podChain r : string)
    (rules : list string) :
  HasPrefix podChain kubePodFirewallChainPrefix = true ->
  In podChain (ListChains (filterTable h)) ->
  chainRules (filterTable h) kubeInputChainName = Some rules ->
  In r rules ->
  jumpsTo podChain r = true ->
  List.last (snd (Cleanup h)) "" <> cleanedUp /\
  chainRules (filterTable (fst (Cleanup h))) kubeInputChainName = Some rules /\
  ipsetTable (fst (Cleanup h)) = ipsetTable h.
Proof.
  intros Hp Hin Ht Hr Hj. unfold Cleanup.
  set (log0 := ["Cleaning up iptables configuration permanently done by kube-router"]).
  destruct (ListRules (filterTable h) kubeForwardChainName) as [l1|e1] eqn:L1.
  2:{ cbn [fst snd]. split_and!; [| exact Ht | reflexivity].
      rewrite last_snoc. discriminate. }
  pose proof (cleanupReferences_other kubeForwardChainName kubeInputChainName l1
                ltac:(discriminate) (filterTable h) 0%Z 0%Z log0) as T1.
  pose proof (cleanupReferences_names kubeForwardChainName l1 (filterTable h) 0 0 log0) as N1.
  destruct (cleanupReferences (filterTable h) kubeForwardChainName l1 0 0 log0) as [t1 log1].
  cbn [fst] in T1, N1.
  destruct (ListRules t1 kubeOutputChainName) as [l2|e2] eqn:L2.
  2:{ cbn [fst snd filterTable ipsetTable]. split_and!; [| now rewrite T1 | reflexivity].
      rewrite last_snoc. discriminate. }
  pose proof (cleanupReferences_other kubeOutputChainName kubeInputChainName l2
                ltac:(discriminate) t1 0%Z 0%Z log1) as T2.
  pose proof (cleanupReferences_names kubeOutputChainName l2 t1 0 0 log1) as N2.
  destruct (cleanupReferences t1 kubeOutputChainName l2 0 0 log1) as [t2 log2].
  cbn [fst] in T2, N2.
  destruct (flushAndDelete_refused kubePodFirewallChainPrefix kubeInputChainName podChain r
              rules (ListChains t2) Hp eq_refl Hr Hj) with (t := t2)
    as (t3 & err & F & K).
  { now rewrite N2, N1. }
  { now rewrite T2, T1. }
  rewrite F. cbn [fst snd filterTable ipsetTable]. split_and!; [| exact K | reflexivity].
  rewrite last_snoc. unfold cleanedUp. intros H.
  apply (f_equal (fun s => String.get 0 s)) in H. discriminate H.
Qed.

End CleanupAfterSync.

Lemma Cleanup_stops_on_inbound_jump_witness :
  List.last (snd (Cleanup sampleHost)) "" <> cleanedUp /\
  chainRules (filterTable (fst (Cleanup sampleHost))) kubeInputChainName
  = Some ["-s 10.1.2.9 -j KUBE-POD-FW-AAAAAAAAAAAAAAAA"; "-j KUBE-POD-FW-DEFAULT"] /\
  ipsetTable (fst (Cleanup sampleHost)) = ipsetTable sampleHost.
Proof.
  apply (Cleanup_stops_on_inbound_jump sampleHost KubeDefaultPodFWChain
           "-j KUBE-POD-FW-DEFAULT").
  - reflexivity.
  - vm_compute. auto 20.
  - reflexivity.
  - right. now left.
  - vm_compute. reflexivity.
Defined.

(** ** The composer's text, line by line *)

Section ComposerLines.
Import GoStrings.

Lemma digit_no_line_feed (v : Z) : Ascii.eqb (Base32.digit v) newline = false.
Proof.
  unfold Base32.digit. generalize (Z.to_nat (v mod 32)). intros n.
  do 32 (destruct n as [|n]; [reflexivity |]). reflexivity.
Qed.

Lemma noLineFeed_of_list (cs : list ascii) :
  Forall (fun c => Ascii.eqb c newline = false) cs ->
  noLineFeed (string_of_list_ascii cs) = true.
Proof.
  induction 1 as [|c cs Hc _ IH]; [reflexivity |].
  cbn [string_of_list_ascii noLineFeed]. now rewrite Hc, IH.
Qed.

Lemma quantum_no_line_feed (b0 b1 b2 b3 b4 : Z) :
  Forall (fun c => Ascii.eqb c newline = false) (Base32.quantum b0 b1 b2 b3 b4).
Proof.
  unfold Base32.quantum. apply Forall_forall. intros c Hc.
  apply list_elem_of_In, in_map_iff in Hc as (i & <- & _). apply digit_no_line_feed.
Qed.

Lemma padded_no_line_feed (keep : nat) (cs : list ascii) :
  Forall (fun c => Ascii.eqb c newline = false) cs ->
  Forall (fun c => Ascii.eqb c newline = false) (Base32.padded keep cs).
Proof.
  intros H. unfold Base32.padded. apply Forall_app. split.
  - now apply Forall_take.
  - apply Forall_forall. intros c Hc. apply list_elem_of_In, repeat_spec in Hc. now subst c.
Qed.

Lemma encode_no_line_feed (src : list Z) :
  Forall (fun c => Ascii.eqb c newline = false) (Base32.encode src).
Proof.
  induction src as [| a | a b | a b c | a b c d | a b c d e l IH] using list_ind5;
    try (apply padded_no_line_feed, quantum_no_line_feed).
  - constructor.
  - change (Base32.encode (a :: b :: c :: d :: e :: l))
      with (Base32.quantum a b c d e ++ Base32.encode l).
    apply Forall_app. split; [apply quantum_no_line_feed | exact IH].
Qed.

Lemma noLineFeed_substring (n : nat) :
  forall s, noLineFeed s = true -> noLineFeed (substring 0 n s) = true.
Proof.
  induction n as [|n IH]; intros [|c s] H; try reflexivity.
  cbn [substring noLineFeed] in *. apply andb_prop in H as [Hc Hs].
  now rewrite Hc, IH.
Qed.

Lemma token_no_line_feed (input : string) :
  noLineFeed (substring 0 16 (encodedHash input)) = true.
Proof.
  apply noLineFeed_substring. unfold encodedHash, Base32.EncodeToString.
  apply noLineFeed_of_list, encode_no_line_feed.
Qed.

Lemma Join_snoc (args : list string) (last sep : string) :
  args <> [] -> Join (args ++ [last]) sep = Join args sep +:+ sep +:+ last.
Proof.
  induction args as [|e [|e' args] IH]; intros Hne; [contradiction | reflexivity |].
  change (Join ((e :: e' :: args) ++ [last]) sep)
    with (e +:+ sep +:+ Join ((e' :: args) ++ [last]) sep).
  rewrite IH by discriminate.
  change (Join (e :: e' :: args) sep) with (e +:+ sep +:+ Join (e' :: args) sep).
  now rewrite !app_assoc_str.
Qed.

Lemma noLineFeed_Join (args : list string) :
  Forall (fun a => noLineFeed a = true) args -> noLineFeed (Join args " ") = true.
Proof.
  induction 1 as [|a [|b args] Ha Hall IH]; [reflexivity | exact Ha |].
  change (Join (a :: b :: args) " ") with (a +:+ " " +:+ Join (b :: args) " ").
  rewrite !noLineFeed_app, Ha, IH. reflexivity.
Qed.

Lemma oneLineRule_text (r : rule) :
  oneLineRule r -> Join r " " = ruleLine r +:+ lf /\ noLineFeed (ruleLine r) = true.
Proof.
  intros (args & Hne & -> & Hall). unfold ruleLine. rewrite removelast_last. split.
  - rewrite Join_snoc by exact Hne. now rewrite app_assoc_str.
  - rewrite noLineFeed_app, noLineFeed_Join by exact Hall. reflexivity.
Qed.

Lemma renderRules_lines (rules : list rule) :
  Forall oneLineRule rules ->
  renderRules rules = unlines (List.map ruleLine rules) /\
  Forall (fun l => noLineFeed l = true) (List.map ruleLine rules).
Proof.
  induction 1 as [|r rules Hr _ [IH1 IH2]]; [split; [reflexivity | constructor] |].
  destruct (oneLineRule_text r Hr) as [Ht Hn].
  cbn [renderRules List.fold_right List.map unlines]. fold (renderRules rules).
  rewrite Ht, IH1. split; [reflexivity | now constructor].
Qed.

Lemma noLineFeed_quoted (s : string) : noLineFeed (quoted s) = noLineFeed s.
Proof.
  unfold quoted. rewrite !noLineFeed_app.
  change (noLineFeed dq) with true. now rewrite andb_true_r.
Qed.

Lemma podFirewallChainName_plain (ns p v : string) :
  noLineFeed (podFirewallChainName ns p v) = true.
Proof.
  unfold podFirewallChainName. rewrite noLineFeed_app, token_no_line_feed. reflexivity.
Qed.

Lemma networkPolicyChainName_plain (ns p v : string) :
  noLineFeed (networkPolicyChainName ns p v) = true.
Proof.
  unfold networkPolicyChainName. rewrite noLineFeed_app, token_no_line_feed. reflexivity.
Qed.

Ltac plain_argument :=
  rewrite ?noLineFeed_quoted, ?noLineFeed_app, ?networkPolicyChainName_plain;
  repeat match goal with
         | H : noLineFeed _ = true |- _ => rewrite H
         end;
  reflexivity.

Ltac one_line_rule :=
  match goal with
  | |- oneLineRule ?r =>
      exists (List.removelast r); cbn [List.removelast];
      split; [discriminate |];
      split; [reflexivity |];
      repeat (apply List.Forall_cons; [plain_argument |]);
      apply List.Forall_nil
  end.

Lemma composer_rules_on_one_line (pod : podInfo) (policies : list networkPolicyInfo)
    (version : string) :
  plainPod pod = true ->
  Forall (fun policy => plainPolicy policy = true) policies ->
  Forall oneLineRule (syncPodFirewallRules pod policies version).
Proof.
  unfold plainPod, plainPolicy. intros Hpod Hpol.
  apply andb_prop in Hpod as [Hpod Hip]. apply andb_prop in Hpod as [Hname Hns].
  pose proof (podFirewallChainName_plain (namespace pod) (name pod) version) as Hchain.
  unfold syncPodFirewallRules.
  set (chain := podFirewallChainName (namespace pod) (name pod) version) in *.
  assert (Hjumps : forall applicable,
             Forall (fun policy => noLineFeed (policyName policy) = true) applicable ->
             Forall oneLineRule
               (List.map (fun policy =>
                            ["-I"; chain; "1"; "-m"; "comment"; "--comment";
                             quoted ("run through nw policy " +:+ policyName policy);
                             "-j";
                             networkPolicyChainName (policyNamespace policy)
                                                    (policyName policy) version; lf])
                         applicable)).
  { intros applicable Ha. apply Forall_forall. intros r Hr.
    apply list_elem_of_In, in_map_iff in Hr as (policy & <- & Hin).
    rewrite Forall_forall in Ha. pose proof (Ha policy (proj2 (list_elem_of_In _ _) Hin)) as Hp.
    one_line_rule. }
  assert (Happ : Forall (fun policy => noLineFeed (policyName policy) = true)
                        (List.filter
                           (fun policy => bool_decide (is_Some (targetPods policy !! ip pod)))
                           policies)).
  { apply Forall_forall. intros policy Hin.
    apply list_elem_of_In, filter_In in Hin as [Hin _].
    rewrite Forall_forall in Hpol. apply Hpol. now apply list_elem_of_In. }
  unfold setupPodIngressRules, setupPodEgressRules, processNonWhitelistedTrafficRules,
    processWhitelistedTrafficRules, interceptPodInboundTraffic, interceptPodOutboundTraffic,
    logRule, rejectRule, resetMarkRule, acceptMarkRule.
  cbv zeta. cbn [List.map].
  repeat apply Forall_app_2;
    try (now apply Hjumps);
    try (destruct (negb (negb _)); [| constructor]);
    repeat (apply List.Forall_cons; [one_line_rule |]);
    apply List.Forall_nil.
Qed.

Lemma unlines_app (a b : list string) : unlines (a ++ b) = unlines a +:+ unlines b.
Proof.
  induction a as [|l a IH]; [reflexivity |].
  cbn [app unlines]. now rewrite IH, !app_assoc_str.
Qed.

Lemma dumpLines_unlines (ls : list string) :
  Forall (fun l => noLineFeed l = true) ls -> dumpLines (unlines ls) = ls.
Proof.
  intros H. unfold dumpLines.
  pose proof (SplitLines_unlines ls "" H) as E. rewrite app_empty_r in E.
  change (SplitLines "") with [""] in E. rewrite E.
  rewrite rev_app_distr. cbn [List.rev app]. apply rev_involutive.
Qed.

Lemma podSegment_lines (policies : list networkPolicyInfo) (version : string) (pod : podInfo) :
  plainPod pod = true ->
  Forall (fun policy => plainPolicy policy = true) policies ->
  podSegment policies version pod = unlines (podLines policies version pod) /\
  Forall (fun l => noLineFeed l = true) (podLines policies version pod).
Proof.
  intros Hpod Hpol.
  destruct (renderRules_lines _ (composer_rules_on_one_line pod policies version Hpod Hpol))
    as [Ht Hn].
  unfold podSegment, podLines. cbn [unlines]. rewrite Ht. split.
  - now rewrite !app_assoc_str.
  - constructor; [| exact Hn].
    rewrite noLineFeed_app, podFirewallChainName_plain. reflexivity.
Qed.

(** X19. What the composer hands to the garbage collector, for pods and
    policies whose names hold no line feed and a dump of complete lines:
    the buffer after [fullSyncPodFirewallChains] is the dump followed, pod
    by pod, by the declaration of the pod's chain and one line for each of
    its rules, the rule's arguments each followed by a blank; and these are
    exactly the lines [cleanupStaleRules] goes through. *)
Theorem composer_writes_one_line_per_rule (dump : list string) (pods : list podInfo)
    (policies : list networkPolicyInfo) (version : string) (active : gmap string bool) :
  Forall (fun l => noLineFeed l = true) dump ->
  Forall (fun pod => plainPod pod = true) pods ->
  Forall (fun policy => plainPolicy policy = true) policies ->
  let buffer := fst (fullSyncPodFirewallChains (unlines dump) pods policies version active) in
  buffer = unlines (dump ++ List.flat_map (podLines policies version) pods) /\
  dumpLines buffer = dump ++ List.flat_map (podLines policies version) pods.
Proof.
  intros Hdump Hpods Hpol buffer. subst buffer.
  rewrite fullSyncPodFirewallChains_text.
  assert (H : List.fold_right (fun pod text => podSegment policies version pod +:+ text) "" pods
              = unlines (List.flat_map (podLines policies version) pods) /\
              Forall (fun l => noLineFeed l = true)
                     (List.flat_map (podLines policies version) pods)).
  { induction Hpods as [|pod pods Hpod _ [IH1 IH2]]; [split; [reflexivity | constructor] |].
    destruct (podSegment_lines policies version pod Hpod Hpol) as [Hs Hn].
    cbn [List.fold_right List.flat_map]. rewrite IH1, Hs, unlines_app. split; [reflexivity |].
    apply Forall_app. auto. }
  destruct H as [Ht Hn]. rewrite Ht, <- unlines_app. split; [reflexivity |].
  apply dumpLines_unlines, Forall_app. auto.
Qed.

End ComposerLines.

Lemma composer_writes_one_line_per_rule_witness :
  let buffer :=
    fst (fullSyncPodFirewallChains (unlines [":INPUT ACCEPT [0:0]"; "-A INPUT -j KUBE-ROUTER-INPUT"])
           [samplePodInfo; otherPodInfo] [samplePolicy] sampleVersion ∅) in
  buffer = unlines ([":INPUT ACCEPT [0:0]"; "-A INPUT -j KUBE-ROUTER-INPUT"]
                      ++ List.flat_map (podLines [samplePolicy] sampleVersion)
                                       [samplePodInfo; otherPodInfo]) /\
  dumpLines buffer
  = [":INPUT ACCEPT [0:0]"; "-A INPUT -j KUBE-ROUTER-INPUT"]
      ++ List.flat_map (podLines [samplePolicy] sampleVersion) [samplePodInfo; otherPodInfo].
Proof.
  apply (composer_writes_one_line_per_rule
           [":INPUT ACCEPT [0:0]"; "-A INPUT -j KUBE-ROUTER-INPUT"]
           [samplePodInfo; otherPodInfo] [samplePolicy] sampleVersion ∅).
  - repeat (apply List.Forall_cons; [reflexivity |]). apply List.Forall_nil.
  - repeat (apply List.Forall_cons; [reflexivity |]). apply List.Forall_nil.
  - repeat (apply List.Forall_cons; [reflexivity |]). apply List.Forall_nil.
Defined.

(** ** The order in which the local pods are visited *)

Section IterationOrder.
Import GoStrings.

Lemma active_chains_ignore_buffer (pods : list podInfo) (policies : list networkPolicyInfo)
    (version : string) :
  forall (buf buf' : string) (active : gmap string bool),
    snd (fullSyncPodFirewallChains buf pods policies version active)
    = snd (fullSyncPodFirewallChains buf' pods policies version active).
Proof.
  induction pods as [|pod pods IH]; intros buf buf' active; [reflexivity |].
  cbn [fullSyncPodFirewallChains]. apply IH.
Qed.

Lemma active_chains_permutation (pods pods' : list podInfo)
    (policies : list networkPolicyInfo) (version : string) :
  Permutation pods pods' ->
  forall (buf buf' : string) (active : gmap string bool),
    snd (fullSyncPodFirewallChains buf pods policies version active)
    = snd (fullSyncPodFirewallChains buf' pods' policies version active).
Proof.
  induction 1 as [| x l l' _ IH | x y l | l l' l'' _ IH1 _ IH2]; intros buf buf' active.
  - reflexivity.
  - cbn [fullSyncPodFirewallChains]. apply IH.
  - cbn [fullSyncPodFirewallChains].
    set (cx := podFirewallChainName (namespace x) (name x) version).
    set (cy := podFirewallChainName (namespace y) (name y) version).
    assert (E : <[cx := true]> (<[cy := true]> active)
                = <[cy := true]> (<[cx := true]> active)).
    { destruct (decide (cx = cy)) as [-> | Hne]; [reflexivity |].
      now apply insert_insert_ne. }
    rewrite E. apply active_chains_ignore_buffer.
  - rewrite (IH1 buf buf active). apply IH2.
Qed.

Lemma other_names_differ (pods before after : list podInfo) (pod : podInfo) (version : string) :
  List.NoDup (List.map (fun q => podFirewallChainName (namespace q) (name q) version) pods) ->
  pods = before ++ pod :: after ->
  forall q, In q (before ++ after) ->
            podFirewallChainName (namespace q) (name q) version
            <> podFirewallChainName (namespace pod) (name pod) version.
Proof.
  intros Hnd -> q Hq Heq.
  rewrite map_app in Hnd. cbn [List.map] in Hnd.
  apply List.NoDup_remove_2 in Hnd. apply Hnd.
  rewrite <- map_app, <- Heq.
  apply in_map_iff. exists q. auto.
Qed.

Lemma installed_pod_chain (pods before after : list podInfo) (pod : podInfo)
    (policies : list networkPolicyInfo) (version : string) :
  List.NoDup (List.map (fun q => podFirewallChainName (namespace q) (name q) version) pods) ->
  pods = before ++ pod :: after ->
  let chain := podFirewallChainName (namespace pod) (name pod) version in
  installedChain chain (fullSyncPodFirewallRules pods policies version)
  = insertedHead pod chain policies version ++ appendedTail pod chain.
Proof.
  intros Hnd Hpods chain. subst chain.
  set (chain := podFirewallChainName (namespace pod) (name pod) version).
  pose proof (other_names_differ pods before after pod version Hnd Hpods) as Hq.
  fold chain in Hq.
  destruct (pod_chain_not_top_level (namespace pod) (name pod) version) as (Hi & Hf & Ho).
  subst pods. unfold installedChain, fullSyncPodFirewallRules.
  rewrite flat_map_app. cbn [List.flat_map]. rewrite !fold_left_app.
  fold (fullSyncPodFirewallRules before policies version).
  fold (fullSyncPodFirewallRules after policies version).
  rewrite (installed_skips_other_pods chain before policies version [] Hi Hf Ho)
    by (intros q Hin; apply Hq, in_or_app; now left).
  pose proof (sync_rules_own_chain pod policies version []) as Hown.
  cbv zeta in Hown. fold chain in Hown. rewrite Hown.
  rewrite (installed_skips_other_pods chain after policies version _ Hi Hf Ho)
    by (intros q Hin; apply Hq, in_or_app; now right).
  reflexivity.
Qed.

(** The rules for [chain] among those written, as the restore primitive
    installs them: each is put first, so the last written comes first. *)
Lemma restore_mixed (chain : string) (rs : list rule) :
  Forall (fun r => List.nth 1 r "" <> chain \/ exists spec, r = "-I" :: chain :: "1" :: spec)
         rs ->
  forall installed,
    List.fold_left (restoreRule chain) rs installed
    = List.rev (List.map (List.skipn 3)
                  (List.filter (fun r => String.eqb (List.nth 1 r "") chain) rs))
      ++ installed.
Proof.
  induction 1 as [|r rs Hr _ IH]; intros installed; [reflexivity |].
  cbn [List.fold_left List.filter]. rewrite IH.
  destruct Hr as [Hne | [spec ->]].
  - rewrite restoreRule_other by exact Hne.
    apply String.eqb_neq in Hne. now rewrite Hne.
  - cbn [List.nth]. rewrite String.eqb_refl. cbn [List.map List.rev].
    unfold restoreRule. rewrite String.eqb_refl.
    change (String.eqb "-I" "-A") with false. change (String.eqb "-I" "-I") with true.
    cbv iota. change (Z.to_nat (NodePort.decimal "1" - 1)) with 0.
    cbn [List.firstn List.skipn app]. now rewrite <- app_assoc.
Qed.

Lemma sync_rules_for_top_level (pod : podInfo) (policies : list networkPolicyInfo)
    (version chain : string) :
  In chain primaryChains ->
  Forall (fun r => List.nth 1 r "" <> chain \/ exists spec, r = "-I" :: chain :: "1" :: spec)
         (syncPodFirewallRules pod policies version).
Proof.
  intros Hc.
  assert (Hne : podFirewallChainName (namespace pod) (name pod) version <> chain).
  { destruct (pod_chain_not_top_level (namespace pod) (name pod) version) as (Hi & Hf & Ho).
    destruct Hc as [<- | [<- | [<- | []]]]; assumption. }
  unfold syncPodFirewallRules.
  set (pc := podFirewallChainName (namespace pod) (name pod) version) in *.
  apply Forall_app_2.
  { eapply Forall_impl; [apply ingress_rules_insert |]. intros r [spec ->]. now left. }
  apply Forall_app_2.
  { eapply Forall_impl; [apply egress_rules_insert |]. intros r [spec ->]. now left. }
  apply Forall_app_2; [repeat (apply List.Forall_cons; [now left |]); apply List.Forall_nil |].
  apply Forall_app_2; [repeat (apply List.Forall_cons; [now left |]); apply List.Forall_nil |].
  unfold interceptPodInboundTraffic, interceptPodOutboundTraffic. cbv zeta. cbn [List.map app].
  repeat (apply List.Forall_cons;
          [cbn [List.nth];
           match goal with
           | |- ?x <> chain \/ _ =>
               destruct (String.eqb_spec x chain) as [<- | Hx];
               [right; eexists; reflexivity | now left]
           end |]).
  apply List.Forall_nil.
Qed.

Lemma installed_top_level (chain : string) (pods : list podInfo)
    (policies : list networkPolicyInfo) (version : string) :
  In chain primaryChains ->
  installedChain chain (fullSyncPodFirewallRules pods policies version)
  = List.rev (List.flat_map
                (fun pod =>
                   List.map (List.skipn 3)
                     (List.filter (fun r => String.eqb (List.nth 1 r "") chain)
                                  (syncPodFirewallRules pod policies version)))
                pods).
Proof.
  intros Hc. unfold installedChain, fullSyncPodFirewallRules.
  rewrite restore_mixed.
  - rewrite app_nil_r. f_equal.
    induction pods as [|pod pods IH]; [reflexivity |].
    cbn [List.flat_map]. rewrite List.filter_app, map_app. f_equal. exact IH.
  - apply Forall_forall. intros r Hr.
    apply list_elem_of_In, in_flat_map in Hr as (pod & _ & Hr).
    pose proof (sync_rules_for_top_level pod policies version chain Hc) as Hall.
    rewrite Forall_forall in Hall. apply Hall. now apply list_elem_of_In.
Qed.

(** X20. The local pods come out of a Go map, in an order that changes
    from run to run.  One full sync over pods with pairwise distinct chain
    names yields, whatever the order, the same active chains and, for
    every chain other than the three top-level ones, the same installed
    rules; a top-level chain gets the same rules in an order that follows
    the order of the pods. *)
Theorem full_sync_ignores_iteration_order (pods pods' : list podInfo)
    (policies : list networkPolicyInfo) (version : string) :
  Permutation pods pods' ->
  List.NoDup (List.map (fun q => podFirewallChainName (namespace q) (name q) version) pods) ->
  (forall (buf buf' : string) (active : gmap string bool),
      snd (fullSyncPodFirewallChains buf pods policies version active)
      = snd (fullSyncPodFirewallChains buf' pods' policies version active)) /\
  (forall chain : string,
      chain <> kubeInputChainName -> chain <> kubeForwardChainName ->
      chain <> kubeOutputChainName ->
      installedChain chain (fullSyncPodFirewallRules pods policies version)
      = installedChain chain (fullSyncPodFirewallRules pods' policies version)) /\
  (forall chain : string,
      In chain primaryChains ->
      Permutation (installedChain chain (fullSyncPodFirewallRules pods policies version))
                  (installedChain chain (fullSyncPodFirewallRules pods' policies version))).
Proof.
  intros Hperm Hnd. split; [now apply active_chains_permutation |].
  split.
  2:{ intros chain Hc. rewrite !installed_top_level by exact Hc.
      rewrite <- !Permutation_rev. now apply Permutation_flat_map. }
  intros chain Hi Hf Ho.
  assert (Hnd' : List.NoDup
                   (List.map (fun q => podFirewallChainName (namespace q) (name q) version)
                             pods')).
  { eapply Permutation_NoDup; [| exact Hnd]. now apply Permutation_map. }
  destruct (in_dec string_dec chain
              (List.map (fun q => podFirewallChainName (namespace q) (name q) version) pods))
    as [Hin | Hout].
  - apply in_map_iff in Hin as (pod & <- & Hpod).
    destruct (in_split _ _ Hpod) as (b & a & Hsplit).
    assert (Hpod' : In pod pods') by (eapply Permutation_in; eassumption).
    destruct (in_split _ _ Hpod') as (b' & a' & Hsplit').
    rewrite (installed_pod_chain pods b a pod policies version Hnd Hsplit).
    rewrite (installed_pod_chain pods' b' a' pod policies version Hnd' Hsplit').
    reflexivity.
  - unfold installedChain.
    rewrite !installed_skips_other_pods; auto.
    + intros q Hq Heq. apply Hout. apply in_map_iff. exists q. split; [exact Heq |].
      eapply Permutation_in; [apply Permutation_sym; exact Hperm | exact Hq].
    + intros q Hq Heq. apply Hout. apply in_map_iff. exists q. auto.
Qed.

End IterationOrder.

Lemma full_sync_ignores_iteration_order_witness :
  (forall (buf buf' : string) (active : gmap string bool),
      snd (fullSyncPodFirewallChains buf [samplePodInfo; otherPodInfo] [samplePolicy]
                                     sampleVersion active)
      = snd (fullSyncPodFirewallChains buf' [otherPodInfo; samplePodInfo] [samplePolicy]
                                       sampleVersion active)) /\
  (forall chain : string,
      chain <> kubeInputChainName -> chain <> kubeForwardChainName ->
      chain <> kubeOutputChainName ->
      installedChain chain (fullSyncPodFirewallRules [samplePodInfo; otherPodInfo]
                                                      [samplePolicy] sampleVersion)
      = installedChain chain (fullSyncPodFirewallRules [otherPodInfo; samplePodInfo]
                                                        [samplePolicy] sampleVersion)) /\
  (forall chain : string,
      In chain primaryChains ->
      Permutation
        (installedChain chain (fullSyncPodFirewallRules [samplePodInfo; otherPodInfo]
                                                        [samplePolicy] sampleVersion))
        (installedChain chain (fullSyncPodFirewallRules [otherPodInfo; samplePodInfo]
                                                        [samplePolicy] sampleVersion))).
Proof.
  apply (full_sync_ignores_iteration_order [samplePodInfo; otherPodInfo]
           [otherPodInfo; samplePodInfo] [samplePolicy] sampleVersion).
  - apply perm_swap.
  - apply List.NoDup_cons; [| apply List.NoDup_cons; [intros [] | apply List.NoDup_nil]].
    intros [H | []]. vm_compute in H. discriminate H.
Defined.

(** ** Pods that share a chain *)

Section SharedChain.

(** X21. The chain name is hashed from namespace, pod name and version
    run together with nothing between them, so two pods whose namespace
    and name run together to the same text get the same chain.  A full
    sync over two such pods declares that chain twice in the buffer, each
    declaration followed by the rules of one of the pods; it records one
    active chain for the two; and the rules the second pod writes for its
    own chain are written for the chain of the first. *)
Theorem pods_sharing_a_chain (pod1 pod2 : podInfo) (policies : list networkPolicyInfo)
    (version buf : string) (active : gmap string bool) :
  namespace pod1 +:+ name pod1 = namespace pod2 +:+ name pod2 ->
  let chain := podFirewallChainName (namespace pod1) (name pod1) version in
  podFirewallChainName (namespace pod2) (name pod2) version = chain /\
  fst (fullSyncPodFirewallChains buf [pod1; pod2] policies version active)
  = buf
    +:+ ((":" +:+ chain +:+ lf) +:+ renderRules (syncPodFirewallRules pod1 policies version))
    +:+ ((":" +:+ chain +:+ lf) +:+ renderRules (syncPodFirewallRules pod2 policies version)) /\
  snd (fullSyncPodFirewallChains buf [pod1; pod2] policies version active)
  = <[chain := true]> active /\
  ownChainRules pod2 policies version
  = setupPodIngressRules pod2 chain policies version
    ++ setupPodEgressRules pod2 chain policies version
    ++ processNonWhitelistedTrafficRules (name pod2) (namespace pod2) chain
    ++ processWhitelistedTrafficRules (name pod2) (namespace pod2) chain.
Proof.
  intros Heq chain.
  assert (Hsame : podFirewallChainName (namespace pod2) (name pod2) version = chain).
  { unfold chain, podFirewallChainName.
    rewrite <- !app_assoc_str, Heq. reflexivity. }
  split_and!.
  - exact Hsame.
  - rewrite fullSyncPodFirewallChains_text. cbn [List.fold_right]. unfold podSegment.
    rewrite Hsame. fold chain. now rewrite app_empty_r.
  - cbn [fullSyncPodFirewallChains snd]. rewrite Hsame. fold chain.
    apply insert_insert_eq.
  - unfold ownChainRules. now rewrite Hsame.
Qed.

End SharedChain.

Lemma pods_sharing_a_chain_witness :
  let chain := podFirewallChainName (namespace podOfTeam) (name podOfTeam) sampleVersion in
  podFirewallChainName (namespace podOfTeama) (name podOfTeama) sampleVersion = chain /\
  fst (fullSyncPodFirewallChains "" [podOfTeam; podOfTeama] [] sampleVersion ∅)
  = ""
    +:+ ((":" +:+ chain +:+ lf) +:+ renderRules (syncPodFirewallRules podOfTeam [] sampleVersion))
    +:+ ((":" +:+ chain +:+ lf) +:+ renderRules (syncPodFirewallRules podOfTeama [] sampleVersion)) /\
  snd (fullSyncPodFirewallChains "" [podOfTeam; podOfTeama] [] sampleVersion ∅)
  = <[chain := true]> ∅ /\
  ownChainRules podOfTeama [] sampleVersion
  = setupPodIngressRules podOfTeama chain [] sampleVersion
    ++ setupPodEgressRules podOfTeama chain [] sampleVersion
    ++ processNonWhitelistedTrafficRules (name podOfTeama) (namespace podOfTeama) chain
    ++ processWhitelistedTrafficRules (name podOfTeama) (namespace podOfTeama) chain.
Proof.
  apply (pods_sharing_a_chain podOfTeam podOfTeama [] sampleVersion "" ∅). reflexivity.
Defined.
(** * The pod chain, the collector and [Cleanup] as the program runs them *)

(** ** The installed order of a pod firewall chain, behind the collector *)

Section RestoredChain.
Import GoStrings.

Variables cleanupPodFwChains cleanupPolicyChains : list string.

Local Abbreviation reaches := (reachesRestore cleanupPodFwChains cleanupPolicyChains).
Local Abbreviation restored := (restoredRules cleanupPodFwChains cleanupPolicyChains).

Lemma restoredRules_app (a b : list rule) : restored (a ++ b) = restored a ++ restored b.
Proof. apply List.filter_app. Qed.

Lemma restoredRules_Forall (P : rule -> Prop) (rules : list rule) :
  Forall P rules -> Forall P (restored rules).
Proof.
  intros H. apply Forall_forall. intros r Hr.
  apply list_elem_of_In, filter_In in Hr as [Hr _].
  rewrite Forall_forall in H. apply H. now apply list_elem_of_In.
Qed.

Lemma restoredRules_all (rules : list rule) :
  List.forallb reaches rules = true -> restored rules = rules.
Proof.
  induction rules as [|r rules IH]; [reflexivity |].
  cbn [List.forallb]. intros H. apply andb_prop in H as [Hr Hrest].
  unfold restoredRules. cbn [List.filter]. rewrite Hr. f_equal. now apply IH.
Qed.

Lemma restoredRules_none (rules : list rule) :
  Forall (fun r => reaches r = false) rules -> restored rules = [].
Proof.
  induction 1 as [|r rules Hr _ IH]; [reflexivity |].
  unfold restoredRules. cbn [List.filter]. now rewrite Hr.
Qed.

(** What the rules of one pod that reach the restore make of its chain, on
    top of what is there: the jumps that were kept, last written first,
    ahead of it, and the closing rules that were kept after it, in the
    order written. *)
Lemma restored_own_chain (pod : podInfo) (policies : list networkPolicyInfo)
    (version : string) (installed : list rule) :
  let chain := podFirewallChainName (namespace pod) (name pod) version in
  List.fold_left (restoreRule chain) (restored (syncPodFirewallRules pod policies version))
                 installed
  = List.rev (List.map (List.skipn 3)
                (restored (setupPodIngressRules pod chain policies version
                           ++ setupPodEgressRules pod chain policies version)))
    ++ installed
    ++ List.map spec_of
         (restored [logRule (name pod) (namespace pod) chain;
                    rejectRule (name pod) (namespace pod) chain;
                    resetMarkRule chain; acceptMarkRule chain]).
Proof.
  intros chain. unfold syncPodFirewallRules. fold chain.
  set (ins := setupPodIngressRules pod chain policies version).
  set (egs := setupPodEgressRules pod chain policies version).
  set (icp := interceptPodInboundTraffic pod chain ++ interceptPodOutboundTraffic pod chain).
  change (processNonWhitelistedTrafficRules (name pod) (namespace pod) chain
          ++ processWhitelistedTrafficRules (name pod) (namespace pod) chain
          ++ icp)
    with ([logRule (name pod) (namespace pod) chain;
           rejectRule (name pod) (namespace pod) chain;
           resetMarkRule chain; acceptMarkRule chain] ++ icp).
  set (tail := [logRule (name pod) (namespace pod) chain;
                rejectRule (name pod) (namespace pod) chain;
                resetMarkRule chain; acceptMarkRule chain]).
  replace (ins ++ egs ++ tail ++ icp) with ((ins ++ egs) ++ tail ++ icp)
    by (now rewrite <- !app_assoc).
  rewrite (restoredRules_app (ins ++ egs)), (restoredRules_app tail).
  rewrite (fold_left_app _ (restored (ins ++ egs))), (fold_left_app _ (restored tail)).
  rewrite (restore_inserts chain (restored (ins ++ egs)))
    by (apply restoredRules_Forall, Forall_app_2;
        [apply ingress_rules_insert | apply egress_rules_insert]).
  rewrite (restore_appends chain (restored tail))
    by (apply restoredRules_Forall; repeat constructor; eexists; reflexivity).
  rewrite (restore_others chain (restored icp))
    by (apply restoredRules_Forall, intercept_rules_elsewhere).
  unfold spec_of. now rewrite <- app_assoc.
Qed.

Lemma restored_skips_other_pods (chain : string) (pods : list podInfo)
    (policies : list networkPolicyInfo) (version : string) (installed : list rule) :
  chain <> kubeInputChainName -> chain <> kubeForwardChainName ->
  chain <> kubeOutputChainName ->
  (forall q, In q pods -> podFirewallChainName (namespace q) (name q) version <> chain) ->
  List.fold_left (restoreRule chain) (restored (fullSyncPodFirewallRules pods policies version))
                 installed
  = installed.
Proof.
  intros Hi Hf Ho Hq. apply restore_others, restoredRules_Forall.
  unfold fullSyncPodFirewallRules. apply Forall_forall. intros r Hr.
  apply list_elem_of_In, in_flat_map in Hr. destruct Hr as (q & Hin & Hr).
  pose proof (sync_rules_elsewhere q policies version chain (Hq q Hin) Hi Hf Ho) as Hall.
  rewrite Forall_forall in Hall. apply Hall. now apply list_elem_of_In.
Qed.

(** A line holds what a part of it holds. *)
Lemma HasPrefix_app_r (p : string) :
  forall s q, HasPrefix s p = true -> HasPrefix (s +:+ q) p = true.
Proof.
  induction p as [|a p IH]; intros s q H; [reflexivity |].
  destruct s as [|b s]; [discriminate H |].
  rewrite app_String, HasPrefix_cons in *.
  destruct (Ascii.eqb a b); [now apply IH | discriminate H].
Qed.

Lemma Contains_app_r (sub : string) :
  forall s q, Contains s sub = true -> Contains (s +:+ q) sub = true.
Proof.
  induction s as [|b s IH]; intros q H; rewrite Contains_unfold in H.
  - destruct (HasPrefix "" sub) eqn:E; [| discriminate H].
    rewrite Contains_unfold, (HasPrefix_app_r sub "" q E). reflexivity.
  - destruct (HasPrefix (String b s) sub) eqn:E.
    + rewrite Contains_unfold. now rewrite (HasPrefix_app_r sub (String b s) q E).
    + rewrite app_String, Contains_unfold. rewrite (IH q H).
      now destruct (HasPrefix (String b (s +:+ q)) sub).
Qed.

Lemma Contains_app_l (sub s : string) :
  forall p, Contains s sub = true -> Contains (p +:+ s) sub = true.
Proof.
  induction p as [|a p IH]; intros H; [exact H |].
  rewrite app_String, Contains_unfold. rewrite (IH H). now destruct (HasPrefix _ sub).
Qed.

(** The line of a rule holds the name of the chain the rule is for. *)
Lemma ruleLine_names_chain (op chain x : string) (rest : list string) :
  exists after, ruleLine (op :: chain :: x :: rest) = (op +:+ " ") +:+ chain +:+ after.
Proof.
  unfold ruleLine.
  change (List.removelast (op :: chain :: x :: rest))
    with (op :: chain :: List.removelast (x :: rest)).
  destruct (List.removelast (x :: rest)) as [|y more].
  - exists " ". cbn [Join]. now rewrite !app_assoc_str.
  - exists ((" " +:+ Join (y :: more) " ") +:+ " ").
    change (Join (op :: chain :: y :: more) " ")
      with (op +:+ " " +:+ chain +:+ " " +:+ Join (y :: more) " ").
    now rewrite !app_assoc_str.
Qed.

Lemma line_with_COMMIT_is_dropped (r : rule) :
  Contains (ruleLine r) "COMMIT" = true -> reaches r = false.
Proof.
  intros H. unfold reachesRestore, skipRule. rewrite H.
  now rewrite !orb_true_r.
Qed.

Lemma own_rule_dropped (op chain x : string) (rest : list string) :
  Contains chain "COMMIT" = true -> reaches (op :: chain :: x :: rest) = false.
Proof.
  intros H. apply line_with_COMMIT_is_dropped.
  destruct (ruleLine_names_chain op chain x rest) as [after ->].
  apply Contains_app_l, Contains_app_r, H.
Qed.

(** The lines the collector goes through and the rule lines it hands to
    the restore primitive, for pods and policies whose names hold no line
    feed and a dump of complete lines: behind the rule lines of the dump
    that are kept come the lines of the rules in [restoredRules], so
    [restoredRules] is what the restore gets of the composer's rules. *)
Lemma rule_lines_handed_to_restore (dump : list string) (pods : list podInfo)
    (policies : list networkPolicyInfo) (version : string) (active : gmap string bool) :
  Forall (fun l => noLineFeed l = true) dump ->
  Forall (fun pod => plainPod pod = true) pods ->
  Forall (fun policy => plainPolicy policy = true) policies ->
  let buffer := fst (fullSyncPodFirewallChains (unlines dump) pods policies version active) in
  List.filter isRuleLine (keptLines buffer cleanupPodFwChains cleanupPolicyChains)
  = List.filter isRuleLine
      (List.filter (fun l => negb (skipRule cleanupPodFwChains cleanupPolicyChains l)) dump)
    ++ List.map ruleLine (restored (fullSyncPodFirewallRules pods policies version)).
Proof.
  intros Hdump Hpods Hpol buffer. subst buffer. unfold keptLines.
  rewrite fullSyncPodFirewallChains_text.
  assert (H : List.fold_right (fun pod text => podSegment policies version pod +:+ text) "" pods
              = unlines (List.flat_map (podLines policies version) pods) /\
              Forall (fun l => noLineFeed l = true)
                     (List.flat_map (podLines policies version) pods)).
  { clear Hdump. induction Hpods as [|pod pods Hpod _ [IH1 IH2]];
      [split; [reflexivity | constructor] |].
    destruct (podSegment_lines policies version pod Hpod Hpol) as [Hs Hn].
    cbn [List.fold_right List.flat_map]. rewrite IH1, Hs, unlines_app. split; [reflexivity |].
    apply Forall_app. auto. }
  destruct H as [Ht Hn]. rewrite Ht, <- unlines_app.
  rewrite dumpLines_unlines by (apply Forall_app; auto).
  rewrite !List.filter_app. f_equal.
  clear. induction pods as [|pod pods IH]; [reflexivity |].
  unfold fullSyncPodFirewallRules in *. cbn [List.flat_map].
  rewrite restoredRules_app, map_app, !List.filter_app, IH. f_equal.
  unfold podLines. cbn [List.filter].
  assert (Hdecl : isRuleLine (":" +:+ podFirewallChainName (namespace pod) (name pod) version)
                  = false) by reflexivity.
  destruct (negb (skipRule cleanupPodFwChains cleanupPolicyChains _)); cbn [List.filter];
    rewrite ?Hdecl.
  all: generalize (syncPodFirewallRules pod policies version); intros rules;
    induction rules as [|r rules IHr]; [reflexivity |];
    unfold restoredRules, reachesRestore in *; cbn [List.map List.filter];
    destruct (negb (skipRule cleanupPodFwChains cleanupPolicyChains (ruleLine r)));
    cbn [List.filter andb]; [destruct (isRuleLine (ruleLine r)); cbn [List.map] |];
    now rewrite IHr.
Qed.


End RestoredChain.



(** ** The garbage collector: what the restore is handed *)

(** C5. The classification is as the specification has it, the removal is
    not.  On every host and whatever the active maps, no default chain is
    on a clean-up list, and a chain on a clean-up list has the policy or
    the pod firewall prefix.  On [crowdedHost] the clean-up lists so hold
    the two short names and nothing else.  Yet the collector matches the
    stale names as parts of a line: it deletes from the three top-level
    chains the jumps to KUBE-POD-FW-DEFAULT, whose text holds
    KUBE-POD-FW-D, and the buffer it hands to the restore primitive
    declares none of the three default chains and holds none of their
    rules, each of their lines holding KUBE-POD-FW-D or
    KUBE-NWPLCY-DEFAULT; the chain AUTOCOMMIT of another tool is left out
    of the buffer with them, for the letters COMMIT in its name.  Whatever
    the restore primitive is, it is handed that table and that buffer. *)
Theorem cleanupStaleRules_drops_spared_chains :
  (forall (h : host) (activePolicyChains activePodFwChains : gmap string bool) (c : string),
      let cleanup := staleChains (ListChains (filterTable h))
                                 (withDefaultPolicyChains activePolicyChains)
                                 (withDefaultPodFwChain activePodFwChains) in
      (In c defaultChains -> ~ In c (fst cleanup) /\ ~ In c (snd cleanup)) /\
      (In c (fst cleanup) -> GoStrings.HasPrefix c kubeNetworkPolicyChainPrefix = true) /\
      (In c (snd cleanup) -> GoStrings.HasPrefix c kubePodFirewallChainPrefix = true)) /\
  staleChains (ListChains (filterTable crowdedHost))
              (withDefaultPolicyChains ∅) (withDefaultPodFwChain ∅)
  = (["KUBE-NWPLCY-DEFAULT"], ["KUBE-POD-FW-D"]) /\
  staleIPSets (ipsetTable crowdedHost) ∅ = [] /\
  removeStaleReferences (filterTable crowdedHost) ["KUBE-POD-FW-D"]
  = inl (setChainRules
           (setChainRules
              (setChainRules (filterTable crowdedHost) kubeInputChainName [])
              kubeForwardChainName [])
           kubeOutputChainName []) /\
  desiredFilterTable crowdedDump ["KUBE-POD-FW-D"] ["KUBE-NWPLCY-DEFAULT"]
  = unlines ["*filter";
             ":INPUT ACCEPT [0:0] - [0:0]";
             ":FORWARD ACCEPT [0:0] - [0:0]";
             ":OUTPUT ACCEPT [0:0] - [0:0]";
             ":KUBE-ROUTER-INPUT - [0:0] - [0:0]";
             ":KUBE-ROUTER-FORWARD - [0:0] - [0:0]";
             ":KUBE-ROUTER-OUTPUT - [0:0] - [0:0]";
             "-A INPUT -j KUBE-ROUTER-INPUT";
             "-A FORWARD -j KUBE-ROUTER-FORWARD";
             "-A OUTPUT -j KUBE-ROUTER-OUTPUT";
             "COMMIT"] /\
  (forall Restore : table -> string -> result table,
      cleanupStaleRules Restore crowdedHost crowdedDump ∅ ∅ ∅
      = (t ← Restore
               (setChainRules
                  (setChainRules
                     (setChainRules (filterTable crowdedHost) kubeInputChainName [])
                     kubeForwardChainName [])
                  kubeOutputChainName [])
               (desiredFilterTable crowdedDump ["KUBE-POD-FW-D"] ["KUBE-NWPLCY-DEFAULT"]);
         mret {| filterTable := t; ipsetTable := ipsetTable crowdedHost |})).
Proof.
  split; [| split_and!; vm_compute; reflexivity].
  intros h activePolicyChains activePodFwChains c cleanup.
  pose proof (stale_classification acceptingRestore h "" activePolicyChains activePodFwChains ∅)
    as (Hd & Hp & Hf & _).
  cbv zeta in Hd, Hp, Hf. fold cleanup in Hd, Hp, Hf.
  split_and!.
  - exact (Hd c).
  - intros Hin. exact (proj1 (Hp c Hin)).
  - intros Hin. exact (proj1 (Hf c Hin)).
Qed.

(** ** [Cleanup] on a host a sync has set up *)

Section CleanupOnSyncedHost.
Import GoStrings.

(** A chain that a rule of a chain outside the prefix jumps to is still
    listed when the flush-and-delete loop stops. *)
Lemma flushAndDelete_keeps_referenced (prefix keeper podChain r : string)
    (rules : list string) (chains : list string) :
  HasPrefix podChain prefix = true ->
  HasPrefix keeper prefix = false ->
  In r rules -> jumpsTo podChain r = true ->
  forall t,
    chainRules t keeper = Some rules ->
    In podChain (ListChains t) ->
    In podChain (ListChains (fst (flushAndDelete prefix t chains))).
Proof.
  intros Hp Hk Hr Hj. induction chains as [|chain chains IH]; intros t Ht Hin; [exact Hin |].
  cbn [flushAndDelete].
  destruct (HasPrefix chain prefix) eqn:Hc; [| now apply IH].
  assert (Hne : keeper <> chain) by (intros ->; congruence).
  destruct (ClearChain t chain) as [t1|e1] eqn:E1; [| exact Hin].
  assert (Ht1 : chainRules t1 keeper = Some rules).
  { rewrite <- Ht. eapply ClearChain_other; eassumption. }
  assert (Hin1 : In podChain (ListChains t1)).
  { unfold ClearChain in E1. destruct (chainRules t chain); injection E1 as <-.
    - now rewrite ListChains_setChainRules.
    - unfold ListChains. rewrite map_app. apply in_or_app. now left. }
  destruct (DeleteChain t1 chain) as [t2|e2] eqn:E2; cbn [fst]; [| exact Hin1].
  assert (Hchain : chain <> podChain).
  { intros ->. unfold DeleteChain in E2.
    rewrite (ClearChain_flushes _ _ _ E1) in E2.
    rewrite (referenced_by_rule t1 keeper podChain r rules Ht1 Hr Hj) in E2.
    discriminate E2. }
  apply DeleteChain_result in E2. subst t2.
  apply IH.
  - now rewrite chainRules_remove_ne.
  - unfold ListChains in *. apply in_map_iff in Hin1 as ([n rs] & Hn & Hin1). cbn [fst] in Hn.
    subst n. apply in_map_iff. exists (podChain, rs). split; [reflexivity |].
    apply filter_In. split; [exact Hin1 |]. cbn [fst].
    apply negb_true_iff, String.eqb_neq. congruence.
Qed.

(** C7. [Cleanup] scans KUBE-ROUTER-FORWARD and KUBE-ROUTER-OUTPUT for
    jumps to pod chains and leaves KUBE-ROUTER-INPUT out, where the sync
    puts such jumps as well.  So on a host whose inbound top-level chain
    jumps to a listed chain under the pod firewall prefix, one call of
    [Cleanup] reports a failure and leaves behind what it was to remove:
    that pod chain is still listed; every chain outside the pod firewall
    prefix other than KUBE-ROUTER-FORWARD and KUBE-ROUTER-OUTPUT, so every
    policy chain, KUBE-ROUTER-INPUT and the built-in chains with their
    jumps, is exactly as it was; the three top-level chains that were
    listed still are; and every IP set is in place. *)
Theorem Cleanup_leaves_synced_host_configured (h : host) (podChain r : string)
    (rules : list string) :
  HasPrefix podChain kubePodFirewallChainPrefix = true ->
  In podChain (ListChains (filterTable h)) ->
  chainRules (filterTable h) kubeInputChainName = Some rules ->
  In r rules ->
  jumpsTo podChain r = true ->
  List.last (snd (Cleanup h)) "" <> cleanedUp /\
  In podChain (ListChains (filterTable (fst (Cleanup h)))) /\
  (forall c : string,
      HasPrefix c kubePodFirewallChainPrefix = false ->
      c <> kubeForwardChainName -> c <> kubeOutputChainName ->
      chainRules (filterTable (fst (Cleanup h))) c = chainRules (filterTable h) c) /\
  (forall c : string,
      c = kubeInputChainName \/ c = kubeForwardChainName \/ c = kubeOutputChainName ->
      is_Some (chainRules (filterTable h) c) ->
      is_Some (chainRules (filterTable (fst (Cleanup h))) c)) /\
  ipsetTable (fst (Cleanup h)) = ipsetTable h.
Proof.
  intros Hp Hin Ht Hr Hj. unfold Cleanup.
  set (log0 := ["Cleaning up iptables configuration permanently done by kube-router"]).
  destruct (ListRules (filterTable h) kubeForwardChainName) as [l1|e1] eqn:L1.
  2:{ cbn [fst snd]. split_and!; [| exact Hin | reflexivity | auto | reflexivity].
      rewrite last_snoc. discriminate. }
  pose proof (fun c Hc => cleanupReferences_other kubeForwardChainName c l1
                Hc (filterTable h) 0%Z 0%Z log0) as T1.
  pose proof (cleanupReferences_names kubeForwardChainName l1 (filterTable h) 0 0 log0) as N1.
  assert (S1 : is_Some (chainRules (filterTable h) kubeForwardChainName) ->
               is_Some (chainRules (fst (cleanupReferences (filterTable h) kubeForwardChainName
                                           l1 0 0 log0)) kubeForwardChainName)).
  { intros [rs Hrs].
    rewrite (cleanupReferences_scan kubeForwardChainName (filterTable h) rs l1 log0
               eq_refl Hrs L1). eauto. }
  destruct (cleanupReferences (filterTable h) kubeForwardChainName l1 0 0 log0) as [t1 log1].
  cbn [fst] in T1, N1, S1.
  destruct (ListRules t1 kubeOutputChainName) as [l2|e2] eqn:L2.
  2:{ cbn [fst snd filterTable ipsetTable].
      split_and!; [| now rewrite N1 | intros c _ Hf _; now apply T1 | | reflexivity].
      - rewrite last_snoc. discriminate.
      - intros c [-> | [-> | ->]] Hs.
        + now rewrite T1 by discriminate.
        + now apply S1.
        + now rewrite T1 by discriminate. }
  pose proof (fun c Hc => cleanupReferences_other kubeOutputChainName c l2
                Hc t1 0%Z 0%Z log1) as T2.
  pose proof (cleanupReferences_names kubeOutputChainName l2 t1 0 0 log1) as N2.
  assert (S2 : is_Some (chainRules t1 kubeOutputChainName) ->
               is_Some (chainRules (fst (cleanupReferences t1 kubeOutputChainName
                                           l2 0 0 log1)) kubeOutputChainName)).
  { intros [rs Hrs].
    rewrite (cleanupReferences_scan kubeOutputChainName t1 rs l2 log1 eq_refl Hrs L2). eauto. }
  destruct (cleanupReferences t1 kubeOutputChainName l2 0 0 log1) as [t2 log2].
  cbn [fst] in T2, N2, S2.
  assert (Ht2 : chainRules t2 kubeInputChainName = Some rules).
  { rewrite T2, T1 by discriminate. exact Ht. }
  assert (Hin2 : In podChain (ListChains t2)) by (now rewrite N2, N1).
  destruct (flushAndDelete_refused kubePodFirewallChainPrefix kubeInputChainName podChain r
              rules (ListChains t2) Hp eq_refl Hr Hj Hin2 t2 Ht2)
    as (t3 & err & F & K).
  pose proof (flushAndDelete_keeps_referenced kubePodFirewallChainPrefix kubeInputChainName
                podChain r rules (ListChains t2) Hp eq_refl Hr Hj t2 Ht2 Hin2) as L3.
  pose proof (fun c Hc => flushAndDelete_other kubePodFirewallChainPrefix c (ListChains t2)
                Hc t2) as T3.
  rewrite F in L3, T3 |- *. cbn [fst snd filterTable ipsetTable] in *.
  split_and!; [| exact L3 | | | reflexivity].
  - rewrite last_snoc. unfold cleanedUp. intros H.
    apply (f_equal (fun s => String.get 0 s)) in H. discriminate H.
  - intros c Hc Hf Ho. now rewrite T3, T2, T1.
  - intros c [-> | [-> | ->]] Hs.
    + now rewrite K.
    + rewrite T3 by reflexivity. rewrite T2 by discriminate. now apply S1.
    + rewrite T3 by reflexivity. apply S2. now rewrite T1 by discriminate.
Qed.

End CleanupOnSyncedHost.

Lemma Cleanup_leaves_synced_host_configured_witness :
  List.last (snd (Cleanup sampleHost)) "" <> cleanedUp /\
  In KubeDefaultPodFWChain (ListChains (filterTable (fst (Cleanup sampleHost)))) /\
  (forall c : string,
      GoStrings.HasPrefix c kubePodFirewallChainPrefix = false ->
      c <> kubeForwardChainName -> c <> kubeOutputChainName ->
      chainRules (filterTable (fst (Cleanup sampleHost))) c
      = chainRules (filterTable sampleHost) c) /\
  (forall c : string,
      c = kubeInputChainName \/ c = kubeForwardChainName \/ c = kubeOutputChainName ->
      is_Some (chainRules (filterTable sampleHost) c) ->
      is_Some (chainRules (filterTable (fst (Cleanup sampleHost))) c)) /\
  ipsetTable (fst (Cleanup sampleHost)) = ipsetTable sampleHost.
Proof.
  apply (Cleanup_leaves_synced_host_configured sampleHost KubeDefaultPodFWChain
           "-j KUBE-POD-FW-DEFAULT"
           ["-s 10.1.2.9 -j KUBE-POD-FW-AAAAAAAAAAAAAAAA"; "-j KUBE-POD-FW-DEFAULT"]).
  - reflexivity.
  - vm_compute. auto 20.
  - reflexivity.
  - right. now left.
  - vm_compute. reflexivity.
Defined.
